(** * panda-parse: the grammar engine of [src/index.js]

    A shallow embedding of the scanner ([Lexer]), of [Token], of the
    grammar expressions ([ShapeExp]) and of the parse drivers ([$AST.parse],
    [$AST_LEFT_RECURSIVE.parse]), with the properties of the specification
    stated over them.

    Conventions.
    - A JavaScript string is a list of code units ([list ascii], so code
      units below 256); indices into it are [nat], quantities the source
      lets go negative (the column before clamping, the bounds of the binary
      search, the [-1] of a failed search) are [Z].
    - The mutable [Lexer] object is threaded explicitly: every method takes
      a [Lexer] and returns its result with the new [Lexer].
    - [RegExp] is a built-in of the host language.  It is modelled by a
      small backtracking matcher for the constructs the repository's own
      patterns use, with the [y] (sticky) and [g] (global) flags.
    - A class extending [$AST] is a record of its static fields ([Kind]);
      a grammar maps class names to kinds.  Recursion through the grammar
      need not terminate, so [ShapeExp.parse] takes a budget and every
      outcome is [Ok], [Thrown] or [NoFuel].

    Not modelled: [$INDENT_BLOCK], [$EXP], the cache of the scanner, the
    [domProps] and padding fields, [toSimpleObj] and [getVisibleTokens]. *)

From Stdlib Require Import Ascii String.
From Stdlib Require Import List Arith ZArith Lia Bool.
Import ListNotations.
Open Scope nat_scope.

Set Implicit Arguments.

(** ** Strings *)

Definition jstr := list ascii.

Definition lit (s : string) : jstr := list_ascii_of_string s.

Definition NL : ascii := Ascii.ascii_of_nat 10.
Definition SP : ascii := Ascii.ascii_of_nat 32.

Definition is_nl (c : ascii) : bool := Ascii.eqb c NL.

(** [String.prototype.trim] strips the white space and line terminator
    code units; below 256 these are TAB, LF, VT, FF, CR, SPACE and NBSP. *)
Definition is_js_space (c : ascii) : bool :=
  let n := nat_of_ascii c in
  ((9 <=? n) && (n <=? 13)) || (n =? 32) || (n =? 160).

Fixpoint trimStart (s : jstr) : jstr :=
  match s with
  | c :: s' => if is_js_space c then trimStart s' else s
  | [] => []
  end.

Definition trimEnd (s : jstr) : jstr := rev (trimStart (rev s)).

Definition trim (s : jstr) : jstr := trimEnd (trimStart s).

(** [s.slice(a, b)] for [0 <= a], [0 <= b]. *)
Definition slice (s : jstr) (a b : nat) : jstr := firstn (b - a) (skipn a s).

(** [s.split("\n")]. *)
Fixpoint split_nl (s : jstr) : list jstr :=
  match s with
  | [] => [[]]
  | c :: s' =>
      if is_nl c then [] :: split_nl s'
      else match split_nl s' with
           | l :: ls => (c :: l) :: ls
           | [] => [[c]]
           end
  end.

(** [s.lastIndexOf("\n", from)]: the largest index [k <= from] with
    [s[k] = "\n"], or [-1]; a negative [from] is clamped to [0]. *)
Fixpoint last_nl_upto (s : jstr) (n : nat) : Z :=
  match n with
  | 0 => (-1)%Z
  | S k => match nth_error s k with
           | Some c => if is_nl c then Z.of_nat k else last_nl_upto s k
           | None => last_nl_upto s k
           end
  end.

Definition lastIndexOf_nl (s : jstr) (from : Z) : Z :=
  last_nl_upto s (S (Z.to_nat from)).

(** ** Regular expressions (host built-in) *)

Inductive re : Type :=
| RChar (c : ascii)
| RSet (p : ascii -> bool)
| REps
| RSeq (a b : re)
| RAlt (a b : re)
| RStar (a : re).

Definition RPlus (a : re) : re := RSeq a (RStar a).
Definition ROpt (a : re) : re := RAlt a REps.

(** Greedy iteration; an iteration that consumes nothing is rejected, as
    the host language does. *)
Fixpoint star_lens (step : jstr -> list nat) (fuel : nat) (s : jstr) : list nat :=
  match fuel with
  | 0 => [0]
  | S f =>
      flat_map (fun n => if n =? 0 then []
                         else map (Nat.add n) (star_lens step f (skipn n s)))
               (step s) ++ [0]
  end.

(** The lengths of the matches of [r] at the head of [s], in backtracking
    priority order; the head of the list is the match [exec] reports. *)
Fixpoint re_lens (r : re) (s : jstr) : list nat :=
  match r with
  | RChar c => match s with
               | x :: _ => if Ascii.eqb x c then [1] else []
               | [] => []
               end
  | RSet p => match s with
              | x :: _ => if p x then [1] else []
              | [] => []
              end
  | REps => [0]
  | RSeq a b =>
      flat_map (fun n => map (Nat.add n) (re_lens b (skipn n s))) (re_lens a s)
  | RAlt a b => re_lens a s ++ re_lens b s
  | RStar a => star_lens (re_lens a) (length s) s
  end.

Record RegExp : Type := mkRegExp {
  source : re;
  sticky : bool;
  global : bool
}.

(** First index [i >= from] (trying [n] positions) at which [r] matches. *)
Fixpoint search_from (r : re) (s : jstr) (from n : nat) : option (nat * nat) :=
  match n with
  | 0 => None
  | S k => match hd_error (re_lens r (skipn from s)) with
           | Some len => Some (from, len)
           | None => search_from r s (S from) k
           end
  end.

(** [regex.exec(s)] with [regex.lastIndex = lastIndex]: the index and the
    length of [match[0]].  A sticky pattern is tried at [lastIndex] only; a
    global one is searched from [lastIndex] on; a pattern with neither flag
    ignores [lastIndex] and is searched from [0]. *)
Definition exec (r : RegExp) (lastIndex : nat) (s : jstr) : option (nat * nat) :=
  if sticky r then
    if lastIndex <=? length s then
      match hd_error (re_lens (source r) (skipn lastIndex s)) with
      | Some len => Some (lastIndex, len)
      | None => None
      end
    else None
  else if global r then
    if lastIndex <=? length s
    then search_from (source r) s lastIndex (S (length s - lastIndex))
    else None
  else search_from (source r) s 0 (S (length s)).

(** [const WHITESPACE_REGEX = /(?:[ ]+\n?|\n)/y] *)
Definition WHITESPACE_REGEX : RegExp :=
  mkRegExp (RAlt (RSeq (RPlus (RChar SP)) (ROpt (RChar NL))) (RChar NL)) true false.

(** [new RegExp()]: the empty pattern, no flags. *)
Definition RegExp_empty : RegExp := mkRegExp REps false false.

Inductive pattern : Type :=
| PStr (s : jstr)
| PRe (r : RegExp).

(** ** Array.prototype.binarySearch *)

Section BinarySearch.
Variable A : Type.
Variable callback : A -> Z.

(** The [while (low <= high)] loop; [fuel] bounds its iterations. *)
Fixpoint binarySearch_loop (fuel : nat) (l : list A) (low high : Z) : Z :=
    match fuel with
    | 0 => (-1)%Z
    | S f =>
        if (low <=? high)%Z then
          let mid := ((low + high) / 2)%Z in
          match nth_error l (Z.to_nat mid) with
          | Some x =>
              let comparison := callback x in
              if (comparison =? 0)%Z then mid
              else if (comparison <? 0)%Z then binarySearch_loop f l low (mid - 1)
              else binarySearch_loop f l (mid + 1) high
          | None => (-1)%Z
          end
        else (-1)%Z
    end.

Definition binarySearch (l : list A) : Z :=
    binarySearch_loop (S (length l)) l 0 (Z.of_nat (length l) - 1).
End BinarySearch.

(** ** Grammar expressions

    A node kind (a class extending [$AST]) is referred to by its name.  A
    [ShapeExp] is modelled as the [Shape] constructor leaves it: limit
    descriptors bound, right delimiters inferred, patterns made sticky by
    [formatRegex].  A lazy expression is a thunk returning a node kind (the
    forward reference [() => $EXPR]); [parse] resolves it in place before
    use, so it then behaves as the reference itself. *)

Definition kind_id := string.

Inductive ShapeValue : Type :=
| VText (p : pattern)
| VAst (k : kind_id)
| VOption (opts : list ShapeExp)
| VSubShape (shape : list ShapeExp)
| VLazy (k : kind_id)
with ShapeExp : Type :=
| mkShapeExp (se_value : ShapeValue) (se_rightDelimeter : option pattern)
             (se_min : nat) (se_max : option nat) (se_e : option jstr).

Definition se_value (x : ShapeExp) : ShapeValue :=
  let (v, _, _, _, _) := x in v.
Definition se_rightDelimeter (x : ShapeExp) : option pattern :=
  let (_, d, _, _, _) := x in d.
Definition se_min (x : ShapeExp) : nat :=
  let (_, _, m, _, _) := x in m.
(** [max]; [None] is [Infinity]. *)
Definition se_max (x : ShapeExp) : option nat :=
  let (_, _, _, m, _) := x in m.
(** [e]: the message a limit descriptor may carry. *)
Definition se_e (x : ShapeExp) : option jstr :=
  let (_, _, _, _, m) := x in m.

(** [static formatRegex(regex)]; a leading [^] has no counterpart in [re]. *)
Definition formatRegex (r : RegExp) : RegExp :=
  mkRegExp (source r) true (global r).

Definition formatPattern (p : pattern) : pattern :=
  match p with
  | PStr s => PStr s
  | PRe r => PRe (formatRegex r)
  end.

(** [new ShapeExp({ value, rightDelimeter, min = 1, max = 1 })] followed by
    the [Object.assign] of a limit descriptor. *)
Definition ShapeExp_new (v : ShapeValue) (rd : option pattern)
    (min : nat) (max : option nat) (e : option jstr) : ShapeExp :=
  mkShapeExp
    (match v with VText p => VText (formatPattern p) | _ => v end)
    (option_map formatPattern rd) min max e.

Definition TEXT_EXP (x : ShapeExp) : bool :=
  match se_value x with VText _ => true | _ => false end.

(** ** Token *)

Record Token : Type := mkToken {
  type : pattern;
  value : jstr;
  start : nat;
  end_ : nat;
  line : Z;
  col : Z;
  indent : nat;
  isMissing : bool;
  shapeExp : option ShapeExp
}.

(** [get isWhiteSpace() { return !this.text.trim().length; }] *)
Definition isWhiteSpace (t : Token) : bool :=
  length (trim (value t)) =? 0.

(** ** Lexer

    The scanner as the parse drivers use it: [$AST.parse], [ShapeExp.parse]
    and [$AST_LEFT_RECURSIVE.parse] only store in [cursor] what they read
    from it or what [eat] computed, so [cursor] and [tasteCursor] are never
    negative there, which their type says.  The statements about [Lexer]
    are statements about a scanner whose cursor is [0] or more.
    [$INDENT_BLOCK.parse] steps the cursor below [0]; the scanner at any
    integer cursor is [AnyCursor] below. *)

Record Lexer : Type := mkLexer {
  str : jstr;
  cursor : nat;
  tasteCursor : nat;
  cursorStack : list nat
}.

Definition Lexer_new (s : jstr) : Lexer := mkLexer s 0 0 [].

Definition set_cursor (lx : Lexer) (c : nat) : Lexer :=
  mkLexer (str lx) c (tasteCursor lx) (cursorStack lx).

Definition set_tasteCursor (lx : Lexer) (c : nat) : Lexer :=
  mkLexer (str lx) (cursor lx) c (cursorStack lx).

(** The constructor's derived tables; [str] is never assigned again, so
    they are functions of it. *)
Definition lines (lx : Lexer) : list jstr := split_nl (str lx).

Fixpoint lineOffsets_from (cursor : nat) (ls : list jstr) : list (nat * nat) :=
  match ls with
  | [] => []
  | l :: rest =>
      (cursor, cursor + length l) :: lineOffsets_from (cursor + length l + 1) rest
  end.

Definition lineOffsets (lx : Lexer) : list (nat * nat) :=
  lineOffsets_from 0 (lines lx).

Definition lineIndents (lx : Lexer) : list nat :=
  map (fun l => length l - length (trimStart l)) (lines lx).

Definition line_cmp (c : nat) (o : nat * nat) : Z :=
  let (s, e) := o in
  if c <? s then (-1)%Z else if e <? c then 1%Z else 0%Z.

Definition currentLine (lx : Lexer) : Z :=
  binarySearch (line_cmp (cursor lx)) (lineOffsets lx).

Definition clamp_line (lx : Lexer) (line : nat) : nat :=
  if length (lines lx) <=? line then length (lines lx) - 1 else line.

Definition lineStart (lx : Lexer) (line : nat) : nat :=
  fst (nth (clamp_line lx line) (lineOffsets lx) (0, 0)).

Definition lineEnd (lx : Lexer) (line : nat) : nat :=
  snd (nth (clamp_line lx line) (lineOffsets lx) (0, 0)).

Definition lineIndent (lx : Lexer) (line : nat) : option nat :=
  nth_error (lineIndents lx) line.

Fixpoint linesInRange_from (i : nat) (offs : list (nat * nat)) (a b : nat) : list nat :=
  match offs with
  | [] => []
  | (lineStart, lineEnd) :: rest =>
      if (lineStart <=? b) && (a <=? lineEnd)
      then i :: linesInRange_from (S i) rest a b
      else linesInRange_from (S i) rest a b
  end.

Definition linesInRange (lx : Lexer) (a b : nat) : list nat :=
  linesInRange_from 0 (lineOffsets lx) a b.

Definition pushCursor (lx : Lexer) : Lexer :=
  mkLexer (str lx) (cursor lx) (tasteCursor lx) (cursorStack lx ++ [cursor lx]).

Definition popCursor (lx : Lexer) : Lexer :=
  match rev (cursorStack lx) with
  | [] => lx
  | c :: rest => mkLexer (str lx) c (tasteCursor lx) (rev rest)
  end.

(** The [for] loop of [taste] on a literal: [true] when some code unit
    differs (a position past the end of the input differs from any). *)
Fixpoint failedMatch (regex s : jstr) : bool :=
  match regex with
  | [] => false
  | c :: regex' =>
      match s with
      | x :: s' => if Ascii.eqb c x then failedMatch regex' s' else true
      | [] => true
      end
  end.

(** [taste(regex)]; [None] as argument stands for [null]/[undefined].  The
    closure [eatLeadingWhitespace] of the source is never called and has no
    counterpart here. *)
Definition taste (regex : option pattern) (lx : Lexer) : option jstr * Lexer :=
  match regex with
  | None => (None, lx)
  | Some (PStr []) => (None, lx)
  | Some (PStr s) =>
      let lx1 := set_tasteCursor lx (cursor lx) in
      if failedMatch s (skipn (tasteCursor lx1) (str lx1)) then (None, lx1)
      else (Some s, set_tasteCursor lx1 (tasteCursor lx1 + length s))
  | Some (PRe r) =>
      let lx1 := set_tasteCursor lx (cursor lx) in
      match exec r (tasteCursor lx1) (str lx1) with
      | Some (index, len) =>
          (Some (slice (str lx1) index (index + len)),
           set_tasteCursor lx1 (tasteCursor lx1 + len))
      | None => (None, lx1)
      end
  end.

(** [eat(regex)] *)
Definition eat (regex : option pattern) (lx : Lexer) : option Token * Lexer :=
  match regex with
  | None => (None, lx)
  | Some p =>
      match taste regex lx with
      | (Some value, lx1) =>
          let lx2 := set_cursor lx1 (tasteCursor lx1 - length value) in
          let col := (Z.of_nat (cursor lx2)
                      - lastIndexOf_nl (str lx2) (Z.of_nat (cursor lx2) - 1) - 1)%Z in
          let col := if (col <? 0)%Z then 0%Z else col in
          let line := currentLine lx2 in
          let token :=
            mkToken p value (cursor lx2)
                    (cursor lx2 + length value) line col
                    (if (line <? 0)%Z then 0
                     else nth (Z.to_nat line) (lineIndents lx2) 0)
                    false None in
          (Some token, set_cursor lx2 (cursor lx2 + length value))
      | (None, lx1) => (None, lx1)
      end
  end.

(** ** Nodes

    The children of a node are tokens and nodes.  [ShapeExp.parse] hangs a
    copy of the expression on the token or node it was given
    ([result.shapeExp]); both carry it as a field. *)

Inductive exp : Type :=
| ETok (t : Token)
| ENode (n : Node)
with Node : Type :=
| mkNode (name : string) (exps : list exp) (node_shapeExp : option ShapeExp).

Definition name (n : Node) : string := let (s, _, _) := n in s.
Definition exps (n : Node) : list exp := let (_, l, _) := n in l.
Definition node_shapeExp (n : Node) : option ShapeExp := let (_, _, s) := n in s.

(** The constructor's [_tokens]: the tokens of the children, in order. *)
Fixpoint tokens (n : Node) : list Token :=
  let fix go (l : list exp) : list Token :=
    match l with
    | [] => []
    | ETok t :: l' => t :: go l'
    | ENode m :: l' => tokens m ++ go l'
    end in
  go (exps n).

Definition exp_tokens (e : exp) : list Token :=
  match e with
  | ETok t => [t]
  | ENode m => tokens m
  end.

(** [get text()]: the values of the tokens joined. *)
Definition text (n : Node) : jstr := concat (map value (tokens n)).

(** [get contentExps()] *)
Definition contentExps (n : Node) : list exp :=
  filter (fun e => match e with
                   | ENode _ => true
                   | ETok t => negb (isWhiteSpace t)
                   end) (exps n).

(** [get contentTokens()] *)
Definition contentTokens (n : Node) : list Token :=
  filter (fun t => negb (isWhiteSpace t)) (tokens n).

Record ASTError : Type := mkASTError {
  err_line : Z;
  err_col : Z;
  err_message : jstr
}.

(** A string is truthy when it is not empty. *)
Definition truthy_message (m : option jstr) : option jstr :=
  match m with
  | Some (c :: s) => Some (c :: s)
  | _ => None
  end.

(** [validate(env)]: the [forEach] over [this.tokens] pushing onto
    [results]. *)
Definition validate (n : Node) : list ASTError :=
  fold_left
    (fun results t =>
       match isMissing t, shapeExp t with
       | true, Some se =>
           match truthy_message (se_e se) with
           | Some m => results ++ [mkASTError (line t) (col t) m]
           | None => results
           end
       | _, _ => results
       end)
    (tokens n) [].

(** ** Node kinds *)

Inductive Driver : Type :=
| BaseDriver            (* [$AST.parse] *)
| LeftRecursiveDriver.  (* [$AST_LEFT_RECURSIVE.parse] *)

Record Kind : Type := mkKind {
  kind_name : string;
  SHAPE : list ShapeExp;
  fallbackToFirstExp : bool;
  allowIncompleteParse : bool;
  incompleteParseThreshold : nat;
  driver : Driver
}.

(** [class extends $AST {}] with the static defaults of [$AST]. *)
Definition AST_defaults (nm : string) (shape : list ShapeExp) : Kind :=
  mkKind nm shape true false 1 BaseDriver.

(** The anonymous kind driving a sub-shape. *)
Definition SUB_SHAPE_AST (shape : list ShapeExp) : Kind :=
  AST_defaults "$SUB_SHAPE_AST" shape.

(** The anonymous kind driving the tail of a left-recursive shape. *)
Definition RIGHT (K : Kind) (tail : list ShapeExp) : Kind :=
  mkKind "$RIGHT" tail true (allowIncompleteParse K) 1 BaseDriver.

(** ** Outcomes

    A call returns ([Ok]), raises a [TypeError] ([Thrown]), or exhausts the
    budget of the model ([NoFuel]; the source may loop). *)

Inductive res (A : Type) : Type :=
| Ok (a : A)
| Thrown
| NoFuel.
Arguments Thrown {A}.
Arguments NoFuel {A}.

Definition bind {A B : Type} (m : res A) (k : A -> res B) : res B :=
  match m with
  | Ok a => k a
  | Thrown => Thrown
  | NoFuel => NoFuel
  end.

Notation "' p <- m ;; k" := (bind m (fun p => k))
  (at level 61, p pattern, m at next level, right associativity).

(** What one iteration of [ShapeExp.parse] obtained: one token or node, or
    an array of them. *)
Inductive result : Type :=
| RSingle (e : exp)
| RArray (l : list exp).

Definition set_shapeExp (self : ShapeExp) (e : exp) : exp :=
  match e with
  | ETok t => ETok (mkToken (type t) (value t) (start t) (end_ t) (line t)
                            (col t) (indent t) (isMissing t) (Some self))
  | ENode n => ENode (mkNode (name n) (exps n) (Some self))
  end.

(** [results.push(...result)] or [results.push(result)], after
    [result.shapeExp] is set. *)
Definition push_result (self : ShapeExp) (results : list exp) (r : result) : list exp :=
  match r with
  | RSingle e => results ++ [set_shapeExp self e]
  | RArray l => results ++ l
  end.

(** [exps.filter((e) => e.AST || e.value.trim().length).length] *)
Definition content_count (l : list exp) : nat :=
  length (filter (fun e => match e with
                           | ENode _ => true
                           | ETok t => negb (length (trim (value t)) =? 0)
                           end) l).

(** [expIndex < this.max] *)
Definition lt_max (i : nat) (max : option nat) : bool :=
  match max with
  | Some m => i <? m
  | None => true
  end.

(** [while (_.taste(WHITESPACE_REGEX)) results.push(_.eat(WHITESPACE_REGEX))].
    [eat] starts with the same [taste], so the loop is driven by [eat]
    alone.  Every round consumes at least one code unit: started with
    [fuel = length str] the loop ends by a failing [eat]. *)
Fixpoint eat_whitespace (fuel : nat) (results : list exp) (lx : Lexer)
  : list exp * Lexer :=
  match eat (Some (PRe WHITESPACE_REGEX)) lx with
  | (Some t, lx') =>
      match fuel with
      | 0 => (results ++ [ETok t], lx')
      | S f => eat_whitespace f (results ++ [ETok t]) lx'
      end
  | (None, lx') => (results, lx')
  end.

(** The synthetic token of an incomplete parse:
    [new Token(_.eat(new RegExp()))], then [isMissing] and [shapeExp]. *)
Definition missing_token (t : Token) (shapeExp : ShapeExp) : Token :=
  mkToken (type t) (value t) (start t) (end_ t) (line t) (col t) (indent t)
          true (Some shapeExp).

(** ** The parse drivers *)

Definition parse_exp_t : Type := ShapeExp -> Lexer -> res (option (list exp) * Lexer).

Section Drivers.

(** The node kinds of the grammar, by name. *)
Variable G : kind_id -> Kind.

(** [ShapeExp.parse] on the expressions below the current one. *)
Variable rec : parse_exp_t.

(** The [for] loop of [$AST.parse] from position [shapeIndex] on. *)
Fixpoint AST_loop (K : Kind) (shape : list ShapeExp) (shapeIndex : nat)
    (startCursor firstExpCursor : nat) (firstExp : option exp)
    (exps : list exp) (lx : Lexer) : res (option exp * Lexer) :=
  match shape with
  | [] => Ok (Some (ENode (mkNode (kind_name K) exps None)), lx)
  | shapeExp :: rest =>
      '(results, lx1) <- rec shapeExp lx ;;
      let isFirstAST :=
        match results with
        | Some _ => negb (TEXT_EXP shapeExp) && (shapeIndex =? 0)
        | None => false
        end in
      let firstExp' :=
        if isFirstAST then match results with
                           | Some rs => hd_error rs
                           | None => None
                           end
        else firstExp in
      let firstExpCursor' := if isFirstAST then cursor lx1 else firstExpCursor in
      match results with
      | Some rs =>
          AST_loop K rest (S shapeIndex) startCursor firstExpCursor' firstExp'
                   (exps ++ rs) lx1
      | None =>
          if allowIncompleteParse K
             && (incompleteParseThreshold K <=? content_count exps)
          then
            match eat (Some (PRe RegExp_empty)) lx1 with
            | (Some t, lx2) =>
                AST_loop K rest (S shapeIndex) startCursor firstExpCursor'
                         firstExp' (exps ++ [ETok (missing_token t shapeExp)]) lx2
            | (None, _) => Thrown
            end
          else if fallbackToFirstExp K
          then Ok (firstExp', set_cursor lx1 firstExpCursor')
          else Ok (None, set_cursor lx1 startCursor)
      end
  end.

(** [static parse(_)] of [$AST]. *)
Definition AST_parse (K : Kind) (lx : Lexer) : res (option exp * Lexer) :=
  AST_loop K (SHAPE K) 0 (cursor lx) (cursor lx) None [] lx.

(** The [while] loop of [$AST_LEFT_RECURSIVE.parse]; [n] bounds its
    rounds. *)
Fixpoint LEFT_RECURSIVE_loop (n : nat) (K : Kind) (first : ShapeExp)
    (tail : list ShapeExp) (leftCursor : nat) (left_ : option exp) (lx : Lexer)
  : res (option exp * Lexer) :=
  match n with
  | 0 => NoFuel
  | S n' =>
      match taste (se_rightDelimeter first) lx with
      | (None, lx1) => Ok (left_, lx1)
      | (Some _, lx1) =>
          '(right_, lx2) <- AST_parse (RIGHT K tail) lx1 ;;
          match right_ with
          | None => Ok (left_, set_cursor lx2 leftCursor)
          | Some (ETok _) => Thrown
          | Some (ENode r) =>
              match left_ with
              | None => Thrown
              | Some l =>
                  LEFT_RECURSIVE_loop n' K first tail leftCursor
                    (Some (ENode (mkNode (kind_name K) (l :: exps r) None))) lx2
              end
          end
      end
  end.

(** [static parse(_)] of [$AST_LEFT_RECURSIVE]. *)
Definition AST_LEFT_RECURSIVE_parse (n : nat) (K : Kind) (lx : Lexer)
  : res (option exp * Lexer) :=
  match SHAPE K with
  | [] => Thrown
  | first :: tail =>
      '(left_, lx1) <- rec first lx ;;
      match left_ with
      | None => Ok (None, lx1)
      | Some rs =>
          LEFT_RECURSIVE_loop n K first tail (cursor lx1) (hd_error rs) lx1
      end
  end.

(** [K.parse(_)]: the static method of the class of [K]. *)
Definition Kind_parse (n : nat) (K : Kind) (lx : Lexer) : res (option exp * Lexer) :=
  match driver K with
  | BaseDriver => AST_parse K lx
  | LeftRecursiveDriver => AST_LEFT_RECURSIVE_parse n K lx
  end.

(** The loop over the branches of an alternation.  The branches are
    [ShapeExp]s (the constructor wraps the list in a [Shape]), so each is
    tried by its own [parse]. *)
Fixpoint OPTION_loop (opts : list ShapeExp) (lx : Lexer)
  : res (option result * Lexer) :=
  match opts with
  | [] => Ok (None, lx)
  | o :: rest =>
      '(r, lx1) <- rec o lx ;;
      match r with
      | Some l => Ok (Some (RArray l), lx1)
      | None => OPTION_loop rest lx1
      end
  end.

(** The first-expression check of a node reference, then its [parse]. *)
Definition AST_EXP_result (n : nat) (k : kind_id) (lx : Lexer)
  : res (option result * Lexer) :=
  let call :=
    '(r, lx1) <- Kind_parse n (G k) lx ;;
    Ok (option_map RSingle r, lx1) in
  match SHAPE (G k) with
  | firstShapeExp :: _ =>
      match se_value firstShapeExp with
      | VText p =>
          match taste (Some p) lx with
          | (None, lx1) => Ok (None, lx1)
          | (Some _, lx1) =>
              '(r, lx2) <- Kind_parse n (G k) lx1 ;;
              Ok (option_map RSingle r, lx2)
          end
      | _ => call
      end
  | [] => call
  end.

(** The sub-result of one iteration, by the classification of [self].  For a
    sub-shape the first-expression check reads [this[0]], which a [ShapeExp]
    does not have, so the anonymous kind is always driven. *)
Definition iteration_result (n : nat) (self : ShapeExp) (lx : Lexer)
  : res (option result * Lexer) :=
  match se_value self with
  | VText p =>
      match eat (Some p) lx with
      | (Some t, lx1) => Ok (Some (RSingle (ETok t)), lx1)
      | (None, lx1) => Ok (None, lx1)
      end
  | VAst k => AST_EXP_result n k lx
  | VLazy k => AST_EXP_result n k lx
  | VOption opts => OPTION_loop opts lx
  | VSubShape shape =>
      '(ast, lx1) <- AST_parse (SUB_SHAPE_AST shape) lx ;;
      match ast with
      | Some (ENode a) => Ok (Some (RArray (exps a)), lx1)
      | Some (ETok _) => Ok (None, lx1)
      | None => Ok (None, lx1)
      end
  end.

(** The [for] loop of [ShapeExp.parse]; [n] bounds its rounds. *)
Fixpoint ShapeExp_loop (n : nat) (self : ShapeExp) (startCursor : nat)
    (expIndex : nat) (results : list exp) (lx : Lexer)
  : res (option (list exp) * Lexer) :=
  match n with
  | 0 => NoFuel
  | S n' =>
      if lt_max expIndex (se_max self) then
        match taste (se_rightDelimeter self) lx with
        | (d, lx0) =>
            if match d with None => true | Some _ => false end || (expIndex =? 0)
            then
              let (results1, lx1) := eat_whitespace (length (str lx0)) results lx0 in
              '(result, lx2) <- iteration_result n' self lx1 ;;
              match result with
              | Some r =>
                  ShapeExp_loop n' self startCursor (S expIndex)
                                (push_result self results1 r) lx2
              | None =>
                  if se_min self <=? expIndex then Ok (Some results1, lx2)
                  else Ok (None, set_cursor lx2 startCursor)
              end
            else Ok (Some results, lx0)
        end
      else Ok (Some results, lx)
  end.

End Drivers.

(** [ShapeExp.parse(_)] *)
Fixpoint ShapeExp_parse (G : kind_id -> Kind) (fuel : nat) (self : ShapeExp)
    (lx : Lexer) : res (option (list exp) * Lexer) :=
  match fuel with
  | 0 => NoFuel
  | S f => ShapeExp_loop G (ShapeExp_parse G f) (S f) self (cursor lx) 0 [] lx
  end.

(** [K.parse(_)] for a node kind [K]. *)
Definition parse (G : kind_id -> Kind) (fuel : nat) (K : Kind) (lx : Lexer)
  : res (option exp * Lexer) :=
  Kind_parse (ShapeExp_parse G fuel) fuel K lx.

(** ** Runs of the [$AST.parse] loop

    The loop of [$AST.parse] goes on to the next shape position in two
    cases: the expression succeeded and its children were appended, or it
    failed and the incomplete-parse branch appended a missing token.  A
    run relates the loop variables at one position to those at a later
    one. *)

Record AST_state : Type := mkState {
  st_shape : list ShapeExp;   (* the shape positions still to parse *)
  st_index : nat;             (* [shapeIndex] *)
  st_exps : list exp;         (* [exps] *)
  st_lexer : Lexer
}.

Inductive AST_run (rec : parse_exp_t) (K : Kind) : AST_state -> AST_state -> Prop :=
| run_here (s : AST_state) : AST_run rec K s s
| run_success (g : ShapeExp) (rest : list ShapeExp) (i : nat) (exps : list exp)
    (lx : Lexer) (rs : list exp) (lx1 : Lexer) (s' : AST_state) :
    rec g lx = Ok (Some rs, lx1) ->
    AST_run rec K (mkState rest (S i) (exps ++ rs) lx1) s' ->
    AST_run rec K (mkState (g :: rest) i exps lx) s'
| run_missing (g : ShapeExp) (rest : list ShapeExp) (i : nat) (exps : list exp)
    (lx lx1 : Lexer) (t : Token) (lx2 : Lexer) (s' : AST_state) :
    rec g lx = Ok (None, lx1) ->
    allowIncompleteParse K
    && (incompleteParseThreshold K <=? content_count exps) = true ->
    eat (Some (PRe RegExp_empty)) lx1 = (Some t, lx2) ->
    AST_run rec K (mkState rest (S i) (exps ++ [ETok (missing_token t g)]) lx2) s' ->
    AST_run rec K (mkState (g :: rest) i exps lx) s'.

(** What one token contributes to [validate]. *)
Definition diagnostics_of (t : Token) : list ASTError :=
  if isMissing t then
    match shapeExp t with
    | Some se =>
        match se_e se with
        | Some (c :: m) => [mkASTError (line t) (col t) (c :: m)]
        | _ => []
        end
    | None => []
    end
  else [].

(** ** Missing tokens in a tree

    A token flagged [isMissing] is well formed when its value is empty; a
    child is well formed when every token below it is. *)

Definition token_ok (t : Token) : Prop :=
  isMissing t = true -> value t = [].

Definition exp_ok (e : exp) : Prop :=
  forall t, In t (exp_tokens e) -> token_ok t.

Definition result_ok (r : result) : Prop :=
  match r with
  | RSingle e => exp_ok e
  | RArray l => Forall exp_ok l
  end.

Definition sound (rec : parse_exp_t) : Prop :=
  forall se lx rs lx', rec se lx = Ok (Some rs, lx') -> Forall exp_ok rs.

(** ** Vocabulary of the properties *)

(** A literal, or a pattern with the sticky flag (what [formatRegex]
    leaves in a [ShapeExp]). *)
Definition anchored (p : pattern) : Prop :=
  match p with
  | PStr _ => True
  | PRe r => sticky r = true
  end.

(** A [ShapeExp.parse] that never leaves the cursor before its entry
    position. *)
Definition monotone (rec : parse_exp_t) : Prop :=
  forall se lx r lx', rec se lx = Ok (r, lx') -> cursor lx <= cursor lx'.

(** [rec'] agrees with [rec] wherever [rec] does not run out of budget. *)
Definition extends (rec rec' : parse_exp_t) : Prop :=
  forall se lx, rec se lx <> NoFuel -> rec' se lx = rec se lx.

(** A [ShapeExp.parse] that never succeeds with an empty list. *)
Definition productive (rec : parse_exp_t) : Prop :=
  forall se lx lx', rec se lx <> Ok (Some [], lx').

(** ** Reading an outcome *)

Definition got_list (r : res (option (list exp) * Lexer)) : list exp :=
  match r with
  | Ok (Some l, _) => l
  | _ => []
  end.

Definition got_exp (r : res (option exp * Lexer)) : option exp :=
  match r with
  | Ok (e, _) => e
  | _ => None
  end.

Definition got_lexer (A : Type) (r : res (A * Lexer)) : Lexer :=
  match r with
  | Ok (_, lx) => lx
  | _ => Lexer_new []
  end.

(** The classifications under which one iteration yields one token or
    node: a literal or pattern, a node reference, a lazy reference. *)
Definition single_result (self : ShapeExp) : bool :=
  match se_value self with
  | VText _ | VAst _ | VLazy _ => true
  | VOption _ | VSubShape _ => false
  end.

(** ** The remaining getters of the scanner *)

(** [get hasMoreToLex()] *)
Definition hasMoreToLex (lx : Lexer) : bool := cursor lx <? length (str lx).

(** [get parsedStr()]: [str.slice(0, cursor)]. *)
Definition parsedStr (lx : Lexer) : jstr := slice (str lx) 0 (cursor lx).

(** [get unparsedStr()]: [str.slice(cursor)]. *)
Definition unparsedStr (lx : Lexer) : jstr := skipn (cursor lx) (str lx).

(** The [for] loop of [get currentCol()]. *)
Fixpoint currentCol_loop (ls : list jstr) (_cursor cursor : nat) : Z :=
  match ls with
  | [] => (-1)%Z
  | l :: rest =>
      if cursor <? _cursor + length l + 1
      then (Z.of_nat cursor - Z.of_nat _cursor)%Z
      else currentCol_loop rest (_cursor + length l + 1) cursor
  end.

Definition currentCol (lx : Lexer) : Z :=
  currentCol_loop (lines lx) 0 (cursor lx).

(** [lineStart(line)] and [lineEnd(line)] at a line index that may be
    [-1]: [this.lineOffsets[-1]] is [undefined] and reading its first
    element throws ([None]). *)
Definition lineStartZ (lx : Lexer) (line : Z) : option nat :=
  if (line <? 0)%Z then None else Some (lineStart lx (Z.to_nat line)).

Definition lineEndZ (lx : Lexer) (line : Z) : option nat :=
  if (line <? 0)%Z then None else Some (lineEnd lx (Z.to_nat line)).

(** [get currentLineStart()], [get currentLineEnd()] *)
Definition currentLineStart (lx : Lexer) : option nat :=
  lineStartZ lx (currentLine lx).

Definition currentLineEnd (lx : Lexer) : option nat :=
  lineEndZ lx (currentLine lx).

(** [lineContentStart(line)]: [lineStart(line) + lineIndent(line)]; past
    the last line [lineIndent] is [undefined] and the sum is [NaN]
    ([None]). *)
Definition lineContentStart (lx : Lexer) (line : nat) : option nat :=
  option_map (Nat.add (lineStart lx line)) (lineIndent lx line).

(** [lineContentEnd(line)]: [lineStart(line) +
    lines[line].trimEnd().length]; past the last line [lines[line]] is
    [undefined] and the call throws ([None]). *)
Definition lineContentEnd (lx : Lexer) (line : nat) : option nat :=
  option_map (fun l => lineStart lx line + length (trimEnd l))
             (nth_error (lines lx) line).

(** [lines.join("\n")] *)
Fixpoint join_nl (ls : list jstr) : jstr :=
  match ls with
  | [] => []
  | [l] => l
  | l :: rest => l ++ NL :: join_nl rest
  end.

(** ** The language of a pattern

    The words a pattern matches, as a relation; the matcher above
    enumerates prefixes of the input that are in it. *)

Inductive matches : re -> jstr -> Prop :=
| matches_char (c : ascii) : matches (RChar c) [c]
| matches_set (p : ascii -> bool) (c : ascii) : p c = true -> matches (RSet p) [c]
| matches_eps : matches REps []
| matches_seq (a b : re) (u v : jstr) :
    matches a u -> matches b v -> matches (RSeq a b) (u ++ v)
| matches_alt_l (a b : re) (u : jstr) : matches a u -> matches (RAlt a b) u
| matches_alt_r (a b : re) (u : jstr) : matches b u -> matches (RAlt a b) u
| matches_star_nil (a : re) : matches (RStar a) []
| matches_star_cons (a : re) (u v : jstr) :
    matches a u -> matches (RStar a) v -> matches (RStar a) (u ++ v).

(** The code units [WHITESPACE_REGEX] is made of. *)
Definition sp_or_nl (c : ascii) : Prop := c = SP \/ c = NL.

(** ** The [Shape] constructor

    The author's list: values, limit descriptors and [null]s.  A value is
    a string, a regular expression, a node kind, a thunk returning a node
    kind, an array of items (an alternation) or a [Shape] built before (a
    sub-shape).  A limit descriptor is an object with an own [min] or
    [max]; it may carry a message [e]. *)

Inductive limit : Type :=
| LMin (min : nat) (e : option jstr)
| LMax (max : option nat) (e : option jstr)
| LMinMax (min : nat) (max : option nat) (e : option jstr).

Inductive value_item : Type :=
| AStr (s : jstr)
| ARe (r : RegExp)
| AKind (k : kind_id)
| AThunk (k : kind_id)
| AList (l : list item)
| AShape (shape : list ShapeExp)
with item : Type :=
| IValue (v : value_item)
| ILimit (d : limit)
| INull.

(** [isLimitExp(expIndex)] *)
Definition isLimitExp (exps : list item) (expIndex : nat) : bool :=
  match nth_error exps expIndex with
  | Some (ILimit _) => true
  | _ => false
  end.

(** [parseLimitExp(expIndex)]; [None] is the empty object. *)
Definition parseLimitExp (exps : list item) (expIndex : nat) : option limit :=
  match nth_error exps (expIndex + 1) with
  | Some (ILimit d) => Some d
  | _ => None
  end.

(** [parseRightDelimeter(expIndex)]: the next item, past a limit
    descriptor, when it is a non-empty string or a regular expression. *)
Definition parseRightDelimeter (exps : list item) (expIndex : nat) : option pattern :=
  match nth_error exps (expIndex + (if isLimitExp exps (expIndex + 1) then 2 else 1)) with
  | Some (IValue (AStr (c :: s))) => Some (PStr (c :: s))
  | Some (IValue (ARe r)) => Some (PRe r)
  | _ => None
  end.

(** [Object.assign(shapeExp, limit)] on the defaults [min = 1],
    [max = 1]. *)
Definition limit_min (d : option limit) : nat :=
  match d with
  | Some (LMin n _) | Some (LMinMax n _ _) => n
  | _ => 1
  end.

Definition limit_max (d : option limit) : option nat :=
  match d with
  | Some (LMax m _) | Some (LMinMax _ m _) => m
  | _ => Some 1
  end.

Definition limit_e (d : option limit) : option jstr :=
  match d with
  | Some (LMin _ e) | Some (LMax _ e) | Some (LMinMax _ _ e) => e
  | None => None
  end.

Section ShapeConstructor.

(** The classification of a value by the [ShapeExp] constructor. *)
Variable classify : value_item -> ShapeValue.

(** The [for] loop of the constructor over the items from index [i] on
    ([rest] is [exps] from [i]). *)
Fixpoint Shape_from (exps rest : list item) (i : nat) : list ShapeExp :=
  match rest with
  | [] => []
  | IValue value :: rest' =>
      ShapeExp_new (classify value) (parseRightDelimeter exps i)
                   (limit_min (parseLimitExp exps i))
                   (limit_max (parseLimitExp exps i))
                   (limit_e (parseLimitExp exps i))
      :: Shape_from exps rest' (S i)
  | _ :: rest' => Shape_from exps rest' (S i)
  end.

End ShapeConstructor.

(** The value a [ShapeExp] ends with: an array becomes
    [new Shape(...value)]. *)
Fixpoint classify (v : value_item) : ShapeValue :=
  match v with
  | AStr s => VText (PStr s)
  | ARe r => VText (PRe r)
  | AKind k => VAst k
  | AThunk k => VLazy k
  | AList l => VOption (Shape_from classify l l 0)
  | AShape shape => VSubShape shape
  end.

(** [new Shape(...exps)] *)
Definition Shape_new (exps : list item) : list ShapeExp :=
  Shape_from classify exps exps 0.

(** The values among the items. *)
Definition is_value (it : item) : bool :=
  match it with
  | IValue _ => true
  | _ => false
  end.

(** ** Well-formed expressions

    Every pattern an expression (or an expression below it) matches with
    is a literal or is sticky. *)
Fixpoint anchored_value (v : ShapeValue) : Prop :=
  match v with
  | VText p => anchored p
  | VOption l | VSubShape l =>
      (fix all (l : list ShapeExp) : Prop :=
         match l with
         | [] => True
         | x :: l' => (let (v', _, _, _, _) := x in anchored_value v') /\ all l'
         end) l
  | VAst _ | VLazy _ => True
  end.

Definition anchored_exp (x : ShapeExp) : Prop := anchored_value (se_value x).

(** The sub-shapes an author passes in are well formed. *)
Fixpoint shapes_anchored (v : value_item) : Prop :=
  match v with
  | AList l =>
      (fix all (l : list item) : Prop :=
         match l with
         | [] => True
         | IValue v' :: l' => shapes_anchored v' /\ all l'
         | _ :: l' => all l'
         end) l
  | AShape shape => Forall anchored_exp shape
  | _ => True
  end.

(** ** Invariants of a parse

    A property [TI] of tokens holds below a child when it holds of every
    token of it. *)
Definition below (TI : Token -> Prop) (e : exp) : Prop :=
  forall t, In t (exp_tokens e) -> TI t.

(** [rec] keeps the invariant [LI] of the scanner and returns children
    whose tokens satisfy [TI], on the expressions [EOK] admits. *)
Definition keeps (LI : Lexer -> Prop) (TI : Token -> Prop) (EOK : ShapeExp -> Prop)
    (rec : parse_exp_t) : Prop :=
  forall se lx r lx',
    EOK se -> LI lx -> rec se lx = Ok (r, lx') ->
    LI lx' /\ (forall rs, r = Some rs -> Forall (below TI) rs).

Definition result_below (TI : Token -> Prop) (r : result) : Prop :=
  match r with
  | RSingle e => below TI e
  | RArray l => Forall (below TI) l
  end.

(** A token sits where it says: the input between [start] and [end] is
    its value, and [line], [col] and [indent] are those of [start] in the
    line table of the input. *)
Definition positioned (s : jstr) (t : Token) : Prop :=
  slice s (start t) (end_ t) = value t /\
  end_ t = start t + length (value t) /\
  end_ t <= length s /\
  exists i st en,
    line t = Z.of_nat i /\
    nth_error (lineOffsets (Lexer_new s)) i = Some (st, en) /\
    st <= start t /\ start t <= en /\
    col t = (Z.of_nat (start t) - Z.of_nat st)%Z /\
    indent t = nth i (lineIndents (Lexer_new s)) 0.

(** ** The remaining getters of a node *)

(** [get whiteSpaceTokens()] *)
Definition whiteSpaceTokens (n : Node) : list Token :=
  filter (fun t => isWhiteSpace t) (tokens n).

(** The test of [getVisibleTokens] on a token, whose [lineStart] and
    [lineEnd] are both its [line]; [None] is [Infinity]. *)
Definition visible (lineStart : Z) (lineEnd : option Z) (t : Token) : bool :=
  match lineEnd with
  | Some b => (line t <=? b)%Z
  | None => true
  end && (lineStart <=? line t)%Z.

(** [this.name.slice(1)] *)
Definition astName (n : Node) : string :=
  match name n with
  | EmptyString => EmptyString
  | String _ s => s
  end.

(** [getVisibleTokens(lineStart, lineEnd)].  An entry copies [value], [s],
    [line], [col] and [indent] from a token and adds the name of the node
    the token hangs on; it is kept as that token with that name. *)
Fixpoint getVisibleTokens (lineStart : Z) (lineEnd : option Z) (n : Node)
  : list (Token * string) :=
  let fix go (l : list exp) : list (Token * string) :=
    match l with
    | [] => []
    | ENode m :: l' => getVisibleTokens lineStart lineEnd m ++ go l'
    | ETok t :: l' =>
        if visible lineStart lineEnd t then (t, astName n) :: go l' else go l'
    end in
  go (exps n).

(** The nodes of a tree: the node itself and the nodes below its node
    children. *)
Inductive subnode (p : Node) : Node -> Prop :=
| sub_here : subnode p p
| sub_step (m n : Node) : In (ENode m) (exps n) -> subnode p m -> subnode p n.

(** ** [$EXP.parse] *)

(** [exps.findIndex((e) => e.AST)] with the two slices around the index;
    [None] when no child is a node. *)
Fixpoint split_at_AST (l : list exp) : option (list exp * Node * list exp) :=
  match l with
  | [] => None
  | ENode a :: l' => Some ([], a, l')
  | ETok t :: l' =>
      match split_at_AST l' with
      | Some (leading, a, trailing) => Some (ETok t :: leading, a, trailing)
      | None => None
      end
  end.

(** [static parse(_)] of [$EXP]: the node of [$AST.parse] is replaced by
    one of the class of its first node child, holding the children before
    it, its children, and the children after it.  A token has no [exps]
    and [undefined] has no [constructor]: both raise a [TypeError]. *)
Definition EXP_parse (rec : parse_exp_t) (K : Kind) (lx : Lexer)
  : res (option exp * Lexer) :=
  '(e, lx1) <- AST_parse rec K lx ;;
  match e with
  | None => Ok (None, lx1)
  | Some (ETok _) => Thrown
  | Some (ENode n) =>
      match split_at_AST (exps n) with
      | None => Thrown
      | Some (leading, a, trailing) =>
          Ok (Some (ENode (mkNode (name a) (leading ++ exps a ++ trailing) None)), lx1)
      end
  end.

(** The text of a child. *)
Definition exp_text (e : exp) : jstr :=
  match e with
  | ETok t => value t
  | ENode m => text m
  end.

(** ** The scanner at an integer cursor

    [cursor] is a number.  [$AST.parse], [ShapeExp.parse] and
    [$AST_LEFT_RECURSIVE.parse] only give it values they read from it or
    values [eat] computed, so from a cursor that is not negative they never
    make it negative, and [Lexer] above has that in the type of [cursor].
    [$INDENT_BLOCK.parse] does step it below [0] ([do _.cursor--; while
    (...)] from cursor [0] ends at [-1]) and calls [eat] there.  The
    scanner is given again here with the cursor as the integer it is, to
    say what [taste], [eat] and the string getters do at any cursor. *)

Module AnyCursor.

Record Lexer : Type := mkLexer {
  str : jstr;
  cursor : Z;
  tasteCursor : Z;
  cursorStack : list Z
}.

Definition set_cursor (lx : Lexer) (c : Z) : Lexer :=
  mkLexer (str lx) c (tasteCursor lx) (cursorStack lx).

Definition set_tasteCursor (lx : Lexer) (c : Z) : Lexer :=
  mkLexer (str lx) (cursor lx) c (cursorStack lx).

(** The fields of a token that [eat] computes. *)
Record Token : Type := mkToken {
  type : pattern;
  value : jstr;
  start : Z;
  end_ : Z;
  line : Z;
  col : Z;
  indent : nat
}.

(** [s[i]]: [undefined] ([None]) before the first and past the last code
    unit. *)
Definition charAt (s : jstr) (i : Z) : option ascii :=
  if (i <? 0)%Z then None else nth_error s (Z.to_nat i).

(** The [for] loop of [taste] on a literal, comparing [regex[i]] with
    [str[tasteCursor + i]]. *)
Fixpoint failedMatch (regex s : jstr) (at_ : Z) : bool :=
  match regex with
  | [] => false
  | c :: regex' =>
      match charAt s at_ with
      | Some x => if Ascii.eqb c x then failedMatch regex' s (at_ + 1) else true
      | None => true
      end
  end.

(** [taste(regex)].  [regex.lastIndex = this.tasteCursor] may store a
    negative number; [exec] reads [lastIndex] through [ToLength], which
    makes a negative number [0]. *)
Definition taste (regex : option pattern) (lx : Lexer) : option jstr * Lexer :=
  match regex with
  | None => (None, lx)
  | Some (PStr []) => (None, lx)
  | Some (PStr s) =>
      let lx1 := set_tasteCursor lx (cursor lx) in
      if failedMatch s (str lx1) (tasteCursor lx1) then (None, lx1)
      else (Some s, set_tasteCursor lx1 (tasteCursor lx1 + Z.of_nat (length s)))
  | Some (PRe r) =>
      let lx1 := set_tasteCursor lx (cursor lx) in
      match exec r (Z.to_nat (tasteCursor lx1)) (str lx1) with
      | Some (index, len) =>
          (Some (slice (str lx1) index (index + len)),
           set_tasteCursor lx1 (tasteCursor lx1 + Z.of_nat len))
      | None => (None, lx1)
      end
  end.

(** The constructor's tables. *)
Definition lineOffsets (lx : Lexer) : list (nat * nat) :=
  lineOffsets_from 0 (split_nl (str lx)).

Definition lineIndents (lx : Lexer) : list nat :=
  map (fun l => length l - length (trimStart l)) (split_nl (str lx)).

(** The callback of [get currentLine()]. *)
Definition line_cmp (c : Z) (o : nat * nat) : Z :=
  let (s, e) := o in
  if (c <? Z.of_nat s)%Z then (-1)%Z
  else if (Z.of_nat e <? c)%Z then 1%Z else 0%Z.

Definition currentLine (lx : Lexer) : Z :=
  binarySearch (line_cmp (cursor lx)) (lineOffsets lx).

(** [eat(regex)] *)
Definition eat (regex : option pattern) (lx : Lexer) : option Token * Lexer :=
  match regex with
  | None => (None, lx)
  | Some p =>
      match taste regex lx with
      | (Some value, lx1) =>
          let lx2 := set_cursor lx1 (tasteCursor lx1 - Z.of_nat (length value)) in
          let col := (cursor lx2
                      - lastIndexOf_nl (str lx2) (cursor lx2 - 1) - 1)%Z in
          let col := if (col <? 0)%Z then 0%Z else col in
          let line := currentLine lx2 in
          let token :=
            mkToken p value (cursor lx2)
                    (cursor lx2 + Z.of_nat (length value)) line col
                    (if (line <? 0)%Z then 0
                     else nth (Z.to_nat line) (lineIndents lx2) 0) in
          (Some token, set_cursor lx2 (cursor lx2 + Z.of_nat (length value)))
      | (None, lx1) => (None, lx1)
      end
  end.

(** The index a relative index of [slice] stands for: counted from the
    end when negative, and kept inside the string. *)
Definition relative_index (s : jstr) (i : Z) : nat :=
  Z.to_nat (if (i <? 0)%Z then Z.max (Z.of_nat (length s) + i) 0
            else Z.min i (Z.of_nat (length s))).

(** [s.slice(a, b)] and [s.slice(a)] at any integers. *)
Definition String_slice (s : jstr) (a b : Z) : jstr :=
  slice s (relative_index s a) (relative_index s b).

Definition String_slice_from (s : jstr) (a : Z) : jstr :=
  slice s (relative_index s a) (length s).

(** [get hasMoreToLex()], [get parsedStr()], [get unparsedStr()] *)
Definition hasMoreToLex (lx : Lexer) : bool :=
  (cursor lx <? Z.of_nat (length (str lx)))%Z.

Definition parsedStr (lx : Lexer) : jstr := String_slice (str lx) 0 (cursor lx).

Definition unparsedStr (lx : Lexer) : jstr := String_slice_from (str lx) (cursor lx).

End AnyCursor.

(** A scanner whose cursor is not negative, as a scanner with an integer
    cursor; and its tokens. *)
Definition Lexer_at (lx : Lexer) : AnyCursor.Lexer :=
  AnyCursor.mkLexer (str lx) (Z.of_nat (cursor lx)) (Z.of_nat (tasteCursor lx))
                    (map Z.of_nat (cursorStack lx)).

Definition Token_at (t : Token) : AnyCursor.Token :=
  AnyCursor.mkToken (type t) (value t) (Z.of_nat (start t)) (Z.of_nat (end_ t))
                    (line t) (col t) (indent t).

(** ** Sample grammars

    The node kinds of the README and of the test file, and the expressions
    used as concrete inputs below. *)

Module Samples.

Local Open Scope string_scope.
Local Open Scope list_scope.
Local Open Scope nat_scope.

Definition digit (c : ascii) : bool :=
  let n := nat_of_ascii c in (48 <=? n) && (n <=? 57).

(** [/^\d+/] as the author writes it. *)
Definition re_digits : RegExp := mkRegExp (RPlus (RSet digit)) false false.

Definition S_ (s : string) : pattern := PStr (lit s).

(** An expression with the default bounds [min = 1], [max = 1]. *)
Definition one (v : ShapeValue) (rd : option pattern) : ShapeExp :=
  ShapeExp_new v rd 1 (Some 1) None.

(** An optional expression: the limit descriptor [{ min: 0 }]. *)
Definition opt (v : ShapeValue) (rd : option pattern) : ShapeExp :=
  ShapeExp_new v rd 0 (Some 1) None.

(** [static SHAPE = new Shape(/^\d+/)] *)
Definition NUMBER : Kind :=
  AST_defaults "$NUMBER" [one (VText (PRe re_digits)) None].

(** [new Shape($NUMBER, "+", $NUMBER)]: the literal after the first
    expression is also its right delimiter. *)
Definition ADD_SHAPE : list ShapeExp :=
  [one (VAst "$NUMBER") (Some (S_ "+")); one (VText (S_ "+")) None;
   one (VAst "$NUMBER") None].

Definition ADD : Kind := AST_defaults "$ADD" ADD_SHAPE.

(** The right operand with a message:
    [$NUMBER, { min: 1, e: "number expected" }]. *)
Definition NUMBER_EXPECTED : ShapeExp :=
  ShapeExp_new (VAst "$NUMBER") None 1 (Some 1) (Some (lit "number expected")).

(** [$ADD] with [allowIncompleteParse = true] and
    [incompleteParseThreshold = 2]. *)
Definition ADD_INCOMPLETE : Kind :=
  mkKind "$ADD_INCOMPLETE"
         [one (VAst "$NUMBER") (Some (S_ "+")); one (VText (S_ "+")) None;
          NUMBER_EXPECTED]
         true true 2 BaseDriver.

(** The same shape on a class extending [$AST_LEFT_RECURSIVE]. *)
Definition SUM : Kind :=
  mkKind "$SUM" ADD_SHAPE true false 1 LeftRecursiveDriver.

(** [new Shape(["x"], { min: 0 })]: a kind whose only expression is
    optional. *)
Definition EMPTY : Kind :=
  AST_defaults "$EMPTY" [opt (VOption [one (VText (S_ "x")) None]) None].

Definition G (k : kind_id) : Kind :=
  if String.eqb k "$NUMBER" then NUMBER
  else if String.eqb k "$ADD" then ADD
  else if String.eqb k "$ADD_INCOMPLETE" then ADD_INCOMPLETE
  else if String.eqb k "$SUM" then SUM
  else if String.eqb k "$EMPTY" then EMPTY
  else AST_defaults k [].

(** [new Shape($NUMBER, "+")] used as a sub-shape. *)
Definition SUB_NUMBER_PLUS : ShapeExp :=
  one (VSubShape [one (VAst "$NUMBER") (Some (S_ "+")); one (VText (S_ "+")) None])
      None.

(** [new Shape(["a", "b"], "+")] used as a sub-shape: its first element is
    an alternation of literals. *)
Definition SUB_ALT_PLUS : ShapeExp :=
  one (VSubShape [one (VOption [one (VText (S_ "a")) (Some (S_ "b"));
                                one (VText (S_ "b")) None])
                      (Some (S_ "+"));
                  one (VText (S_ "+")) None])
      None.

(** [new Shape(new Shape(new Shape($EMPTY, "a"), "b"), "z")] *)
Definition SUB_EMPTY_A : ShapeExp :=
  one (VSubShape [one (VAst "$EMPTY") (Some (S_ "a")); one (VText (S_ "a")) None])
      (Some (S_ "b")).

Definition SUB_EMPTY_A_B : ShapeExp :=
  one (VSubShape [SUB_EMPTY_A; one (VText (S_ "b")) None]) (Some (S_ "z")).

Definition NESTED : Kind :=
  AST_defaults "$NESTED" [SUB_EMPTY_A_B; one (VText (S_ "z")) None].

(** ["ab\n  cd\n    ef"] *)
Definition three_lines : jstr :=
  lit "ab" ++ [NL] ++ lit "  cd" ++ [NL] ++ lit "    ef".

End Samples.

(** * Properties *)

(** ** The host matcher stays inside the input *)

Lemma star_lens_le (step : jstr -> list nat) :
  (forall s n, In n (step s) -> n <= length s) ->
  forall fuel s n, In n (star_lens step fuel s) -> n <= length s.
Proof.
  intros Hstep fuel.
  induction fuel as [|f IH]; intros s n Hin; simpl in Hin.
  - destruct Hin as [<-|[]]; lia.
  - apply in_app_or in Hin. destruct Hin as [Hin|[<-|[]]]; [|lia].
    apply in_flat_map in Hin. destruct Hin as (x & Hx & Hin).
    destruct (x =? 0); [contradiction|].
    apply in_map_iff in Hin. destruct Hin as (m & <- & Hm).
    apply IH in Hm. apply Hstep in Hx.
    rewrite length_skipn in Hm. lia.
Qed.

Lemma re_lens_le (r : re) :
  forall s n, In n (re_lens r s) -> n <= length s.
Proof.
  induction r as [c|p| |a IHa b IHb|a IHa b IHb|a IHa]; intros s n Hin; simpl in Hin.
  - destruct s as [|x s]; [contradiction|].
    destruct (Ascii.eqb x c); [|contradiction].
    destruct Hin as [<-|[]]. simpl. lia.
  - destruct s as [|x s]; [contradiction|].
    destruct (p x); [|contradiction].
    destruct Hin as [<-|[]]. simpl. lia.
  - destruct Hin as [<-|[]]. lia.
  - apply in_flat_map in Hin. destruct Hin as (x & Hx & Hin).
    apply in_map_iff in Hin. destruct Hin as (m & <- & Hm).
    apply IHa in Hx. apply IHb in Hm. rewrite length_skipn in Hm. lia.
  - apply in_app_or in Hin. destruct Hin; auto.
  - eapply star_lens_le; eauto.
Qed.

Lemma hd_error_In (A : Type) (l : list A) (x : A) :
  hd_error l = Some x -> In x l.
Proof. destruct l; simpl; intros H; [discriminate|injection H as ->; now left]. Qed.

Lemma search_from_ge (r : re) (s : jstr) :
  forall n from i len,
    search_from r s from n = Some (i, len) ->
    from <= i /\ In len (re_lens r (skipn i s)).
Proof.
  induction n as [|k IH]; intros from i len H; simpl in H; [discriminate|].
  destruct (hd_error (re_lens r (skipn from s))) as [l|] eqn:E.
  - injection H as <- <-. split; [lia|]. now apply hd_error_In.
  - apply IH in H. destruct H. split; [lia|assumption].
Qed.

(** A sticky pattern matches at [lastIndex] itself, inside the input. *)
Lemma exec_sticky (r : RegExp) (lastIndex : nat) (s : jstr) (i len : nat) :
  sticky r = true ->
  exec r lastIndex s = Some (i, len) ->
  i = lastIndex /\ lastIndex + len <= length s.
Proof.
  unfold exec. intros ->.
  destruct (lastIndex <=? length s) eqn:Hle; [|discriminate].
  apply Nat.leb_le in Hle.
  destruct (hd_error (re_lens (source r) (skipn lastIndex s))) as [l|] eqn:E;
    [|discriminate].
  intros H. injection H as <- <-. split; [reflexivity|].
  apply hd_error_In, re_lens_le in E. rewrite length_skipn in E. lia.
Qed.

(** ** Scenario 7 and the line tables *)

(** C8 (as stated): over the three-line input the claim asks for
    [lineStart(2) = 7], [lineEnd(2) = 13], [lineIndent(2) = 4] and
    [linesInRange(3, 7) = [1, 2]]; the tables of the scanner do not give
    these values. *)
Lemma C8_stated_values_fail :
  ~ (let lx := Lexer_new Samples.three_lines in
     lineStart lx 2 = 7 /\ lineEnd lx 2 = 13 /\
     lineIndent lx 2 = Some 4 /\ linesInRange lx 3 7 = [1; 2]).
Proof. cbv. intros (H & _). discriminate H. Qed.

(** C8 (amended): over ["ab\n  cd\n    ef"] the third line starts at
    offset 8 and ends at offset 14, its indent is 4, and the only line
    meeting the range [3..7] is line 1. *)
Theorem C8_three_lines :
  let lx := Lexer_new Samples.three_lines in
  lineStart lx 2 = 8 /\ lineEnd lx 2 = 14 /\
  lineIndent lx 2 = Some 4 /\ linesInRange lx 3 7 = [1].
Proof. cbv. repeat split. Qed.

(** The values of the test file, over [" a\n  b\n    c"] and
    ["ab\ncd\nef"]. *)
Example test_lineStart_lineEnd :
  let lx := Lexer_new (lit " a" ++ [NL] ++ lit "  b" ++ [NL] ++ lit "    c") in
  lineStart lx 2 = 7 /\ lineEnd lx 2 = 12 /\ lineIndent lx 2 = Some 4.
Proof. cbv. repeat split. Qed.

Example test_linesInRange :
  linesInRange (Lexer_new (lit "ab" ++ [NL] ++ lit "cd" ++ [NL] ++ lit "ef")) 3 7
  = [1; 2].
Proof. reflexivity. Qed.

(** ** [taste] and [eat] *)

Lemma failedMatch_false (p s : jstr) :
  failedMatch p s = false -> firstn (length p) s = p /\ length p <= length s.
Proof.
  revert s. induction p as [|c p IH]; intros s H; simpl in *.
  - split; [reflexivity|lia].
  - destruct s as [|x s]; [discriminate|].
    destruct (Ascii.eqb c x) eqn:E; [|discriminate].
    apply Ascii.eqb_eq in E. subst x.
    apply IH in H. destruct H as [H1 H2]. simpl. rewrite H1. split; [reflexivity|lia].
Qed.

Lemma failedMatch_head (c x : ascii) (p s : jstr) :
  x <> c -> failedMatch (c :: p) (x :: s) = true.
Proof.
  intros Hne. simpl. destruct (Ascii.eqb c x) eqn:E; [|reflexivity].
  apply Ascii.eqb_eq in E. congruence.
Qed.

Lemma slice_length (s : jstr) (a len : nat) :
  a + len <= length s -> length (slice s a (a + len)) = len.
Proof.
  intros H. unfold slice. rewrite length_firstn, length_skipn. lia.
Qed.

Lemma taste_fields (regex : option pattern) (lx : Lexer) (r : option jstr) (lx1 : Lexer) :
  taste regex lx = (r, lx1) ->
  str lx1 = str lx /\ cursor lx1 = cursor lx /\ cursorStack lx1 = cursorStack lx.
Proof.
  unfold taste. intros H.
  destruct regex as [[[|c s]|re0]|].
  - injection H as <- <-. auto.
  - cbv zeta in H.
    destruct (failedMatch _ _); injection H as <- <-; simpl; auto.
  - cbv zeta in H.
    destruct (exec _ _ _) as [[i len]|]; injection H as <- <-; simpl; auto.
  - injection H as <- <-. auto.
Qed.

(** A successful [taste] of an anchored pattern reports the text found at
    the cursor itself. *)
Lemma taste_anchored (p : pattern) (lx : Lexer) (v : jstr) (lx1 : Lexer) :
  anchored p ->
  taste (Some p) lx = (Some v, lx1) ->
  slice (str lx) (cursor lx) (cursor lx + length v) = v /\
  cursor lx + length v <= length (str lx) /\
  tasteCursor lx1 = cursor lx + length v.
Proof.
  intros Ha H. unfold taste in H. destruct p as [[|c s]|r].
  - discriminate.
  - cbv zeta in H. simpl tasteCursor in H. simpl str in H.
    destruct (failedMatch (c :: s) (skipn (cursor lx) (str lx))) eqn:E; [discriminate|].
    injection H as <- <-.
    apply failedMatch_false in E. destruct E as [E1 E2].
    rewrite length_skipn in E2. simpl length in *.
    unfold slice. replace (cursor lx + S (length s) - cursor lx) with (S (length s)) by lia.
    split; [exact E1|]. split; [lia|reflexivity].
  - cbv zeta in H. simpl tasteCursor in H. simpl str in H.
    destruct (exec r (cursor lx) (str lx)) as [[i len]|] eqn:E; [|discriminate].
    injection H as <- <-.
    apply exec_sticky in E; [|exact Ha]. destruct E as [-> E].
    rewrite slice_length by exact E. split; [reflexivity|]. split; [lia|reflexivity].
Qed.

(** The token [eat] builds, field by field. *)
Lemma eat_token (p : pattern) (lx : Lexer) (t : Token) (lx' : Lexer) :
  eat (Some p) lx = (Some t, lx') ->
  exists v lx1,
    taste (Some p) lx = (Some v, lx1) /\
    let c := tasteCursor lx1 - length v in
    type t = p /\ value t = v /\ start t = c /\ end_ t = c + length v /\
    line t = binarySearch (line_cmp c) (lineOffsets lx) /\
    col t = (let k := (Z.of_nat c - lastIndexOf_nl (str lx) (Z.of_nat c - 1) - 1)%Z in
             if (k <? 0)%Z then 0%Z else k) /\
    isMissing t = false /\ shapeExp t = None /\
    str lx' = str lx /\ cursor lx' = c + length v /\
    cursorStack lx' = cursorStack lx.
Proof.
  unfold eat. destruct (taste (Some p) lx) as [[v|] lx1] eqn:E; [|discriminate].
  intros H. injection H as <- <-.
  exists v, lx1. split; [reflexivity|].
  apply taste_fields in E. destruct E as (Es & Ec & Ek).
  cbv zeta. simpl. unfold currentLine, lineOffsets, lines. simpl.
  rewrite Es. repeat split; auto.
Qed.

Lemma eat_none (lx : Lexer) : eat None lx = (None, lx).
Proof. reflexivity. Qed.

(** [eat] never moves the cursor backwards, and leaves it where it was
    when it returns no token. *)
Lemma eat_cursor (regex : option pattern) (lx : Lexer) (r : option Token) (lx' : Lexer) :
  eat regex lx = (r, lx') ->
  str lx' = str lx /\ cursor lx <= cursor lx' /\
  (r = None -> cursor lx' = cursor lx).
Proof.
  destruct regex as [p|]; [|intros H; injection H as <- <-; auto].
  unfold eat. destruct (taste (Some p) lx) as [[v|] lx1] eqn:E.
  - intros H. injection H as <- <-. simpl.
    pose proof (taste_fields _ _ E) as (Es & Ec & _).
    split; [exact Es|]. split; [|discriminate].
    assert (cursor lx <= tasteCursor lx1); [|lia].
    unfold taste in E. destruct p as [[|c s]|r].
    + discriminate.
    + cbv zeta in E. destruct (failedMatch _ _); [discriminate|].
      injection E as <- <-. simpl. lia.
    + cbv zeta in E. destruct (exec _ _ _) as [[i len]|]; [|discriminate].
      injection E as <- <-. simpl. lia.
  - intros H. injection H as <- <-.
    pose proof (taste_fields _ _ E) as (Es & Ec & _).
    rewrite Ec. auto.
Qed.

(** C1 (as stated): the claim has [taste("a")] succeed on [" a"] at cursor
    0 after skipping the space; on the code both [taste] and [eat] fail
    there (the test file asserts the same). *)
Lemma C1_taste_after_space_fails :
  ~ (exists v lx1,
       taste (Some (PStr (lit "a"))) (Lexer_new (lit " a")) = (Some v, lx1))
  /\ fst (eat (Some (PStr (lit "a"))) (Lexer_new (lit " a"))) = None.
Proof.
  split; [|reflexivity].
  intros (v & lx1 & H). vm_compute in H. discriminate H.
Qed.

(** A literal fails as soon as the code unit at the cursor is not its
    first one, whatever that code unit is (a space and a newline
    included). *)
Lemma taste_literal_head (lx : Lexer) (c x : ascii) (s : jstr) :
  nth_error (str lx) (cursor lx) = Some x -> x <> c ->
  fst (taste (Some (PStr (c :: s))) lx) = None /\
  fst (eat (Some (PStr (c :: s))) lx) = None.
Proof.
  intros Hx Hne.
  assert (E : failedMatch (c :: s) (skipn (cursor lx) (str lx)) = true).
  { destruct (skipn (cursor lx) (str lx)) as [|y r] eqn:Es.
    - reflexivity.
    - assert (Hy : nth_error (skipn (cursor lx) (str lx)) 0 = Some y)
        by (rewrite Es; reflexivity).
      rewrite nth_error_skipn, Nat.add_0_r, Hx in Hy. injection Hy as ->.
      now apply failedMatch_head. }
  unfold eat, taste. cbv zeta. simpl tasteCursor. simpl str.
  rewrite E. split; reflexivity.
Qed.

(** C1 (amended): at a cursor that is not negative, for a literal or a
    sticky pattern, [taste] and [eat] skip nothing: the match is attempted
    at the cursor itself.  When [eat] returns a token, [taste] reports the
    same text, the token starts at the entry cursor, its value is the input
    at the cursor, and the cursor has moved by exactly its length. *)
Theorem C1_match_at_cursor (lx : Lexer) (p : pattern) (t : Token) (lx' : Lexer) :
  anchored p ->
  eat (Some p) lx = (Some t, lx') ->
  fst (taste (Some p) lx) = Some (value t) /\
  start t = cursor lx /\
  slice (str lx) (cursor lx) (cursor lx + length (value t)) = value t /\
  cursor lx' = cursor lx + length (value t).
Proof.
  intros Ha H. apply eat_token in H.
  destruct H as (v & lx1 & Et & H). cbv zeta in H.
  destruct H as (_ & Hv & Hs & _ & _ & _ & _ & _ & _ & Hc & _).
  pose proof (taste_anchored _ _ Ha Et) as (Hsl & Hb & Htc).
  rewrite Et, Hv, Hs, Hc, Htc. simpl.
  replace (cursor lx + length v - length v) with (cursor lx) by lia.
  auto.
Qed.

(** ** Binary search over the line table *)

Lemma binarySearch_loop_finds (A : Type) (f : A -> Z) (l : list A) (i : nat) :
  (forall j x, nth_error l j = Some x ->
               (j < i -> (0 < f x)%Z) /\ (j = i -> f x = 0%Z) /\ (i < j -> (f x < 0)%Z)) ->
  forall fuel low high,
    (0 <= low)%Z -> (low <= Z.of_nat i)%Z -> (Z.of_nat i <= high)%Z ->
    (high < Z.of_nat (length l))%Z ->
    (high - low < Z.of_nat fuel)%Z ->
    binarySearch_loop f fuel l low high = Z.of_nat i.
Proof.
  intros Hf fuel. induction fuel as [|n IH]; intros low high H0 H1 H2 H3 H4; [lia|].
  simpl.
  destruct (low <=? high)%Z eqn:Elh; [|apply Z.leb_gt in Elh; lia].
  set (mid := ((low + high) / 2)%Z).
  assert (Hmid : (low <= mid <= high)%Z).
  { unfold mid. split.
    - apply Z.div_le_lower_bound; lia.
    - apply Z.div_le_upper_bound; lia. }
  destruct (nth_error l (Z.to_nat mid)) as [x|] eqn:Ex.
  2:{ apply nth_error_None in Ex. lia. }
  destruct (Hf _ _ Ex) as (Hlt & Heq & Hgt).
  destruct (Z.compare_spec mid (Z.of_nat i)) as [E|E|E].
  - rewrite Heq by lia. simpl. exact E.
  - assert (0 < f x)%Z by (apply Hlt; lia).
    destruct (f x =? 0)%Z eqn:E0; [apply Z.eqb_eq in E0; lia|].
    destruct (f x <? 0)%Z eqn:E1; [apply Z.ltb_lt in E1; lia|].
    apply IH; lia.
  - assert (f x < 0)%Z by (apply Hgt; lia).
    destruct (f x =? 0)%Z eqn:E0; [apply Z.eqb_eq in E0; lia|].
    destruct (f x <? 0)%Z eqn:E1; [|apply Z.ltb_ge in E1; lia].
    apply IH; lia.
Qed.

Lemma binarySearch_finds (A : Type) (f : A -> Z) (l : list A) (i : nat) :
  i < length l ->
  (forall j x, nth_error l j = Some x ->
               (j < i -> (0 < f x)%Z) /\ (j = i -> f x = 0%Z) /\ (i < j -> (f x < 0)%Z)) ->
  binarySearch f l = Z.of_nat i.
Proof.
  intros Hi Hf. unfold binarySearch.
  apply binarySearch_loop_finds; try assumption; lia.
Qed.

(** ** The line table *)

Lemma split_nl_cons (s : jstr) : exists l ls, split_nl s = l :: ls.
Proof.
  destruct s as [|c s]; simpl; [eauto|].
  destruct (is_nl c); [eauto|].
  destruct (split_nl s); eauto.
Qed.

Lemma lineOffsets_from_length (ls : list jstr) :
  forall b, length (lineOffsets_from b ls) = length ls.
Proof. induction ls as [|l ls IH]; intros b; simpl; [reflexivity|now rewrite IH]. Qed.

Lemma lineOffsets_from_ge (ls : list jstr) :
  forall b j a e, nth_error (lineOffsets_from b ls) j = Some (a, e) -> b <= a /\ a <= e.
Proof.
  induction ls as [|l ls IH]; intros b j a e H; simpl in H.
  - destruct j; discriminate.
  - destruct j as [|j]; simpl in H.
    + injection H as <- <-. lia.
    + apply IH in H. lia.
Qed.

(** Lines do not overlap: a later line starts after an earlier one ends. *)
Lemma lineOffsets_from_sorted (ls : list jstr) :
  forall b j k sj ej sk ek,
    nth_error (lineOffsets_from b ls) j = Some (sj, ej) ->
    nth_error (lineOffsets_from b ls) k = Some (sk, ek) ->
    j < k -> ej < sk.
Proof.
  induction ls as [|l ls IH]; intros b j k sj ej sk ek Hj Hk Hlt; simpl in *.
  - destruct j; discriminate.
  - destruct k as [|k]; [lia|]. simpl in Hk.
    destruct j as [|j]; simpl in Hj.
    + injection Hj as <- <-. apply lineOffsets_from_ge in Hk. lia.
    + eapply IH; eauto. lia.
Qed.

Lemma last_nl_upto_ge (s : jstr) (n : nat) : (-1 <= last_nl_upto s n)%Z.
Proof.
  induction n as [|k IH]; simpl; [lia|].
  destruct (nth_error s k) as [c|]; [|exact IH].
  destruct (is_nl c); [lia|exact IH].
Qed.

Lemma last_nl_upto_cons (x : ascii) (s : jstr) (c : nat) :
  last_nl_upto (x :: s) (S c) =
  if (last_nl_upto s c <? 0)%Z
  then (if is_nl x then 0%Z else (-1)%Z)
  else (last_nl_upto s c + 1)%Z.
Proof.
  induction c as [|c IH].
  - simpl. destruct (is_nl x); reflexivity.
  - change (last_nl_upto (x :: s) (S (S c)))
      with (match nth_error s c with
            | Some y => if is_nl y then Z.of_nat (S c) else last_nl_upto (x :: s) (S c)
            | None => last_nl_upto (x :: s) (S c)
            end).
    change (last_nl_upto s (S c))
      with (match nth_error s c with
            | Some y => if is_nl y then Z.of_nat c else last_nl_upto s c
            | None => last_nl_upto s c
            end).
    destruct (nth_error s c) as [y|]; [|exact IH].
    destruct (is_nl y); [|exact IH].
    destruct (Z.of_nat c <? 0)%Z eqn:E; [apply Z.ltb_lt in E; lia|lia].
Qed.

(** The table has a line holding each offset [c] of the input; that line
    starts right after the last newline before [c]. *)
Lemma line_table (s : jstr) :
  forall b c, c <= length s ->
    exists i st en,
      nth_error (lineOffsets_from b (split_nl s)) i = Some (b + st, b + en) /\
      st <= c /\ c <= en /\ Z.of_nat st = (last_nl_upto s c + 1)%Z.
Proof.
  induction s as [|x s IH]; intros b c Hc.
  - simpl in Hc. assert (c = 0) by lia. subst c.
    exists 0, 0, 0. simpl. rewrite !Nat.add_0_r. auto.
  - destruct c as [|c].
    + destruct (split_nl_cons (x :: s)) as (l & ls & E). rewrite E.
      exists 0, 0, (length l). simpl. rewrite Nat.add_0_r.
      repeat split; lia.
    + simpl in Hc. assert (Hc' : c <= length s) by lia.
      rewrite last_nl_upto_cons.
      pose proof (last_nl_upto_ge s c) as Hge.
      simpl split_nl. destruct (is_nl x) eqn:Ex.
      * destruct (IH (b + 0 + 1) c Hc') as (i & st & en & Hn & H1 & H2 & H3).
        exists (S i), (S st), (S en). simpl.
        replace (b + S st) with (b + 0 + 1 + st) by lia.
        replace (b + S en) with (b + 0 + 1 + en) by lia.
        split; [exact Hn|]. split; [lia|]. split; [lia|].
        destruct (last_nl_upto s c <? 0)%Z eqn:E;
          [apply Z.ltb_lt in E|apply Z.ltb_ge in E]; lia.
      * destruct (split_nl s) as [|l ls] eqn:Esp.
        { destruct (split_nl_cons s) as (l & ls & E). congruence. }
        destruct (IH (b + 1) c Hc') as (i & st & en & Hn & H1 & H2 & H3).
        simpl in Hn. destruct i as [|i]; simpl in Hn.
        -- injection Hn as Hst Hen.
           exists 0, 0, (S (length l)). simpl.
           rewrite Nat.add_0_r. split; [reflexivity|]. split; [lia|]. split; [lia|].
           assert (st = 0) by lia. subst st.
           destruct (last_nl_upto s c <? 0)%Z eqn:E;
             [reflexivity|apply Z.ltb_ge in E; lia].
        -- exists (S i), (S st), (S en). simpl.
           replace (b + S (length l) + 1) with (b + 1 + length l + 1) by lia.
           replace (b + S st) with (b + 1 + st) by lia.
           replace (b + S en) with (b + 1 + en) by lia.
           split; [exact Hn|]. split; [lia|]. split; [lia|].
           apply lineOffsets_from_ge in Hn.
           destruct (last_nl_upto s c <? 0)%Z eqn:E;
             [apply Z.ltb_lt in E|apply Z.ltb_ge in E]; lia.
Qed.

(** [currentLine] at an offset [c] of the input is the index of the line
    holding [c]. *)
Lemma currentLine_at (lx : Lexer) (c : nat) :
  c <= length (str lx) ->
  exists i st en,
    binarySearch (line_cmp c) (lineOffsets lx) = Z.of_nat i /\
    nth_error (lineOffsets lx) i = Some (st, en) /\
    st <= c /\ c <= en /\ Z.of_nat st = (last_nl_upto (str lx) c + 1)%Z.
Proof.
  intros Hc. unfold lineOffsets, lines.
  destruct (line_table (str lx) 0 Hc) as (i & st & en & Hn & H1 & H2 & H3).
  simpl in Hn. exists i, st, en. split; [|auto].
  apply binarySearch_finds.
  - apply nth_error_Some. congruence.
  - intros j [a e] Hj. unfold line_cmp. repeat split.
    + intros Hlt.
      pose proof (@lineOffsets_from_sorted _ _ _ _ _ _ _ _ Hj Hn Hlt).
      pose proof (@lineOffsets_from_ge _ _ _ _ _ Hj).
      destruct (c <? a) eqn:E1; [apply Nat.ltb_lt in E1; lia|].
      destruct (e <? c) eqn:E2; [lia|apply Nat.ltb_ge in E2; lia].
    + intros ->. rewrite Hn in Hj. injection Hj as <- <-.
      destruct (c <? st) eqn:E1; [apply Nat.ltb_lt in E1; lia|].
      destruct (en <? c) eqn:E2; [apply Nat.ltb_lt in E2; lia|reflexivity].
    + intros Hlt.
      pose proof (@lineOffsets_from_sorted _ _ _ _ _ _ _ _ Hn Hj Hlt).
      destruct (c <? a) eqn:E1; [lia|apply Nat.ltb_ge in E1; lia].
Qed.

Lemma lineStart_nth (lx : Lexer) (i st en : nat) :
  nth_error (lineOffsets lx) i = Some (st, en) -> lineStart lx i = st.
Proof.
  intros H. unfold lineStart, clamp_line.
  assert (Hi : i < length (lines lx)).
  { unfold lineOffsets in H. rewrite <- (lineOffsets_from_length (lines lx) 0).
    apply nth_error_Some. congruence. }
  destruct (length (lines lx) <=? i) eqn:E; [apply Nat.leb_le in E; lia|].
  erewrite nth_error_nth; [|exact H]. reflexivity.
Qed.

(** ** Token positioning *)

(** C3 (as stated): the claim covers every [RegExp] the public [eat]
    accepts.  A pattern without the sticky flag is searched for anywhere in
    the input: [eat(/cd/)] on ["abcd"] at cursor 0 returns a token of value
    ["cd"] with [start = 0] and [end = 2], where the input reads ["ab"]. *)
Lemma C3_unanchored_pattern_fails :
  let r := eat (Some (PRe (mkRegExp (RSeq (RChar "c") (RChar "d")) false false)))
               (Lexer_new (lit "abcd")) in
  match fst r with
  | Some t =>
      value t = lit "cd" /\ start t = 0 /\ end_ t = 2 /\
      slice (lit "abcd") (start t) (end_ t) = lit "ab" /\
      slice (lit "abcd") (start t) (end_ t) <> value t
  | None => False
  end.
Proof. vm_compute. repeat split. discriminate. Qed.

(** C3 (amended): for every token [t] returned by [eat] at a cursor that
    is not negative, on a literal or a sticky pattern, the input between
    [t.start] and [t.end] is [t.value],
    [t.line] is the index of the line holding [t.start], and [t.col] is
    [t.start] minus the start offset of that line (clamped at zero). *)
Theorem C3_token_position (lx : Lexer) (p : pattern) (t : Token) (lx' : Lexer) :
  anchored p ->
  eat (Some p) lx = (Some t, lx') ->
  slice (str lx) (start t) (end_ t) = value t /\
  (exists i st en,
      line t = Z.of_nat i /\
      nth_error (lineOffsets lx) i = Some (st, en) /\
      st <= start t /\ start t <= en) /\
  col t = Z.max 0 (Z.of_nat (start t)
                   - Z.of_nat (lineStart lx (Z.to_nat (line t)))).
Proof.
  intros Ha H. apply eat_token in H.
  destruct H as (v & lx1 & Et & H). cbv zeta in H.
  destruct H as (_ & Hv & Hs & He & Hl & Hc & _).
  pose proof (taste_anchored _ _ Ha Et) as (Hsl & Hb & Htc).
  rewrite Htc in *.
  replace (cursor lx + length v - length v) with (cursor lx) in * by lia.
  assert (Hle : cursor lx <= length (str lx)) by lia.
  destruct (currentLine_at lx Hle) as (i & st & en & Hbs & Hn & H1 & H2 & H3).
  rewrite Hs, He, Hv. split; [exact Hsl|]. split.
  - exists i, st, en. rewrite Hl, Hbs. auto.
  - rewrite Hc, Hl, Hbs, Nat2Z.id, (lineStart_nth _ _ Hn).
    unfold lastIndexOf_nl.
    destruct (cursor lx) as [|c] eqn:Ec.
    + assert (st = 0) by lia. subst st. simpl Z.of_nat. simpl Z.to_nat.
      pose proof (last_nl_upto_ge (str lx) 1).
      destruct (0 - last_nl_upto (str lx) 1 - 1 <? 0)%Z eqn:E;
        [reflexivity|apply Z.ltb_ge in E; lia].
    + replace (S (Z.to_nat (Z.of_nat (S c) - 1))) with (S c) by lia.
      destruct (Z.of_nat (S c) - last_nl_upto (str lx) (S c) - 1 <? 0)%Z eqn:E;
        [apply Z.ltb_lt in E|apply Z.ltb_ge in E]; lia.
Qed.

(** The statement of C3 at a concrete input. *)
Lemma C3_token_position_witness :
  let lx := set_cursor (Lexer_new (lit "abc" ++ [NL] ++ lit "def")) 5 in
  let p := Samples.S_ "ef" in
  let t := mkToken p (lit "ef") 5 7 1 1 0 false None in
  let lx' := mkLexer (str lx) 7 7 [] in
  anchored p /\
  eat (Some p) lx = (Some t, lx') /\
  slice (str lx) (start t) (end_ t) = value t /\
  (exists i st en,
      line t = Z.of_nat i /\
      nth_error (lineOffsets lx) i = Some (st, en) /\
      st <= start t /\ start t <= en) /\
  col t = Z.max 0 (Z.of_nat (start t)
                   - Z.of_nat (lineStart lx (Z.to_nat (line t)))).
Proof.
  intros lx p t lx'.
  assert (E : eat (Some p) lx = (Some t, lx')) by reflexivity.
  split; [exact I|]. split; [exact E|].
  exact (@C3_token_position lx p t lx' I E).
Defined.

(** The statement of C1 at a concrete input. *)
Lemma C1_match_at_cursor_witness :
  let lx := Lexer_new (lit "abcd") in
  let p := Samples.S_ "ab" in
  let t := mkToken p (lit "ab") 0 2 0 0 0 false None in
  let lx' := mkLexer (str lx) 2 2 [] in
  anchored p /\
  eat (Some p) lx = (Some t, lx') /\
  fst (taste (Some p) lx) = Some (value t) /\
  start t = cursor lx /\
  slice (str lx) (cursor lx) (cursor lx + length (value t)) = value t /\
  cursor lx' = cursor lx + length (value t).
Proof.
  intros lx p t lx'.
  assert (E : eat (Some p) lx = (Some t, lx')) by reflexivity.
  split; [exact I|]. split; [exact E|].
  exact (@C1_match_at_cursor lx p t lx' I E).
Defined.

(** The assertions of the test file on [taste] and [eat]. *)
Example test_taste_string :
  let a := Lexer_new (lit "abcd") in
  fst (taste (Some (Samples.S_ "xy")) a) = None /\
  fst (taste (Some (Samples.S_ "ab")) a) = Some (lit "ab") /\
  cursor (snd (taste (Some (Samples.S_ "ab")) a)) = 0.
Proof. vm_compute. repeat split. Qed.

Example test_eat_moving_cursor :
  let a := set_cursor (Lexer_new ([NL] ++ lit "  abcd")) 4 in
  match fst (eat (Some (PRe (mkRegExp (RSeq (RChar "b") (RChar "c")) false false))) a) with
  | Some token =>
      value token = lit "bc" /\ start token = 4 /\ end_ token = 6 /\
      indent token = 2 /\ line token = 1%Z
  | None => False
  end.
Proof. vm_compute. repeat split. Qed.

Example test_eat_col :
  let a := Lexer_new (lit "abc" ++ [NL] ++ lit "def" ++ [NL] ++ lit "ghi") in
  option_map col (fst (eat (Some (Samples.S_ "de")) (set_cursor a 4))) = Some 0%Z /\
  option_map col (fst (eat (Some (Samples.S_ "ef")) (set_cursor a 5))) = Some 1%Z.
Proof. vm_compute. repeat split. Qed.

Example test_currentLine :
  let a := Lexer_new (lit "ab" ++ [NL] ++ lit "cd" ++ [NL] ++ lit "ef") in
  map (fun c => currentLine (set_cursor a c)) [0; 2; 3; 5; 6]
  = [0; 0; 1; 1; 2]%Z.
Proof. vm_compute. reflexivity. Qed.

Example test_push_pop_cursor :
  let a := set_cursor (Lexer_new (lit "ab" ++ [NL] ++ lit "   cd")) 1 in
  let b := set_cursor (pushCursor (set_cursor (pushCursor a) 5)) 7 in
  cursor (popCursor b) = 5 /\ cursor (popCursor (popCursor b)) = 1.
Proof. vm_compute. repeat split. Qed.

(** ** Cursor discipline of the drivers *)

Arguments taste : simpl never.
Arguments eat : simpl never.

Ltac bind_inv H E :=
  match type of H with
  | bind ?m _ = Ok _ =>
      let r := fresh "r" in
      let lx := fresh "lx" in
      destruct m as [[r lx]| |] eqn:E; cbn [bind] in H;
      [|discriminate H|discriminate H]
  end.

Lemma eat_whitespace_eq (fuel : nat) (results : list exp) (lx : Lexer) :
  eat_whitespace fuel results lx =
  match eat (Some (PRe WHITESPACE_REGEX)) lx with
  | (Some t, lx') =>
      match fuel with
      | 0 => (results ++ [ETok t], lx')
      | S f => eat_whitespace f (results ++ [ETok t]) lx'
      end
  | (None, lx') => (results, lx')
  end.
Proof. destruct fuel; reflexivity. Qed.

Lemma eat_whitespace_spec (fuel : nat) :
  forall results lx rs lx',
    eat_whitespace fuel results lx = (rs, lx') ->
    cursor lx <= cursor lx' /\ exists ws, rs = results ++ ws.
Proof.
  induction fuel as [|f IH]; intros results lx rs lx' H;
    rewrite eat_whitespace_eq in H;
    destruct (eat (Some (PRe WHITESPACE_REGEX)) lx) as [[t|] lx1] eqn:E;
    apply eat_cursor in E; destruct E as (_ & Ec & _).
  - injection H as <- <-. split; [exact Ec|eauto].
  - injection H as <- <-. split; [exact Ec|]. exists []. now rewrite app_nil_r.
  - apply IH in H. destruct H as (Hc & ws & ->). split; [lia|].
    exists (ETok t :: ws). now rewrite <- app_assoc.
  - injection H as <- <-. split; [exact Ec|]. exists []. now rewrite app_nil_r.
Qed.

(** [new RegExp()] matches the empty string wherever the cursor is: the
    synthetic token has an empty value and sits at the cursor, which does
    not move. *)
Lemma eat_empty_regexp (lx : Lexer) :
  exists t lx',
    eat (Some (PRe RegExp_empty)) lx = (Some t, lx') /\
    value t = [] /\ start t = cursor lx /\ end_ t = cursor lx /\
    cursor lx' = cursor lx /\ str lx' = str lx.
Proof.
  unfold eat, taste, exec. cbv zeta. simpl sticky. simpl global. simpl source.
  cbn [search_from re_lens hd_error skipn].
  eexists. eexists. split; [reflexivity|].
  unfold slice. simpl.
  replace (0 + 0 - 0) with 0 by lia. simpl.
  repeat split; lia.
Qed.

Section Cursor.

Variable G : kind_id -> Kind.
Variable rec : parse_exp_t.
Hypothesis rec_monotone : monotone rec.

Lemma AST_loop_cursor (K : Kind) (shape : list ShapeExp) :
  forall shapeIndex startCursor firstExpCursor firstExp exps lx r lx',
    startCursor <= firstExpCursor -> startCursor <= cursor lx ->
    AST_loop rec K shape shapeIndex startCursor firstExpCursor firstExp exps lx
      = Ok (r, lx') ->
    startCursor <= cursor lx'.
Proof.
  induction shape as [|g rest IH];
    intros shapeIndex sc fc fe exps lx r lx' Hfc Hlx H; cbn [AST_loop] in H.
  - injection H as <- <-. exact Hlx.
  - bind_inv H E. apply rec_monotone in E.
    destruct r0 as [rs|].
    + apply IH in H; [exact H| |lia].
      destruct (negb (TEXT_EXP g) && (shapeIndex =? 0)); lia.
    + cbn zeta iota beta in H.
      destruct (allowIncompleteParse K && (incompleteParseThreshold K <=? content_count exps)).
      * destruct (eat_empty_regexp lx0) as (t & lx2 & Ee & _ & _ & _ & Hc & _).
        rewrite Ee in H. apply IH in H; [exact H|exact Hfc|lia].
      * destruct (fallbackToFirstExp K); injection H as <- <-; simpl; lia.
Qed.

Lemma AST_parse_cursor (K : Kind) (lx : Lexer) (r : option exp) (lx' : Lexer) :
  AST_parse rec K lx = Ok (r, lx') -> cursor lx <= cursor lx'.
Proof. unfold AST_parse. intros H. eapply AST_loop_cursor in H; eauto. Qed.

Lemma LEFT_RECURSIVE_loop_cursor (K : Kind) (first : ShapeExp) (tail : list ShapeExp)
    (leftCursor : nat) :
  forall n left_ lx r lx',
    leftCursor <= cursor lx ->
    LEFT_RECURSIVE_loop rec n K first tail leftCursor left_ lx = Ok (r, lx') ->
    leftCursor <= cursor lx'.
Proof.
  induction n as [|n IH]; intros left_ lx r lx' Hlx H;
    cbn [LEFT_RECURSIVE_loop] in H; [discriminate|].
  destruct (taste (se_rightDelimeter first) lx) as [[d|] lx1] eqn:Et;
    apply taste_fields in Et; destruct Et as (_ & Ec & _).
  - bind_inv H E. apply AST_parse_cursor in E.
    destruct r0 as [[t|rn]|].
    + discriminate.
    + destruct left_ as [l|]; [|discriminate]. apply IH in H; [exact H|lia].
    + injection H as <- <-. simpl. lia.
  - injection H as <- <-. lia.
Qed.

Lemma Kind_parse_cursor (n : nat) (K : Kind) (lx : Lexer) (r : option exp) (lx' : Lexer) :
  Kind_parse rec n K lx = Ok (r, lx') -> cursor lx <= cursor lx'.
Proof.
  unfold Kind_parse, AST_LEFT_RECURSIVE_parse. destruct (driver K).
  - apply AST_parse_cursor.
  - destruct (SHAPE K) as [|first tail]; [discriminate|].
    intros H. bind_inv H E. pose proof E as Hm. apply rec_monotone in Hm.
    destruct r0 as [rs|].
    + apply LEFT_RECURSIVE_loop_cursor in H; lia.
    + injection H as <- <-. exact Hm.
Qed.

Lemma OPTION_loop_cursor (opts : list ShapeExp) :
  forall lx r lx', OPTION_loop rec opts lx = Ok (r, lx') -> cursor lx <= cursor lx'.
Proof.
  induction opts as [|o rest IH]; intros lx r lx' H; cbn [OPTION_loop] in H.
  - injection H as <- <-. lia.
  - bind_inv H E. apply rec_monotone in E. destruct r0 as [l|].
    + injection H as <- <-. exact E.
    + apply IH in H. lia.
Qed.

Lemma AST_EXP_result_cursor (n : nat) (k : kind_id) (lx : Lexer)
    (r : option result) (lx' : Lexer) :
  AST_EXP_result G rec n k lx = Ok (r, lx') -> cursor lx <= cursor lx'.
Proof.
  assert (Hcall : forall lx0,
             bind (Kind_parse rec n (G k) lx0)
                  (fun '(r0, lx1) => Ok (option_map RSingle r0, lx1)) = Ok (r, lx') ->
             cursor lx0 <= cursor lx').
  { intros lx0 H. bind_inv H E. injection H as <- <-.
    now apply Kind_parse_cursor in E. }
  unfold AST_EXP_result. destruct (SHAPE (G k)) as [|f tl]; [apply Hcall|].
  destruct (se_value f); try apply Hcall.
  destruct (taste (Some p) lx) as [[v|] lx1] eqn:Et;
    apply taste_fields in Et; destruct Et as (_ & Ec & _); intros H.
  - apply Hcall in H. lia.
  - injection H as <- <-. lia.
Qed.

Lemma iteration_result_cursor (n : nat) (self : ShapeExp) (lx : Lexer)
    (r : option result) (lx' : Lexer) :
  iteration_result G rec n self lx = Ok (r, lx') -> cursor lx <= cursor lx'.
Proof.
  unfold iteration_result. destruct (se_value self) as [p|k|opts|shape|k].
  - destruct (eat (Some p) lx) as [[t|] lx1] eqn:E;
      apply eat_cursor in E; destruct E as (_ & Ec & _);
      intros H; injection H as <- <-; exact Ec.
  - apply AST_EXP_result_cursor.
  - apply OPTION_loop_cursor.
  - intros H. bind_inv H E. apply AST_parse_cursor in E.
    destruct r0 as [[t|a]|]; injection H as <- <-; exact E.
  - apply AST_EXP_result_cursor.
Qed.

(** [ShapeExp.parse] returns nothing only after resetting the cursor, and
    otherwise leaves it at or after its entry position. *)
Lemma ShapeExp_loop_cursor (self : ShapeExp) (startCursor : nat) :
  forall n expIndex results lx r lx',
    startCursor <= cursor lx ->
    ShapeExp_loop G rec n self startCursor expIndex results lx = Ok (r, lx') ->
    startCursor <= cursor lx' /\ (r = None -> cursor lx' = startCursor).
Proof.
  induction n as [|n IH]; intros expIndex results lx r lx' Hlx H;
    cbn [ShapeExp_loop] in H; [discriminate|].
  destruct (lt_max expIndex (se_max self)).
  2:{ injection H as <- <-. split; [exact Hlx|discriminate]. }
  destruct (taste (se_rightDelimeter self) lx) as [d lx0] eqn:Et.
  apply taste_fields in Et. destruct Et as (_ & Ec & _).
  destruct (match d with None => true | Some _ => false end || (expIndex =? 0)).
  2:{ injection H as <- <-. split; [lia|discriminate]. }
  destruct (eat_whitespace (length (str lx0)) results lx0) as [results1 lx1] eqn:Ew.
  apply eat_whitespace_spec in Ew. destruct Ew as (Hw & _).
  bind_inv H E. apply iteration_result_cursor in E.
  destruct r0 as [res|].
  - apply IH in H; [exact H|lia].
  - destruct (se_min self <=? expIndex); injection H as <- <-.
    + split; [lia|discriminate].
    + simpl. split; [lia|reflexivity].
Qed.

End Cursor.

Lemma ShapeExp_parse_monotone (G : kind_id -> Kind) (fuel : nat) :
  monotone (ShapeExp_parse G fuel).
Proof.
  induction fuel as [|f IH]; intros se lx r lx' H; cbn [ShapeExp_parse] in H;
    [discriminate|].
  eapply ShapeExp_loop_cursor in H; [|exact IH|lia]. lia.
Qed.

Lemma ShapeExp_parse_failure_restores (G : kind_id -> Kind) (fuel : nat)
    (self : ShapeExp) (lx lx' : Lexer) :
  ShapeExp_parse G fuel self lx = Ok (None, lx') -> cursor lx' = cursor lx.
Proof.
  destruct fuel as [|f]; cbn [ShapeExp_parse]; [discriminate|]. intros H.
  eapply ShapeExp_loop_cursor in H;
    [|apply ShapeExp_parse_monotone|apply Nat.le_refl].
  now apply H.
Qed.

(** Whatever a kind's [parse] returns, the cursor is at or after its
    entry position. *)
Lemma parse_success_cursor (G : kind_id -> Kind) (fuel : nat) (K : Kind)
    (lx : Lexer) (r : option exp) (lx' : Lexer) :
  parse G fuel K lx = Ok (r, lx') -> cursor lx <= cursor lx'.
Proof. apply Kind_parse_cursor, ShapeExp_parse_monotone. Qed.

(** ** The budget of the model

    An outcome other than [NoFuel] does not depend on the budget: a larger
    one gives the same outcome. *)

Lemma bind_settled (A B : Type) (m : res A) (k : A -> res B) :
  bind m k <> NoFuel -> m <> NoFuel.
Proof. destruct m; cbn [bind]; congruence. Qed.

Section Budget.

Variable G : kind_id -> Kind.
Variables rec rec' : parse_exp_t.
Hypothesis rec_extends : extends rec rec'.

Ltac step_rec H :=
  match type of H with
  | bind (rec ?g ?lx) _ <> NoFuel =>
      rewrite (@rec_extends g lx (@bind_settled _ _ _ _ H));
      destruct (rec g lx) as [[? ?]| |]; cbn [bind] in *;
      [|reflexivity|congruence]
  end.

Lemma AST_loop_stable (K : Kind) (shape : list ShapeExp) :
  forall shapeIndex startCursor firstExpCursor firstExp exps lx,
    AST_loop rec K shape shapeIndex startCursor firstExpCursor firstExp exps lx
      <> NoFuel ->
    AST_loop rec' K shape shapeIndex startCursor firstExpCursor firstExp exps lx
    = AST_loop rec K shape shapeIndex startCursor firstExpCursor firstExp exps lx.
Proof.
  induction shape as [|g rest IH]; intros shapeIndex sc fc fe exps lx H;
    cbn [AST_loop] in *; [reflexivity|].
  step_rec H. destruct o as [rs|].
  - now apply IH.
  - cbn zeta iota beta in *.
    destruct (allowIncompleteParse K && (incompleteParseThreshold K <=? content_count exps));
      [|reflexivity].
    destruct (eat (Some (PRe RegExp_empty)) l) as [[t|] lx2]; [|reflexivity].
    now apply IH.
Qed.

Lemma AST_parse_stable (K : Kind) (lx : Lexer) :
  AST_parse rec K lx <> NoFuel -> AST_parse rec' K lx = AST_parse rec K lx.
Proof. apply AST_loop_stable. Qed.

Lemma LEFT_RECURSIVE_loop_stable (K : Kind) (first : ShapeExp) (tail : list ShapeExp)
    (leftCursor : nat) :
  forall n n' left_ lx,
    n <= n' ->
    LEFT_RECURSIVE_loop rec n K first tail leftCursor left_ lx <> NoFuel ->
    LEFT_RECURSIVE_loop rec' n' K first tail leftCursor left_ lx
    = LEFT_RECURSIVE_loop rec n K first tail leftCursor left_ lx.
Proof.
  induction n as [|n IH]; intros n' left_ lx Hle H;
    cbn [LEFT_RECURSIVE_loop] in H; [congruence|].
  destruct n' as [|n']; [lia|]. cbn [LEFT_RECURSIVE_loop] in *.
  destruct (taste (se_rightDelimeter first) lx) as [[d|] lx1]; [|reflexivity].
  rewrite (@AST_parse_stable _ _ (@bind_settled _ _ _ _ H)).
  destruct (AST_parse rec (RIGHT K tail) lx1) as [[r lx2]| |]; cbn [bind] in *;
    [|reflexivity|congruence].
  destruct r as [[t|rn]|]; try reflexivity.
  destruct left_ as [l|]; [|reflexivity].
  apply IH; [lia|exact H].
Qed.

Lemma Kind_parse_stable (n n' : nat) (K : Kind) (lx : Lexer) :
  n <= n' ->
  Kind_parse rec n K lx <> NoFuel ->
  Kind_parse rec' n' K lx = Kind_parse rec n K lx.
Proof.
  intros Hle. unfold Kind_parse, AST_LEFT_RECURSIVE_parse. destruct (driver K).
  - apply AST_parse_stable.
  - destruct (SHAPE K) as [|first tail]; [reflexivity|].
    intros H. step_rec H. destruct o as [rs|]; [|reflexivity].
    now apply LEFT_RECURSIVE_loop_stable.
Qed.

Lemma OPTION_loop_stable (opts : list ShapeExp) :
  forall lx, OPTION_loop rec opts lx <> NoFuel ->
             OPTION_loop rec' opts lx = OPTION_loop rec opts lx.
Proof.
  induction opts as [|o rest IH]; intros lx H; cbn [OPTION_loop] in *;
    [reflexivity|].
  step_rec H. destruct o0 as [l0|]; [reflexivity|]. now apply IH.
Qed.

Lemma AST_EXP_result_stable (n n' : nat) (k : kind_id) (lx : Lexer) :
  n <= n' ->
  AST_EXP_result G rec n k lx <> NoFuel ->
  AST_EXP_result G rec' n' k lx = AST_EXP_result G rec n k lx.
Proof.
  intros Hle.
  assert (Hcall : forall lx0,
             bind (Kind_parse rec n (G k) lx0)
                  (fun '(r0, lx1) => Ok (option_map RSingle r0, lx1)) <> NoFuel ->
             bind (Kind_parse rec' n' (G k) lx0)
                  (fun '(r0, lx1) => Ok (option_map RSingle r0, lx1))
             = bind (Kind_parse rec n (G k) lx0)
                    (fun '(r0, lx1) => Ok (option_map RSingle r0, lx1))).
  { intros lx0 H.
    now rewrite (@Kind_parse_stable _ _ _ _ Hle (@bind_settled _ _ _ _ H)). }
  unfold AST_EXP_result. destruct (SHAPE (G k)) as [|f tl]; [apply Hcall|].
  destruct (se_value f); try apply Hcall.
  destruct (taste (Some p) lx) as [[v|] lx1]; [apply Hcall|reflexivity].
Qed.

Lemma iteration_result_stable (n n' : nat) (self : ShapeExp) (lx : Lexer) :
  n <= n' ->
  iteration_result G rec n self lx <> NoFuel ->
  iteration_result G rec' n' self lx = iteration_result G rec n self lx.
Proof.
  intros Hle. unfold iteration_result.
  destruct (se_value self) as [p|k|opts|shape|k].
  - reflexivity.
  - now apply AST_EXP_result_stable.
  - apply OPTION_loop_stable.
  - intros H. now rewrite (@AST_parse_stable _ _ (@bind_settled _ _ _ _ H)).
  - now apply AST_EXP_result_stable.
Qed.

Lemma ShapeExp_loop_stable (self : ShapeExp) (startCursor : nat) :
  forall n n' expIndex results lx,
    n <= n' ->
    ShapeExp_loop G rec n self startCursor expIndex results lx <> NoFuel ->
    ShapeExp_loop G rec' n' self startCursor expIndex results lx
    = ShapeExp_loop G rec n self startCursor expIndex results lx.
Proof.
  induction n as [|n IH]; intros n' expIndex results lx Hle H;
    cbn [ShapeExp_loop] in H; [congruence|].
  destruct n' as [|n']; [lia|]. cbn [ShapeExp_loop] in *.
  destruct (lt_max expIndex (se_max self)); [|reflexivity].
  destruct (taste (se_rightDelimeter self) lx) as [d lx0].
  destruct (match d with None => true | Some _ => false end || (expIndex =? 0));
    [|reflexivity].
  destruct (eat_whitespace (length (str lx0)) results lx0) as [results1 lx1].
  assert (Hn : n <= n') by lia.
  rewrite (@iteration_result_stable _ _ _ _ Hn (@bind_settled _ _ _ _ H)).
  destruct (iteration_result G rec n self lx1) as [[r lx2]| |]; cbn [bind] in *;
    [|reflexivity|congruence].
  destruct r as [res|]; [|reflexivity].
  now apply IH.
Qed.

End Budget.

Lemma ShapeExp_parse_stable (G : kind_id -> Kind) :
  forall fuel fuel', fuel <= fuel' ->
    extends (ShapeExp_parse G fuel) (ShapeExp_parse G fuel').
Proof.
  induction fuel as [|f IH]; intros fuel' Hle se lx H; cbn [ShapeExp_parse] in H;
    [congruence|].
  destruct fuel' as [|f']; [lia|]. cbn [ShapeExp_parse].
  apply ShapeExp_loop_stable; [apply IH|idtac|exact H]; lia.
Qed.

(** A parse that returns or throws with some budget does the same with
    any larger one. *)
Lemma parse_stable (G : kind_id -> Kind) (fuel fuel' : nat) (K : Kind) (lx : Lexer) :
  fuel <= fuel' ->
  parse G fuel K lx <> NoFuel ->
  parse G fuel' K lx = parse G fuel K lx.
Proof.
  intros Hle. unfold parse.
  apply Kind_parse_stable; [now apply ShapeExp_parse_stable|exact Hle].
Qed.

(** The README examples run by the test file, and scenario 3 of the
    specification. *)
Example test_readme_examples :
  let text_of r := match got_exp r with
                   | Some (ENode n) => Some (text n)
                   | _ => None
                   end in
  text_of (parse Samples.G 5 Samples.NUMBER (Lexer_new (lit "42")))
  = Some (lit "42") /\
  text_of (parse Samples.G 5 Samples.ADD (Lexer_new (lit "2+3")))
  = Some (lit "2+3") /\
  match got_exp (parse Samples.G 5 Samples.ADD (Lexer_new (lit " 2  +   3 "))) with
  | Some (ENode n) =>
      text n = lit " 2  +   3" /\
      map value (contentTokens n) = [lit "2"; lit "+"; lit "3"]
  | _ => False
  end.
Proof. vm_compute. repeat split. Qed.

(** ** Results of a successful [ShapeExp.parse] *)

Section NonEmpty.

Variable G : kind_id -> Kind.
Variable rec : parse_exp_t.

Lemma iteration_result_single (n : nat) (self : ShapeExp) (lx : Lexer)
    (r : result) (lx' : Lexer) :
  single_result self = true ->
  iteration_result G rec n self lx = Ok (Some r, lx') ->
  exists e, r = RSingle e.
Proof.
  assert (Hast : forall k, AST_EXP_result G rec n k lx = Ok (Some r, lx') ->
                           exists e, r = RSingle e).
  { intros k. unfold AST_EXP_result.
    assert (Hcall : forall lx0,
               bind (Kind_parse rec n (G k) lx0)
                    (fun '(r0, lx1) => Ok (option_map RSingle r0, lx1))
               = Ok (Some r, lx') -> exists e, r = RSingle e).
    { intros lx0 H. bind_inv H E. destruct r0 as [e|]; [|discriminate].
      injection H as <- <-. eauto. }
    destruct (SHAPE (G k)) as [|f tl]; [apply Hcall|].
    destruct (se_value f); try apply Hcall.
    destruct (taste (Some p) lx) as [[v|] lx1]; [apply Hcall|discriminate]. }
  unfold single_result, iteration_result.
  destruct (se_value self) as [p|k|opts|shape|k]; intros Hs; try discriminate Hs.
  - destruct (eat (Some p) lx) as [[t|] lx1]; intros H; [|discriminate].
    injection H as <- <-. eauto.
  - apply Hast.
  - apply Hast.
Qed.

Lemma ShapeExp_loop_nonempty (self : ShapeExp) (startCursor : nat) :
  single_result self = true ->
  forall n expIndex results lx rs lx',
    results <> [] \/
    (expIndex = 0 /\ 1 <= se_min self /\ lt_max 0 (se_max self) = true) ->
    ShapeExp_loop G rec n self startCursor expIndex results lx = Ok (Some rs, lx') ->
    rs <> [].
Proof.
  intros Hs.
  induction n as [|n IH]; intros expIndex results lx rs lx' Hinv H;
    cbn [ShapeExp_loop] in H; [discriminate|].
  destruct (lt_max expIndex (se_max self)) eqn:Emax.
  2:{ injection H as <- <-. destruct Hinv as [Hne|(-> & _ & Hm)]; congruence. }
  destruct (taste (se_rightDelimeter self) lx) as [d lx0].
  destruct (match d with None => true | Some _ => false end || (expIndex =? 0)) eqn:Ec.
  2:{ injection H as <- <-. destruct Hinv as [Hne|(-> & _ & _)]; [exact Hne|].
      rewrite orb_true_r in Ec. discriminate. }
  destruct (eat_whitespace (length (str lx0)) results lx0) as [results1 lx1] eqn:Ew.
  apply eat_whitespace_spec in Ew. destruct Ew as (_ & ws & ->).
  bind_inv H E. destruct r as [res|].
  - apply (iteration_result_single _ _ _ Hs) in E. destruct E as (e & ->).
    apply IH in H; [exact H|]. left. cbn [push_result].
    intros Habs. apply app_eq_nil in Habs. destruct Habs as [_ Habs]. discriminate.
  - destruct (se_min self <=? expIndex) eqn:Emin; [|discriminate].
    injection H as <- <-. apply Nat.leb_le in Emin.
    destruct Hinv as [Hne|(-> & Hm & _)]; [|lia].
    intros Habs. apply app_eq_nil in Habs. destruct Habs as [Habs _]. congruence.
Qed.

End NonEmpty.




(** ** Cursor conservation on failure *)

(** C2 (evaluation): [$NESTED.parse] on ["ac"] returns nothing, yet leaves
    the cursor at 1, not at its entry position 0.  The sub-shape at
    position 0 succeeds with an empty list after consuming ["a"]; the
    driver then records [firstExp = results[0]], which is [undefined], with
    [firstExpCursor = 1], and the fallback on the failure of ["z"] returns
    that [firstExp] at that cursor. *)
Theorem C2_failed_parse_moves_cursor :
  let lx := Lexer_new (lit "ac") in
  let r := parse Samples.G 8 Samples.NESTED lx in
  r = Ok (None, got_lexer r) /\ cursor lx = 0 /\ cursor (got_lexer r) = 1.
Proof. vm_compute. repeat split. Qed.

(** The part of C2 that holds of every expression and every kind: a
    failing [ShapeExp.parse] restores the entry cursor, and no parse that
    returns leaves the cursor before its entry position. *)
Lemma ShapeExp_parse_cursor (G : kind_id -> Kind) (fuel : nat) (self : ShapeExp)
    (lx : Lexer) (r : option (list exp)) (lx' : Lexer) :
  ShapeExp_parse G fuel self lx = Ok (r, lx') ->
  cursor lx <= cursor lx' /\ (r = None -> cursor lx' = cursor lx).
Proof.
  intros H. split.
  - now apply ShapeExp_parse_monotone in H.
  - intros ->. now apply ShapeExp_parse_failure_restores in H.
Qed.

(** [$AST.parse] returning nothing restores the entry cursor as long as no
    expression of the shape succeeds with an empty list; the evaluation
    above is outside this case. *)
Lemma AST_loop_failure_restores (rec : parse_exp_t) (K : Kind) :
  productive rec ->
  forall shape shapeIndex startCursor firstExpCursor firstExp exps lx lx',
    (firstExp = None -> firstExpCursor = startCursor) ->
    AST_loop rec K shape shapeIndex startCursor firstExpCursor firstExp exps lx
      = Ok (None, lx') ->
    cursor lx' = startCursor.
Proof.
  intros Hprod.
  induction shape as [|g rest IH];
    intros shapeIndex sc fc fe exps lx lx' Hinv H; cbn [AST_loop] in H.
  - discriminate.
  - bind_inv H E. destruct r as [rs|].
    + apply IH in H; [exact H|].
      destruct (negb (TEXT_EXP g) && (shapeIndex =? 0)); [|exact Hinv].
      destruct rs as [|x rs]; [|discriminate].
      exfalso. exact (Hprod _ _ _ E).
    + cbn zeta iota beta in H.
      destruct (allowIncompleteParse K && (incompleteParseThreshold K <=? content_count exps)).
      * destruct (eat (Some (PRe RegExp_empty)) lx0) as [[t|] lx2]; [|discriminate].
        apply IH in H; [exact H|exact Hinv].
      * destruct (fallbackToFirstExp K).
        -- injection H as Hfe <-. cbn [set_cursor cursor]. now apply Hinv.
        -- injection H as <-. reflexivity.
Qed.

Lemma AST_parse_failure_restores (rec : parse_exp_t) (K : Kind) (lx lx' : Lexer) :
  productive rec ->
  AST_parse rec K lx = Ok (None, lx') -> cursor lx' = cursor lx.
Proof.
  intros Hprod H. unfold AST_parse in H.
  exact (@AST_loop_failure_restores rec K Hprod (SHAPE K) 0 (cursor lx) (cursor lx)
           None [] lx lx' (fun _ => eq_refl) H).
Qed.

(** ** Fallback to the first expression *)

(** Past position 0 the loop variables [firstExp] and [firstExpCursor] no
    longer change: the loop from one state of a run is the loop from any
    later state of it. *)
Lemma AST_loop_run (rec : parse_exp_t) (K : Kind) (s s' : AST_state) :
  AST_run rec K s s' ->
  forall startCursor firstExpCursor firstExp,
    1 <= st_index s ->
    AST_loop rec K (st_shape s) (st_index s) startCursor firstExpCursor firstExp
             (st_exps s) (st_lexer s)
    = AST_loop rec K (st_shape s') (st_index s') startCursor firstExpCursor
               firstExp (st_exps s') (st_lexer s').
Proof.
  induction 1 as [s|g rest i exps lx rs lx1 s' Hg _ IH
                  |g rest i exps lx lx1 t lx2 s' Hg Hinc Heat _ IH];
    intros sc fc fe Hi; cbn [st_shape st_index st_exps st_lexer] in *.
  - reflexivity.
  - cbn [AST_loop]. rewrite Hg. cbn [bind].
    destruct i as [|i]; [lia|].
    replace (S i =? 0) with false by reflexivity. rewrite andb_false_r.
    cbn zeta iota beta. apply IH. lia.
  - cbn [AST_loop]. rewrite Hg. cbn [bind]. cbn zeta iota beta.
    rewrite Hinc, Heat. apply IH. lia.
Qed.

(** The fallback itself: what the loop returns at a failing position. *)
Lemma AST_loop_fallback (rec : parse_exp_t) (K : Kind) (g : ShapeExp)
    (rest : list ShapeExp) (i startCursor firstExpCursor : nat)
    (firstExp : option exp) (exps : list exp) (lx lx1 : Lexer) :
  rec g lx = Ok (None, lx1) ->
  allowIncompleteParse K
  && (incompleteParseThreshold K <=? content_count exps) = false ->
  fallbackToFirstExp K = true ->
  AST_loop rec K (g :: rest) i startCursor firstExpCursor firstExp exps lx
  = Ok (firstExp, set_cursor lx1 firstExpCursor).
Proof.
  intros Hg Hinc Hfb. cbn [AST_loop]. rewrite Hg. cbn [bind].
  cbn zeta iota beta. rewrite Hinc, Hfb. reflexivity.
Qed.

(** The first position of the loop, when its expression is not a literal
    or pattern and succeeds. *)
Lemma AST_loop_first (rec : parse_exp_t) (K : Kind) (first : ShapeExp)
    (rest : list ShapeExp) (lx : Lexer) (rs : list exp) (lx1 : Lexer) :
  TEXT_EXP first = false ->
  rec first lx = Ok (Some rs, lx1) ->
  AST_loop rec K (first :: rest) 0 (cursor lx) (cursor lx) None [] lx
  = AST_loop rec K rest 1 (cursor lx) (cursor lx1) (hd_error rs) rs lx1.
Proof.
  intros Ht Hf. cbn [AST_loop]. rewrite Hf. cbn [bind].
  rewrite Ht. reflexivity.
Qed.

(** C4: for a node kind with [fallbackToFirstExp] whose first shape
    expression is not a literal or pattern and succeeded with the children
    [rs], leaving the scanner at [lx1]: when a later shape position fails
    and the incomplete-parse branch does not apply, [$AST.parse] returns
    the first element of [rs], and the cursor on exit is the cursor of
    [lx1]. *)
Theorem C4_fallback_to_first_exp (G : kind_id -> Kind) (fuel : nat) (K : Kind)
    (first : ShapeExp) (rest : list ShapeExp) (lx : Lexer) (rs : list exp)
    (lx1 : Lexer) (g : ShapeExp) (rest' : list ShapeExp) (i : nat)
    (exps : list exp) (lxj lxj' : Lexer) :
  driver K = BaseDriver ->
  SHAPE K = first :: rest ->
  fallbackToFirstExp K = true ->
  TEXT_EXP first = false ->
  ShapeExp_parse G fuel first lx = Ok (Some rs, lx1) ->
  AST_run (ShapeExp_parse G fuel) K
          (mkState rest 1 rs lx1) (mkState (g :: rest') i exps lxj) ->
  ShapeExp_parse G fuel g lxj = Ok (None, lxj') ->
  allowIncompleteParse K
  && (incompleteParseThreshold K <=? content_count exps) = false ->
  exists lx',
    parse G fuel K lx = Ok (hd_error rs, lx') /\ cursor lx' = cursor lx1.
Proof.
  intros Hd Hshape Hfb Ht Hf Hrun Hg Hinc.
  exists (set_cursor lxj' (cursor lx1)). split; [|reflexivity].
  unfold parse, Kind_parse. rewrite Hd. unfold AST_parse. rewrite Hshape.
  rewrite (@AST_loop_first _ K first rest lx rs lx1 Ht Hf).
  pose proof (AST_loop_run Hrun (cursor lx) (cursor lx1) (hd_error rs) (le_n 1))
    as Hr.
  cbn [st_shape st_index st_exps st_lexer] in Hr. rewrite Hr.
  now apply AST_loop_fallback.
Qed.

(** The statement of C4 at a concrete input. *)
Lemma C4_fallback_to_first_exp_witness :
  let G := Samples.G in
  let K := Samples.ADD in
  let first := Samples.one (VAst "$NUMBER"%string) (Some (Samples.S_ "+")) in
  let plus := Samples.one (VText (Samples.S_ "+")) None in
  let g := Samples.one (VAst "$NUMBER"%string) None in
  let lx := Lexer_new (lit "2+") in
  let r1 := ShapeExp_parse G 5 first lx in
  let r2 := ShapeExp_parse G 5 plus (got_lexer r1) in
  let r3 := ShapeExp_parse G 5 g (got_lexer r2) in
  let exps := got_list r1 ++ got_list r2 in
  driver K = BaseDriver /\
  SHAPE K = first :: [plus; g] /\
  fallbackToFirstExp K = true /\
  TEXT_EXP first = false /\
  r1 = Ok (Some (got_list r1), got_lexer r1) /\
  AST_run (ShapeExp_parse G 5) K
          (mkState [plus; g] 1 (got_list r1) (got_lexer r1))
          (mkState [g] 2 exps (got_lexer r2)) /\
  r3 = Ok (None, got_lexer r3) /\
  allowIncompleteParse K
  && (incompleteParseThreshold K <=? content_count exps) = false /\
  exists lx',
    parse G 5 K lx = Ok (hd_error (got_list r1), lx') /\
    cursor lx' = cursor (got_lexer r1).
Proof.
  intros G K first plus g lx r1 r2 r3 exps.
  assert (E1 : r1 = Ok (Some (got_list r1), got_lexer r1))
    by (vm_compute; reflexivity).
  assert (E2 : r2 = Ok (Some (got_list r2), got_lexer r2))
    by (vm_compute; reflexivity).
  assert (E3 : r3 = Ok (None, got_lexer r3)) by (vm_compute; reflexivity).
  assert (Hrun : AST_run (ShapeExp_parse G 5) K
                   (mkState [plus; g] 1 (got_list r1) (got_lexer r1))
                   (mkState [g] 2 exps (got_lexer r2))).
  { eapply run_success; [exact E2|]. apply run_here. }
  repeat (split; [first [reflexivity | assumption]|]).
  exact (@C4_fallback_to_first_exp G 5 K first [plus; g] lx (got_list r1)
           (got_lexer r1) g [] 2 exps (got_lexer r2) (got_lexer r3)
           eq_refl eq_refl eq_refl eq_refl E1 Hrun E3 eq_refl).
Defined.

(** ** Incomplete parses and [validate] *)

Lemma validate_flat_map (n : Node) :
  validate n = flat_map diagnostics_of (tokens n).
Proof.
  unfold validate.
  assert (H : forall l acc,
             fold_left
               (fun results t =>
                  match isMissing t, shapeExp t with
                  | true, Some se =>
                      match truthy_message (se_e se) with
                      | Some m => results ++ [mkASTError (line t) (col t) m]
                      | None => results
                      end
                  | _, _ => results
                  end) l acc
             = acc ++ flat_map diagnostics_of l).
  { induction l as [|t l IH]; intros acc; simpl.
    - now rewrite app_nil_r.
    - rewrite IH. unfold diagnostics_of at 2.
      destruct (isMissing t); [|reflexivity].
      destruct (shapeExp t) as [se|]; [|reflexivity].
      destruct (se_e se) as [[|c m]|]; simpl; try reflexivity.
      now rewrite <- app_assoc. }
  apply (H (tokens n) []).
Qed.

Lemma tokens_flat_map (n : Node) :
  tokens n = flat_map exp_tokens (exps n).
Proof.
  destruct n as [nm l s]. cbn [tokens exps].
  induction l as [|e l IH]; [reflexivity|].
  destruct e as [t|m]; cbn [flat_map exp_tokens]; now rewrite <- IH.
Qed.

Lemma content_count_app (l1 l2 : list exp) :
  content_count (l1 ++ l2) = content_count l1 + content_count l2.
Proof. unfold content_count. now rewrite filter_app, length_app. Qed.

(** C5 (as stated): the back reference of a missing token outside the
    node it was made for.  [$INNER] allows incomplete parses from no content child on and
    its only expression, [["x"], { min: 1, e: "inner" }], fails on ["q"]:
    [$INNER.parse] returns a node holding the missing token, and [validate]
    on that node reports "inner".  [$MID] has
    [new Shape(new Shape($INNER, "z"), "y")]: the sub-shape falls back to
    the [$INNER] node, whose children [ShapeExp.parse] takes as the
    children of the sub-shape; [$MID] then falls back to the first of
    them, the missing token itself.  The expression of [$TOP] or [$TOP2]
    that referred to [$MID] gets a token as its result and hangs itself on
    it: the token is still flagged [isMissing], and [validate] on the
    [$TOP] node reports nothing, on the [$TOP2] node "outer". *)
Lemma C5_missing_token_rehung :
  let INNER := mkKind "$INNER"%string
                 [ShapeExp_new (VOption [Samples.one (VText (Samples.S_ "x"%string)) None])
                               None 1 (Some 1) (Some (lit "inner"%string))]
                 true true 0 BaseDriver in
  let MID := AST_defaults "$MID"%string
               [Samples.one
                  (VSubShape [Samples.one (VAst "$INNER"%string) (Some (Samples.S_ "z"%string));
                              Samples.one (VText (Samples.S_ "z"%string)) None])
                  (Some (Samples.S_ "y"%string));
                Samples.one (VText (Samples.S_ "y"%string)) None] in
  let TOP := AST_defaults "$TOP"%string [Samples.one (VAst "$MID"%string) None] in
  let TOP2 := AST_defaults "$TOP2"%string
                [ShapeExp_new (VAst "$MID"%string) None 1 (Some 1) (Some (lit "outer"%string))] in
  let G := fun k : kind_id =>
             if String.eqb k "$INNER"%string then INNER
             else if String.eqb k "$MID"%string then MID
             else AST_defaults k [] in
  let lx := Lexer_new (lit "q"%string) in
  match got_exp (parse G 8 INNER lx),
        got_exp (parse G 8 MID lx),
        got_exp (parse G 8 TOP lx),
        got_exp (parse G 8 TOP2 lx) with
  | Some (ENode inner), Some (ETok m), Some (ENode top), Some (ENode top2) =>
      validate inner = [mkASTError 0 0 (lit "inner"%string)] /\
      isMissing m = true /\
      map isMissing (tokens top) = [true] /\ validate top = [] /\
      map isMissing (tokens top2) = [true] /\
      validate top2 = [mkASTError 0 0 (lit "outer"%string)]
  | _, _, _, _ => False
  end.
Proof. vm_compute. repeat split. Qed.

(** Along a run of the loop only [firstExp] and [firstExpCursor] may
    change besides the state: the loop at the start of the run is the
    loop at its end, for some values of the two. *)
Lemma AST_loop_run_any (rec : parse_exp_t) (K : Kind) (s s' : AST_state) :
  AST_run rec K s s' ->
  forall startCursor firstExpCursor firstExp,
  exists firstExpCursor' firstExp',
    AST_loop rec K (st_shape s) (st_index s) startCursor firstExpCursor firstExp
             (st_exps s) (st_lexer s)
    = AST_loop rec K (st_shape s') (st_index s') startCursor firstExpCursor'
               firstExp' (st_exps s') (st_lexer s').
Proof.
  induction 1 as [s|g rest i exps lx rs lx1 s' Hg _ IH
                  |g rest i exps lx lx1 t lx2 s' Hg Hinc Heat _ IH];
    intros sc fc fe; cbn [st_shape st_index st_exps st_lexer] in *.
  - exists fc, fe. reflexivity.
  - cbn [AST_loop]. rewrite Hg. cbn [bind]. cbn zeta iota beta. apply IH.
  - cbn [AST_loop]. rewrite Hg. cbn [bind]. cbn zeta iota beta.
    rewrite Hinc, Heat. apply IH.
Qed.

(** Once the content children reach the threshold of a kind that allows
    incomplete parses, no later position can make the loop fall back or
    fail: when it returns, it returns the node of the kind, and the
    children accumulated so far are the first children of that node. *)
Lemma AST_loop_incomplete_node (rec : parse_exp_t) (K : Kind) :
  allowIncompleteParse K = true ->
  forall shape shapeIndex startCursor firstExpCursor firstExp exps lx r lx',
    incompleteParseThreshold K <= content_count exps ->
    AST_loop rec K shape shapeIndex startCursor firstExpCursor firstExp exps lx
      = Ok (r, lx') ->
    exists more,
      r = Some (ENode (mkNode (kind_name K) (exps ++ more) None)).
Proof.
  intros Ha.
  induction shape as [|g rest IH];
    intros i sc fc fe exps lx r lx' Ht H; cbn [AST_loop] in H.
  - injection H as <- <-. exists []. now rewrite app_nil_r.
  - bind_inv H E. destruct r0 as [rs|].
    + apply IH in H; [|rewrite content_count_app; lia].
      destruct H as (more & ->). exists (rs ++ more). now rewrite app_assoc.
    + cbn zeta iota beta in H. rewrite Ha in H.
      apply Nat.leb_le in Ht. rewrite Ht in H. cbn [andb] in H.
      apply Nat.leb_le in Ht.
      destruct (eat (Some (PRe RegExp_empty)) lx0) as [[t|] lx2]; [|discriminate].
      apply IH in H; [|rewrite content_count_app; lia].
      destruct H as (more & ->).
      exists (ETok (missing_token t g) :: more). now rewrite <- app_assoc.
Qed.

(** What [validate] reports, said without the loop: a diagnostic is in
    the list exactly when it is that of a token of the node flagged
    [isMissing] whose expression carries a non-empty message. *)
Lemma validate_In (n : Node) (d : ASTError) :
  In d (validate n) <->
  exists t se,
    In t (tokens n) /\ isMissing t = true /\ shapeExp t = Some se /\
    se_e se = Some (err_message d) /\ err_message d <> [] /\
    err_line d = line t /\ err_col d = col t.
Proof.
  rewrite validate_flat_map, in_flat_map. split.
  - intros (t & Hin & Hd). unfold diagnostics_of in Hd.
    destruct (isMissing t) eqn:Em; [|contradiction].
    destruct (shapeExp t) as [se|] eqn:Es; [|contradiction].
    destruct (se_e se) as [[|c m]|] eqn:Ee; try contradiction.
    destruct Hd as [<-|[]]. exists t, se. cbn [err_message err_line err_col].
    repeat split; auto. discriminate.
  - intros (t & se & Hin & Em & Es & Ee & Hne & Hl & Hc).
    exists t. split; [exact Hin|]. unfold diagnostics_of. rewrite Em, Es, Ee.
    destruct d as [l c m]. cbn [err_message err_line err_col] in *.
    destruct m as [|x m]; [congruence|]. left. congruence.
Qed.

Lemma validate_children (nm : string) (l1 l2 : list exp) (s : option ShapeExp) :
  validate (mkNode nm (l1 ++ l2) s)
  = validate (mkNode nm l1 None) ++ validate (mkNode nm l2 None).
Proof.
  rewrite !validate_flat_map, !tokens_flat_map. cbn [exps].
  now rewrite flat_map_app, flat_map_app.
Qed.

(** C5 (amended): when a shape position [g] fails under
    [allowIncompleteParse] with at least [incompleteParseThreshold]
    content children accumulated, the loop of [$AST.parse] goes on with
    the next position after appending a
    token [m] of empty value at the current cursor, flagged [isMissing] and
    referring back to [g].  When the call of [$AST.parse] that came to this
    position returns, it returns the node of the kind, [m] is the child of
    that node right after the children accumulated before, and [validate]
    on that node yields the diagnostics of the children before [m], then
    for [m] exactly one diagnostic, at the line and col of [m] with the
    message of [g], when [g] carries a message, and none when it does not,
    then the diagnostics of the children after [m].  On any node, the
    diagnostics of [validate] are those of the missing tokens of the node
    whose expression carries a message, and no others. *)
Theorem C5_missing_token (G : kind_id -> Kind) (fuel : nat) (K : Kind)
    (g : ShapeExp) (rest : list ShapeExp) (i startCursor firstExpCursor : nat)
    (firstExp : option exp) (exps0 : list exp) (lx lx1 : Lexer) :
  ShapeExp_parse G fuel g lx = Ok (None, lx1) ->
  allowIncompleteParse K = true ->
  incompleteParseThreshold K <= content_count exps0 ->
  exists m lx2,
    AST_loop (ShapeExp_parse G fuel) K (g :: rest) i startCursor firstExpCursor
             firstExp exps0 lx
    = AST_loop (ShapeExp_parse G fuel) K rest (S i) startCursor firstExpCursor
               firstExp (exps0 ++ [ETok m]) lx2 /\
    value m = [] /\ start m = cursor lx1 /\ end_ m = cursor lx1 /\
    isMissing m = true /\ shapeExp m = Some g /\
    cursor lx2 = cursor lx1 /\
    (forall lx0 r lx',
        AST_run (ShapeExp_parse G fuel) K
                (mkState (SHAPE K) 0 [] lx0) (mkState (g :: rest) i exps0 lx) ->
        AST_parse (ShapeExp_parse G fuel) K lx0 = Ok (r, lx') ->
        exists n more,
          r = Some (ENode n) /\ name n = kind_name K /\
          exps n = exps0 ++ ETok m :: more /\
          In m (tokens n) /\
          validate n
          = validate (mkNode (name n) exps0 None)
            ++ match se_e g with
               | Some (c :: msg) => [mkASTError (line m) (col m) (c :: msg)]
               | _ => []
               end
            ++ validate (mkNode (name n) more None)) /\
    (forall n d,
        In d (validate n) <->
        exists t se,
          In t (tokens n) /\ isMissing t = true /\ shapeExp t = Some se /\
          se_e se = Some (err_message d) /\ err_message d <> [] /\
          err_line d = line t /\ err_col d = col t).
Proof.
  intros Hg Ha Ht.
  destruct (eat_empty_regexp lx1) as (t & lx2 & Heat & Hv & Hs & He & Hc & _).
  assert (Hstep : forall sc fc fe,
             AST_loop (ShapeExp_parse G fuel) K (g :: rest) i sc fc fe exps0 lx
             = AST_loop (ShapeExp_parse G fuel) K rest (S i) sc fc fe
                        (exps0 ++ [ETok (missing_token t g)]) lx2).
  { intros sc fc fe. cbn [AST_loop]. rewrite Hg. cbn [bind]. cbn zeta iota beta.
    rewrite Ha. pose proof Ht as Ht'. apply Nat.leb_le in Ht'. rewrite Ht'.
    cbn [andb]. rewrite Heat. reflexivity. }
  exists (missing_token t g), lx2.
  split; [apply Hstep|].
  cbn [missing_token value start end_ isMissing shapeExp line col].
  repeat (split; [assumption || reflexivity|]).
  split; [|exact validate_In].
  intros lx0 r lx' Hrun Hp. unfold AST_parse in Hp.
  destruct (@AST_loop_run_any _ K _ _ Hrun (cursor lx0) (cursor lx0) None)
    as (fc' & fe' & Eq).
  cbn [st_shape st_index st_exps st_lexer] in Eq.
  rewrite Eq, Hstep in Hp.
  apply (@AST_loop_incomplete_node _ K Ha) in Hp;
    [|rewrite content_count_app; lia].
  destruct Hp as (more & ->).
  exists (mkNode (kind_name K) ((exps0 ++ [ETok (missing_token t g)]) ++ more) None), more.
  split; [reflexivity|]. split; [reflexivity|].
  split; [cbn [exps]; now rewrite <- app_assoc|].
  split.
  - rewrite tokens_flat_map. cbn [exps]. apply in_flat_map.
    exists (ETok (missing_token t g)). split; [|now left].
    apply in_or_app. left. apply in_or_app. right. now left.
  - cbn [name]. rewrite validate_children, validate_children.
    rewrite <- app_assoc. f_equal. f_equal.
    rewrite validate_flat_map. cbn [tokens exps flat_map].
    unfold diagnostics_of. cbn [missing_token isMissing shapeExp line col].
    destruct (se_e g) as [[|c msg]|]; reflexivity.
Qed.

(** The statement of C5 at a concrete input: [$ADD_INCOMPLETE] on ["1+"]. *)
Lemma C5_missing_token_witness :
  let G := Samples.G in
  let K := Samples.ADD_INCOMPLETE in
  let first := Samples.one (VAst "$NUMBER"%string) (Some (Samples.S_ "+")) in
  let plus := Samples.one (VText (Samples.S_ "+")) None in
  let g := Samples.NUMBER_EXPECTED in
  let lx0 := Lexer_new (lit "1+") in
  let r1 := ShapeExp_parse G 5 first lx0 in
  let r2 := ShapeExp_parse G 5 plus (got_lexer r1) in
  let r3 := ShapeExp_parse G 5 g (got_lexer r2) in
  let exps0 := ([] ++ got_list r1) ++ got_list r2 in
  let r := AST_parse (ShapeExp_parse G 5) K lx0 in
  r3 = Ok (None, got_lexer r3) /\
  allowIncompleteParse K = true /\
  incompleteParseThreshold K <= content_count exps0 /\
  exists m n more,
    r = Ok (Some (ENode n), got_lexer r) /\
    exps n = exps0 ++ ETok m :: more /\
    value m = [] /\ start m = 2 /\ isMissing m = true /\
    shapeExp m = Some g /\ In m (tokens n) /\
    validate n
    = validate (mkNode (name n) exps0 None)
      ++ [mkASTError (line m) (col m) (lit "number expected")]
      ++ validate (mkNode (name n) more None).
Proof.
  intros G K first plus g lx0 r1 r2 r3 exps0 r.
  assert (E1 : r1 = Ok (Some (got_list r1), got_lexer r1))
    by (vm_compute; reflexivity).
  assert (E2 : r2 = Ok (Some (got_list r2), got_lexer r2))
    by (vm_compute; reflexivity).
  assert (E3 : r3 = Ok (None, got_lexer r3)) by (vm_compute; reflexivity).
  assert (Er : r = Ok (got_exp r, got_lexer r)) by (vm_compute; reflexivity).
  assert (Hc : incompleteParseThreshold K <= content_count exps0)
    by (vm_compute; lia).
  assert (Hrun : AST_run (ShapeExp_parse G 5) K
                   (mkState (SHAPE K) 0 [] lx0)
                   (mkState [g] 2 exps0 (got_lexer r2))).
  { exact (@run_success (ShapeExp_parse G 5) K first [plus; g] 0 [] lx0
             (got_list r1) (got_lexer r1) _ E1
             (@run_success (ShapeExp_parse G 5) K plus [g] 1 ([] ++ got_list r1)
                (got_lexer r1) (got_list r2) (got_lexer r2) _ E2
                (@run_here (ShapeExp_parse G 5) K
                   (mkState [g] 2 exps0 (got_lexer r2))))). }
  split; [exact E3|]. split; [reflexivity|]. split; [exact Hc|].
  destruct (@C5_missing_token G 5 K g [] 2 0 0 None exps0
              (got_lexer r2) (got_lexer r3) E3 eq_refl Hc)
    as (m & lx2 & _ & Hv & Hs & _ & Hm & Hse & _ & Hparse & _).
  destruct (Hparse lx0 (got_exp r) (got_lexer r) Hrun Er)
    as (n & more & Hn & _ & Hex & Hin & Hval).
  exists m, n, more.
  split; [rewrite Er at 1; now rewrite Hn|].
  split; [exact Hex|]. split; [exact Hv|].
  split; [rewrite Hs; reflexivity|]. split; [exact Hm|].
  split; [exact Hse|]. split; [exact Hin|exact Hval].
Defined.

(** Scenario 5 of the specification, on ["1+"]: the node has the children
    ["1"], ["+"] and a missing token, and [validate] reports one
    diagnostic, at line 0, col 2. *)
Example scenario_incomplete_parse :
  let r := parse Samples.G 5 Samples.ADD_INCOMPLETE (Lexer_new (lit "1+")) in
  match got_exp r with
  | Some (ENode n) =>
      map value (tokens n) = [lit "1"; lit "+"; []] /\
      map isMissing (tokens n) = [false; false; true] /\
      validate n = [mkASTError 0 2 (lit "number expected")]
  | _ => False
  end.
Proof. vm_compute. repeat split. Qed.

(** ** The left-recursive driver *)

(** One round of the loop: the right delimiter is seen and the tail
    parses; the fold has [$left] followed by the children of the tail. *)
Lemma LEFT_RECURSIVE_loop_fold (rec : parse_exp_t) (n : nat) (K : Kind)
    (first : ShapeExp) (tail : list ShapeExp) (leftCursor : nat) (l : exp)
    (lx : Lexer) (d : jstr) (lx1 : Lexer) (r : Node) (lx2 : Lexer) :
  taste (se_rightDelimeter first) lx = (Some d, lx1) ->
  AST_parse rec (RIGHT K tail) lx1 = Ok (Some (ENode r), lx2) ->
  LEFT_RECURSIVE_loop rec (S n) K first tail leftCursor (Some l) lx
  = LEFT_RECURSIVE_loop rec n K first tail leftCursor
      (Some (ENode (mkNode (kind_name K) (l :: exps r) None))) lx2.
Proof.
  intros Ht Hp. cbn [LEFT_RECURSIVE_loop]. rewrite Ht, Hp. reflexivity.
Qed.

(** A failing tail: the cursor goes to [leftCursor], which the driver set
    once, after the first expression. *)
Lemma LEFT_RECURSIVE_loop_tail_failure (rec : parse_exp_t) (n : nat) (K : Kind)
    (first : ShapeExp) (tail : list ShapeExp) (leftCursor : nat)
    (left_ : option exp) (lx : Lexer) (d : jstr) (lx1 lx2 : Lexer) :
  taste (se_rightDelimeter first) lx = (Some d, lx1) ->
  AST_parse rec (RIGHT K tail) lx1 = Ok (None, lx2) ->
  LEFT_RECURSIVE_loop rec (S n) K first tail leftCursor left_ lx
  = Ok (left_, set_cursor lx2 leftCursor).
Proof.
  intros Ht Hp. cbn [LEFT_RECURSIVE_loop]. rewrite Ht, Hp. reflexivity.
Qed.

(** C6 (evaluation): [$SUM.parse] on ["1+2+"].  The first fold succeeds
    and ends at cursor 3 (as on ["1+2"]); the second tail fails after the
    ["+"]; the driver returns the folded node of ["1+2"] with the cursor at
    1, the position after the first expression, not at 3. *)
Theorem C6_tail_failure_resets_to_first :
  let r := parse Samples.G 8 Samples.SUM (Lexer_new (lit "1+2+")) in
  let r0 := parse Samples.G 8 Samples.SUM (Lexer_new (lit "1+2")) in
  match got_exp r with
  | Some (ENode n) =>
      r = Ok (Some (ENode n), got_lexer r) /\
      r0 = Ok (Some (ENode n), got_lexer r0) /\
      map value (tokens n) = [lit "1"; lit "+"; lit "2"] /\
      cursor (got_lexer r0) = 3 /\
      cursor (got_lexer r) = 1
  | _ => False
  end.
Proof. vm_compute. repeat split. Qed.

(** Scenario 6 of the specification: ["1+2+3"] folds to the left. *)
Example scenario_left_recursive :
  let r := parse Samples.G 8 Samples.SUM (Lexer_new (lit "1+2+3")) in
  match got_exp r with
  | Some (ENode (mkNode outer [ENode (mkNode inner [a; b; c] _); d; e] _)) =>
      outer = "$SUM"%string /\ inner = "$SUM"%string /\
      map value (exp_tokens a ++ exp_tokens b ++ exp_tokens c
                 ++ exp_tokens d ++ exp_tokens e)
      = [lit "1"; lit "+"; lit "2"; lit "+"; lit "3"] /\
      cursor (got_lexer r) = 5
  | _ => False
  end.
Proof. vm_compute. repeat split. Qed.

(** ** Sub-shapes *)

(** C9 (as stated): the claim has a sub-shape whose first element is not a
    literal and succeeds, while a later element fails, still produce a
    result.  In [new Shape(["a", "b"], "+")] on ["a"] the alternation
    succeeds with the token ["a"], the ["+"] fails, and the sub-shape
    expression returns nothing, with the cursor back at 0. *)
Lemma C9_sub_shape_fails_cleanly :
  let rec := ShapeExp_parse Samples.G 5 in
  let first := Samples.one (VOption [Samples.one (VText (Samples.S_ "a"))
                                                 (Some (Samples.S_ "b"));
                                     Samples.one (VText (Samples.S_ "b")) None])
                           (Some (Samples.S_ "+")) in
  let plus := Samples.one (VText (Samples.S_ "+")) None in
  let lx := Lexer_new (lit "a") in
  let r1 := rec first lx in
  let r := ShapeExp_parse Samples.G 6 Samples.SUB_ALT_PLUS lx in
  se_value Samples.SUB_ALT_PLUS = VSubShape [first; plus] /\
  TEXT_EXP first = false /\
  r1 = Ok (Some (got_list r1), got_lexer r1) /\
  map value (flat_map exp_tokens (got_list r1)) = [lit "a"] /\
  rec plus (got_lexer r1) = Ok (None, got_lexer (rec plus (got_lexer r1))) /\
  r = Ok (None, got_lexer r) /\
  cursor (got_lexer r) = 0.
Proof. vm_compute. repeat split. Qed.

(** C9 (amended): the anonymous kind of a sub-shape has
    [fallbackToFirstExp = true] and [allowIncompleteParse = false].  When
    the first element of the sub-shape is not a literal or pattern and
    succeeds with the children [rs], leaving the scanner at [lx1], and a
    later element fails, the anonymous kind returns the first of [rs] with
    the cursor of [lx1]; the iteration of the sub-shape expression then has
    the children of that first child as its result when it is a node, and
    no result when it is a token or [rs] is empty. *)
Theorem C9_sub_shape_fallback (G : kind_id -> Kind) (fuel n : nat)
    (self first : ShapeExp) (rest : list ShapeExp) (lx : Lexer)
    (rs : list exp) (lx1 : Lexer) (g : ShapeExp) (rest' : list ShapeExp)
    (i : nat) (exps0 : list exp) (lxj lxj' : Lexer) :
  se_value self = VSubShape (first :: rest) ->
  TEXT_EXP first = false ->
  ShapeExp_parse G fuel first lx = Ok (Some rs, lx1) ->
  AST_run (ShapeExp_parse G fuel) (SUB_SHAPE_AST (first :: rest))
          (mkState rest 1 rs lx1) (mkState (g :: rest') i exps0 lxj) ->
  ShapeExp_parse G fuel g lxj = Ok (None, lxj') ->
  fallbackToFirstExp (SUB_SHAPE_AST (first :: rest)) = true /\
  allowIncompleteParse (SUB_SHAPE_AST (first :: rest)) = false /\
  AST_parse (ShapeExp_parse G fuel) (SUB_SHAPE_AST (first :: rest)) lx
  = Ok (hd_error rs, set_cursor lxj' (cursor lx1)) /\
  iteration_result G (ShapeExp_parse G fuel) n self lx
  = Ok (match hd_error rs with
        | Some (ENode a) => Some (RArray (exps a))
        | Some (ETok _) => None
        | None => None
        end, set_cursor lxj' (cursor lx1)).
Proof.
  intros Hv Ht Hf Hrun Hg.
  assert (Hp : AST_parse (ShapeExp_parse G fuel) (SUB_SHAPE_AST (first :: rest)) lx
               = Ok (hd_error rs, set_cursor lxj' (cursor lx1))).
  { unfold AST_parse. cbn [SHAPE SUB_SHAPE_AST AST_defaults].
    rewrite (@AST_loop_first _ _ first rest lx rs lx1 Ht Hf).
    pose proof (AST_loop_run Hrun (cursor lx) (cursor lx1) (hd_error rs) (le_n 1))
      as Hr.
    cbn [st_shape st_index st_exps st_lexer] in Hr. 
    cbn [SUB_SHAPE_AST AST_defaults] in Hr. rewrite Hr.
    now apply AST_loop_fallback. }
  split; [reflexivity|]. split; [reflexivity|]. split; [exact Hp|].
  unfold iteration_result. rewrite Hv, Hp. cbn [bind].
  destruct (hd_error rs) as [[t|a]|]; reflexivity.
Qed.

(** The statement of C9 at a concrete input. *)
Lemma C9_sub_shape_fallback_witness :
  let G := Samples.G in
  let first := Samples.one (VAst "$NUMBER"%string) (Some (Samples.S_ "+")) in
  let plus := Samples.one (VText (Samples.S_ "+")) None in
  let self := Samples.SUB_NUMBER_PLUS in
  let lx := Lexer_new (lit "1") in
  let r1 := ShapeExp_parse G 5 first lx in
  let r2 := ShapeExp_parse G 5 plus (got_lexer r1) in
  se_value self = VSubShape [first; plus] /\
  TEXT_EXP first = false /\
  r1 = Ok (Some (got_list r1), got_lexer r1) /\
  AST_run (ShapeExp_parse G 5) (SUB_SHAPE_AST [first; plus])
          (mkState [plus] 1 (got_list r1) (got_lexer r1))
          (mkState [plus] 1 (got_list r1) (got_lexer r1)) /\
  r2 = Ok (None, got_lexer r2) /\
  iteration_result G (ShapeExp_parse G 5) 5 self lx
  = Ok (match hd_error (got_list r1) with
        | Some (ENode a) => Some (RArray (exps a))
        | Some (ETok _) => None
        | None => None
        end, set_cursor (got_lexer r2) (cursor (got_lexer r1))).
Proof.
  intros G first plus self lx r1 r2.
  assert (E1 : r1 = Ok (Some (got_list r1), got_lexer r1))
    by (vm_compute; reflexivity).
  assert (E2 : r2 = Ok (None, got_lexer r2)) by (vm_compute; reflexivity).
  assert (Hrun : AST_run (ShapeExp_parse G 5) (SUB_SHAPE_AST [first; plus])
                   (mkState [plus] 1 (got_list r1) (got_lexer r1))
                   (mkState [plus] 1 (got_list r1) (got_lexer r1)))
    by apply run_here.
  split; [reflexivity|]. split; [reflexivity|]. split; [exact E1|].
  split; [exact Hrun|]. split; [exact E2|].
  exact (proj2 (proj2 (proj2
    (@C9_sub_shape_fallback G 5 5 self first [plus] lx (got_list r1)
       (got_lexer r1) plus [] 1 (got_list r1) (got_lexer r1)
       (got_lexer r2) eq_refl eq_refl E1 Hrun E2)))).
Defined.

(** ** White space and missing tokens *)

Lemma trimStart_nil (s : jstr) :
  trimStart s = [] <-> forallb is_js_space s = true.
Proof.
  induction s as [|c s IH]; simpl; [tauto|].
  destruct (is_js_space c); simpl; [exact IH|]. split; discriminate.
Qed.

Lemma trimStart_forallb (s : jstr) :
  forallb is_js_space s = false -> forallb is_js_space (trimStart s) = false.
Proof.
  induction s as [|c s IH]; simpl; [discriminate|].
  destruct (is_js_space c) eqn:E; simpl; [exact IH|].
  intros _. now rewrite E.
Qed.

Lemma forallb_rev (A : Type) (f : A -> bool) (l : list A) :
  forallb f (rev l) = forallb f l.
Proof.
  induction l as [|x l IH]; simpl; [reflexivity|].
  rewrite forallb_app, IH. simpl. rewrite andb_true_r. apply andb_comm.
Qed.

(** [s.trim()] is empty exactly when every code unit of [s] is white
    space. *)
Lemma trim_nil (s : jstr) :
  trim s = [] <-> forallb is_js_space s = true.
Proof.
  unfold trim, trimEnd. split.
  - intros H. destruct (forallb is_js_space s) eqn:E; [reflexivity|].
    apply trimStart_forallb in E.
    rewrite <- forallb_rev in E. apply trimStart_forallb in E.
    rewrite <- forallb_rev, H in E. discriminate.
  - intros H. apply trimStart_nil in H. rewrite H. reflexivity.
Qed.

Lemma isWhiteSpace_forallb (t : Token) :
  isWhiteSpace t = true <-> forallb is_js_space (value t) = true.
Proof.
  unfold isWhiteSpace. rewrite <- trim_nil. rewrite Nat.eqb_eq.
  split; [apply length_zero_iff_nil|intros ->; reflexivity].
Qed.

Lemma node_ok (nm : string) (l : list exp) (s : option ShapeExp) :
  Forall exp_ok l <-> exp_ok (ENode (mkNode nm l s)).
Proof.
  unfold exp_ok at 2. cbn [exp_tokens]. rewrite tokens_flat_map. cbn [exps].
  rewrite Forall_forall. split.
  - intros H t Hin. apply in_flat_map in Hin. destruct Hin as (e & He & Ht).
    exact (H e He t Ht).
  - intros H e He t Ht. apply H. apply in_flat_map. eauto.
Qed.

Lemma exps_ok (n : Node) : exp_ok (ENode n) -> Forall exp_ok (exps n).
Proof. destruct n as [nm l s]. apply node_ok. Qed.

Lemma eaten_token_ok (p : pattern) (lx : Lexer) (t : Token) (lx' : Lexer) :
  eat (Some p) lx = (Some t, lx') -> exp_ok (ETok t).
Proof.
  intros H. apply eat_token in H. destruct H as (v & lx1 & _ & H).
  cbv zeta in H. destruct H as (_ & _ & _ & _ & _ & _ & Hm & _).
  intros t' [<-|[]] Hmiss. congruence.
Qed.

Lemma missing_token_ok (lx : Lexer) (t : Token) (lx' : Lexer) (g : ShapeExp) :
  eat (Some (PRe RegExp_empty)) lx = (Some t, lx') ->
  exp_ok (ETok (missing_token t g)).
Proof.
  intros H. destruct (eat_empty_regexp lx) as (t0 & lx0 & E & Hv & _).
  rewrite E in H. injection H as <- <-.
  intros t' [<-|[]] _. exact Hv.
Qed.

Lemma set_shapeExp_ok (self : ShapeExp) (e : exp) :
  exp_ok e -> exp_ok (set_shapeExp self e).
Proof.
  destruct e as [t|n]; cbn [set_shapeExp].
  - intros H t' [<-|[]] Hm. cbn [value isMissing] in *.
    apply (H t); [now left|exact Hm].
  - intros H. apply node_ok. now apply exps_ok.
Qed.

Lemma hd_error_ok (l : list exp) (e : exp) :
  Forall exp_ok l -> hd_error l = Some e -> exp_ok e.
Proof.
  intros H He. apply hd_error_In in He. rewrite Forall_forall in H. auto.
Qed.

Lemma eat_whitespace_ok (fuel : nat) :
  forall results lx rs lx',
    Forall exp_ok results ->
    eat_whitespace fuel results lx = (rs, lx') -> Forall exp_ok rs.
Proof.
  induction fuel as [|f IH]; intros results lx rs lx' Hok H;
    rewrite eat_whitespace_eq in H;
    destruct (eat (Some (PRe WHITESPACE_REGEX)) lx) as [[t|] lx1] eqn:E.
  - injection H as <- <-. apply Forall_app. split; [exact Hok|].
    constructor; [|constructor]. eapply eaten_token_ok; eauto.
  - injection H as <- <-. exact Hok.
  - apply IH in H; [exact H|]. apply Forall_app. split; [exact Hok|].
    constructor; [|constructor]. eapply eaten_token_ok; eauto.
  - injection H as <- <-. exact Hok.
Qed.

Section Missing.

Variable G : kind_id -> Kind.
Variable rec : parse_exp_t.
Hypothesis rec_sound : sound rec.

Lemma AST_loop_ok (K : Kind) (shape : list ShapeExp) :
  forall shapeIndex startCursor firstExpCursor firstExp exps lx e lx',
    Forall exp_ok exps ->
    (forall x, firstExp = Some x -> exp_ok x) ->
    AST_loop rec K shape shapeIndex startCursor firstExpCursor firstExp exps lx
      = Ok (Some e, lx') ->
    exp_ok e.
Proof.
  induction shape as [|g rest IH];
    intros shapeIndex sc fc fe exps lx e lx' Hok Hfe H; cbn [AST_loop] in H.
  - injection H as <- <-. now apply node_ok.
  - bind_inv H E. destruct r as [rs|].
    + apply rec_sound in E.
      apply IH in H; [exact H| |].
      * apply Forall_app. auto.
      * intros x. destruct (negb (TEXT_EXP g) && (shapeIndex =? 0)).
        -- now apply hd_error_ok.
        -- apply Hfe.
    + cbn zeta iota beta in H.
      destruct (allowIncompleteParse K && (incompleteParseThreshold K <=? content_count exps)).
      * destruct (eat (Some (PRe RegExp_empty)) lx0) as [[t|] lx2] eqn:Ee;
          [|discriminate].
        apply IH in H; [exact H| |exact Hfe].
        apply Forall_app. split; [exact Hok|].
        constructor; [|constructor]. eapply missing_token_ok; eauto.
      * destruct (fallbackToFirstExp K); [|discriminate].
        injection H as -> <-. now apply Hfe.
Qed.

Lemma AST_parse_ok (K : Kind) (lx : Lexer) (e : exp) (lx' : Lexer) :
  AST_parse rec K lx = Ok (Some e, lx') -> exp_ok e.
Proof.
  unfold AST_parse. apply AST_loop_ok; [constructor|discriminate].
Qed.

Lemma LEFT_RECURSIVE_loop_ok (K : Kind) (first : ShapeExp) (tail : list ShapeExp)
    (leftCursor : nat) :
  forall n left_ lx e lx',
    (forall x, left_ = Some x -> exp_ok x) ->
    LEFT_RECURSIVE_loop rec n K first tail leftCursor left_ lx = Ok (Some e, lx') ->
    exp_ok e.
Proof.
  induction n as [|n IH]; intros left_ lx e lx' Hl H;
    cbn [LEFT_RECURSIVE_loop] in H; [discriminate|].
  destruct (taste (se_rightDelimeter first) lx) as [[d|] lx1].
  - bind_inv H E. destruct r as [[t|rn]|].
    + discriminate.
    + destruct left_ as [l|]; [|discriminate].
      apply AST_parse_ok in E. apply IH in H; [exact H|].
      intros x Hx. injection Hx as <-. apply node_ok.
      constructor; [now apply Hl|now apply exps_ok].
    + injection H as -> <-. now apply Hl.
  - injection H as -> <-. now apply Hl.
Qed.

Lemma Kind_parse_ok (n : nat) (K : Kind) (lx : Lexer) (e : exp) (lx' : Lexer) :
  Kind_parse rec n K lx = Ok (Some e, lx') -> exp_ok e.
Proof.
  unfold Kind_parse, AST_LEFT_RECURSIVE_parse. destruct (driver K).
  - apply AST_parse_ok.
  - destruct (SHAPE K) as [|first tail]; [discriminate|].
    intros H. bind_inv H E. destruct r as [rs|]; [|discriminate].
    apply rec_sound in E. apply LEFT_RECURSIVE_loop_ok in H; [exact H|].
    intros x. now apply hd_error_ok.
Qed.

Lemma OPTION_loop_ok (opts : list ShapeExp) :
  forall lx r lx', OPTION_loop rec opts lx = Ok (Some r, lx') -> result_ok r.
Proof.
  induction opts as [|o rest IH]; intros lx r lx' H; cbn [OPTION_loop] in H.
  - discriminate.
  - bind_inv H E. destruct r0 as [l|].
    + injection H as <- <-. now apply rec_sound in E.
    + now apply IH in H.
Qed.

Lemma iteration_result_ok (n : nat) (self : ShapeExp) (lx : Lexer)
    (r : result) (lx' : Lexer) :
  iteration_result G rec n self lx = Ok (Some r, lx') -> result_ok r.
Proof.
  assert (Hast : forall k, AST_EXP_result G rec n k lx = Ok (Some r, lx') ->
                           result_ok r).
  { intros k. unfold AST_EXP_result.
    assert (Hcall : forall lx0,
               bind (Kind_parse rec n (G k) lx0)
                    (fun '(r0, lx1) => Ok (option_map RSingle r0, lx1))
               = Ok (Some r, lx') -> result_ok r).
    { intros lx0 H. bind_inv H E. destruct r0 as [e|]; [|discriminate].
      injection H as <- <-. now apply Kind_parse_ok in E. }
    destruct (SHAPE (G k)) as [|f tl]; [apply Hcall|].
    destruct (se_value f); try apply Hcall.
    destruct (taste (Some p) lx) as [[v|] lx1]; [apply Hcall|discriminate]. }
  unfold iteration_result. destruct (se_value self) as [p|k|opts|shape|k].
  - destruct (eat (Some p) lx) as [[t|] lx1] eqn:E; intros H; [|discriminate].
    injection H as <- <-. eapply eaten_token_ok; eauto.
  - apply Hast.
  - apply OPTION_loop_ok.
  - intros H. bind_inv H E. destruct r0 as [[t|a]|]; try discriminate.
    injection H as <- <-. apply AST_parse_ok in E. now apply exps_ok.
  - apply Hast.
Qed.

Lemma ShapeExp_loop_ok (self : ShapeExp) (startCursor : nat) :
  forall n expIndex results lx rs lx',
    Forall exp_ok results ->
    ShapeExp_loop G rec n self startCursor expIndex results lx = Ok (Some rs, lx') ->
    Forall exp_ok rs.
Proof.
  induction n as [|n IH]; intros expIndex results lx rs lx' Hok H;
    cbn [ShapeExp_loop] in H; [discriminate|].
  destruct (lt_max expIndex (se_max self)).
  2:{ injection H as <- <-. exact Hok. }
  destruct (taste (se_rightDelimeter self) lx) as [d lx0].
  destruct (match d with None => true | Some _ => false end || (expIndex =? 0)).
  2:{ injection H as <- <-. exact Hok. }
  destruct (eat_whitespace (length (str lx0)) results lx0) as [results1 lx1] eqn:Ew.
  apply eat_whitespace_ok in Ew; [|exact Hok].
  bind_inv H E. destruct r as [res|].
  - apply iteration_result_ok in E. apply IH in H; [exact H|].
    destruct res as [e|l]; cbn [push_result]; apply Forall_app; split; trivial.
    constructor; [|constructor]. now apply set_shapeExp_ok.
  - destruct (se_min self <=? expIndex); [|discriminate].
    injection H as <- <-. exact Ew.
Qed.

End Missing.

Lemma ShapeExp_parse_sound (G : kind_id -> Kind) (fuel : nat) :
  sound (ShapeExp_parse G fuel).
Proof.
  induction fuel as [|f IH]; intros se lx rs lx' H; cbn [ShapeExp_parse] in H;
    [discriminate|].
  eapply ShapeExp_loop_ok in H; [exact H|exact IH|constructor].
Qed.

(** Every token flagged [isMissing] below a parse result has an empty
    value. *)
Lemma parse_missing_empty (G : kind_id -> Kind) (fuel : nat) (K : Kind)
    (lx : Lexer) (e : exp) (lx' : Lexer) :
  parse G fuel K lx = Ok (Some e, lx') -> exp_ok e.
Proof. apply Kind_parse_ok, ShapeExp_parse_sound. Qed.

(** C10: a token is white space exactly when its value holds no
    non-white-space code unit; every token flagged [isMissing] below the
    result of a parse has an empty value, so it is white space, it is in
    the [contentExps] and the [contentTokens] of no node, and it adds
    nothing to the content-children count that later shape positions
    compare with [incompleteParseThreshold]. *)
Theorem C10_missing_tokens_are_whitespace (G : kind_id -> Kind) (fuel : nat)
    (K : Kind) (lx : Lexer) (e : exp) (lx' : Lexer) (t : Token) :
  parse G fuel K lx = Ok (Some e, lx') ->
  In t (exp_tokens e) ->
  isMissing t = true ->
  (forall t', isWhiteSpace t' = true <-> forallb is_js_space (value t') = true) /\
  value t = [] /\
  isWhiteSpace t = true /\
  (forall n, ~ In (ETok t) (contentExps n)) /\
  (forall n, ~ In t (contentTokens n)) /\
  (forall l1 l2, content_count (l1 ++ ETok t :: l2) = content_count (l1 ++ l2)).
Proof.
  intros Hp Hin Hm.
  assert (Hv : value t = []) by (exact (parse_missing_empty _ _ _ _ Hp t Hin Hm)).
  assert (Hw : isWhiteSpace t = true) by (unfold isWhiteSpace; now rewrite Hv).
  split; [exact isWhiteSpace_forallb|]. split; [exact Hv|]. split; [exact Hw|].
  split; [|split].
  - intros n Hc. unfold contentExps in Hc. apply filter_In in Hc.
    destruct Hc as [_ Hc]. rewrite Hw in Hc. discriminate.
  - intros n Hc. unfold contentTokens in Hc. apply filter_In in Hc.
    destruct Hc as [_ Hc]. rewrite Hw in Hc. discriminate.
  - intros l1 l2. rewrite !content_count_app.
    change (ETok t :: l2) with ([ETok t] ++ l2). rewrite content_count_app.
    unfold content_count at 2. cbn [filter]. rewrite Hv. reflexivity.
Qed.

(** The statement of C10 at a concrete input. *)
Lemma C10_missing_tokens_are_whitespace_witness :
  let r := parse Samples.G 5 Samples.ADD_INCOMPLETE (Lexer_new (lit "1+")) in
  let e := match got_exp r with
           | Some e => e
           | None => ETok (mkToken (PStr []) [] 0 0 0 0 0 false None)
           end in
  let t := nth 2 (exp_tokens e) (mkToken (PStr []) [] 0 0 0 0 0 false None) in
  r = Ok (Some e, got_lexer r) /\
  In t (exp_tokens e) /\
  isMissing t = true /\
  value t = [] /\ isWhiteSpace t = true /\
  (forall n, ~ In t (contentTokens n)).
Proof.
  intros r e t.
  assert (E : r = Ok (Some e, got_lexer r)) by (vm_compute; reflexivity).
  assert (Hin : In t (exp_tokens e)).
  { apply nth_In. vm_compute. lia. }
  assert (Hm : isMissing t = true) by (vm_compute; reflexivity).
  split; [exact E|]. split; [exact Hin|]. split; [exact Hm|].
  destruct (@C10_missing_tokens_are_whitespace Samples.G 5 Samples.ADD_INCOMPLETE
              (Lexer_new (lit "1+")) e (got_lexer r) t E Hin Hm)
    as (_ & Hv & Hw & _ & Hct & _).
  split; [exact Hv|]. split; [exact Hw|exact Hct].
Defined.

(** ** Binary search in general *)

Lemma binarySearch_loop_sound (A : Type) (f : A -> Z) (l : list A) :
  forall fuel low high,
    (0 <= low)%Z ->
    binarySearch_loop f fuel l low high = (-1)%Z \/
    exists i x,
      binarySearch_loop f fuel l low high = Z.of_nat i /\
      nth_error l i = Some x /\ f x = 0%Z.
Proof.
  induction fuel as [|n IH]; intros low high Hlow; simpl; [now left|].
  destruct (low <=? high)%Z eqn:Elh; [|now left].
  apply Z.leb_le in Elh.
  assert (Hmid : (low <= (low + high) / 2)%Z)
    by (apply Z.div_le_lower_bound; lia).
  destruct (nth_error l (Z.to_nat ((low + high) / 2))) as [x|] eqn:Ex; [|now left].
  destruct (f x =? 0)%Z eqn:E0.
  - right. exists (Z.to_nat ((low + high) / 2)), x.
    apply Z.eqb_eq in E0. rewrite Z2Nat.id by lia. auto.
  - destruct (f x <? 0)%Z; apply IH; lia.
Qed.

(** [binarySearch] answers [-1] or the index of an element on which the
    callback is [0]; on the empty array it answers [-1]. *)
Theorem binarySearch_sound (A : Type) (f : A -> Z) (l : list A) :
  (binarySearch f l = (-1)%Z \/
   exists i x, binarySearch f l = Z.of_nat i /\
               nth_error l i = Some x /\ f x = 0%Z) /\
  binarySearch f (@nil A) = (-1)%Z.
Proof.
  split; [|reflexivity]. unfold binarySearch.
  apply binarySearch_loop_sound. lia.
Qed.

(** The budget [length + 1] of the loop is never what ends it: with any
    larger budget the answer is the same. *)
Lemma binarySearch_loop_budget (A : Type) (f : A -> Z) (l : list A) :
  forall fuel fuel' low high,
    (0 <= low)%Z -> (high < Z.of_nat (length l))%Z ->
    (high - low < Z.of_nat fuel)%Z -> (high - low < Z.of_nat fuel')%Z ->
    binarySearch_loop f fuel l low high = binarySearch_loop f fuel' l low high.
Proof.
  induction fuel as [|n IH]; intros fuel' low high H0 H1 H2 H3.
  - destruct fuel' as [|n']; [reflexivity|]. simpl.
    destruct (low <=? high)%Z eqn:E; [apply Z.leb_le in E; lia|reflexivity].
  - destruct fuel' as [|n'].
    + simpl. destruct (low <=? high)%Z eqn:E; [apply Z.leb_le in E; lia|reflexivity].
    + simpl. destruct (low <=? high)%Z eqn:E; [|reflexivity].
      apply Z.leb_le in E.
      assert (Hmid : (low <= (low + high) / 2 <= high)%Z).
      { split; [apply Z.div_le_lower_bound|apply Z.div_le_upper_bound]; lia. }
      destruct (nth_error l (Z.to_nat ((low + high) / 2))) as [x|]; [|reflexivity].
      destruct (f x =? 0)%Z; [reflexivity|].
      destruct (f x <? 0)%Z; apply IH; lia.
Qed.

(** When the callback is positive before some index [i], zero at [i] and
    negative after it (the array is sorted for the callback),
    [binarySearch] answers [i]. *)
Theorem binarySearch_sorted (A : Type) (f : A -> Z) (l : list A) (i : nat) :
  i < length l ->
  (forall j x, nth_error l j = Some x ->
               (j < i -> (0 < f x)%Z) /\ (j = i -> f x = 0%Z) /\ (i < j -> (f x < 0)%Z)) ->
  binarySearch f l = Z.of_nat i.
Proof. intros Hi Hf. now apply binarySearch_finds. Qed.

(** The test file: looking for 3 in [1..5]. *)
Lemma binarySearch_sorted_witness :
  let l := [1; 2; 3; 4; 5]%Z in
  let f := fun x => (3 - x)%Z in
  2 < length l /\
  (forall j x, nth_error l j = Some x ->
               (j < 2 -> (0 < f x)%Z) /\ (j = 2 -> f x = 0%Z) /\ (2 < j -> (f x < 0)%Z)) /\
  binarySearch f l = 2%Z.
Proof.
  intros l f.
  assert (H1 : 2 < length l) by (simpl; lia).
  assert (H2 : forall j x, nth_error l j = Some x ->
               (j < 2 -> (0 < f x)%Z) /\ (j = 2 -> f x = 0%Z) /\ (2 < j -> (f x < 0)%Z)).
  { intros j x Hj. unfold f.
    do 5 (destruct j as [|j]; [injection Hj as <-; repeat split; intros; lia|]).
    destruct j; discriminate. }
  split; [exact H1|]. split; [exact H2|].
  exact (@binarySearch_sorted Z f l 2 H1 H2).
Defined.

(** ** The line table, continued *)

Lemma lineOffsets_from_end (s : jstr) :
  forall b a e, In (a, e) (lineOffsets_from b (split_nl s)) -> e <= b + length s.
Proof.
  induction s as [|x s IH]; intros b a e Hin.
  - simpl in Hin. destruct Hin as [H|[]]. injection H as <- <-. simpl. lia.
  - simpl split_nl in Hin. destruct (is_nl x).
    + simpl in Hin. destruct Hin as [H|Hin].
      * injection H as <- <-. simpl. lia.
      * apply IH in Hin. simpl. lia.
    + destruct (split_nl_cons s) as (l & ls & E). rewrite E in *.
      simpl in Hin. destruct Hin as [H|Hin].
      * injection H as <- <-.
        assert (Hl : In (b + 1, b + 1 + length l) (lineOffsets_from (b + 1) (l :: ls)))
          by (simpl; now left).
        apply IH in Hl. simpl. lia.
      * assert (Hl : In (a, e) (lineOffsets_from (b + 1) (l :: ls))).
        { simpl. right.
          replace (b + 1 + length l + 1) with (b + S (length l) + 1) by lia.
          exact Hin. }
        apply IH in Hl. simpl. lia.
Qed.

Lemma binarySearch_none (A : Type) (f : A -> Z) (l : list A) :
  (forall x, In x l -> f x <> 0%Z) -> binarySearch f l = (-1)%Z.
Proof.
  intros H. unfold binarySearch.
  destruct (@binarySearch_loop_sound A f l (S (length l)) 0
              (Z.of_nat (length l) - 1) (Z.le_refl 0)) as [E|(i & x & _ & Hx & H0)];
    [exact E|].
  apply nth_error_In in Hx. apply H in Hx. contradiction.
Qed.

(** Line-search consistency: at a cursor inside the input (its end
    included) [currentLine] is the index of a line of the table whose
    [start..end] interval holds the cursor, so [lineStart(currentLine) <=
    cursor <= lineEnd(currentLine)]; at a cursor past the end of the input
    [currentLine] is [-1]. *)
Theorem currentLine_consistent (lx : Lexer) :
  (cursor lx <= length (str lx) ->
   exists i, currentLine lx = Z.of_nat i /\ i < length (lines lx) /\
             lineStart lx i <= cursor lx /\ cursor lx <= lineEnd lx i) /\
  (length (str lx) < cursor lx -> currentLine lx = (-1)%Z).
Proof.
  split.
  - intros Hc.
    destruct (currentLine_at lx Hc) as (i & st & en & Hbs & Hn & H1 & H2 & _).
    exists i. split; [exact Hbs|].
    assert (Hi : i < length (lines lx)).
    { unfold lineOffsets in Hn. rewrite <- (lineOffsets_from_length (lines lx) 0).
      apply nth_error_Some. congruence. }
    split; [exact Hi|].
    rewrite (lineStart_nth _ _ Hn).
    unfold lineEnd, clamp_line.
    destruct (length (lines lx) <=? i) eqn:E; [apply Nat.leb_le in E; lia|].
    erewrite nth_error_nth; [|exact Hn]. simpl. lia.
  - intros Hc. unfold currentLine. apply binarySearch_none.
    intros [a e] Hin. unfold lineOffsets, lines in Hin.
    apply lineOffsets_from_end in Hin. unfold line_cmp.
    destruct (cursor lx <? a); [discriminate|].
    destruct (e <? cursor lx) eqn:E; [discriminate|].
    apply Nat.ltb_ge in E. lia.
Qed.

Lemma currentLine_consistent_witness :
  let lx := set_cursor (Lexer_new (lit "ab" ++ [NL] ++ lit "cd")) 4 in
  cursor lx <= length (str lx) /\
  exists i, currentLine lx = Z.of_nat i /\ i < length (lines lx) /\
            lineStart lx i <= cursor lx /\ cursor lx <= lineEnd lx i.
Proof.
  intros lx.
  assert (H : cursor lx <= length (str lx)) by (vm_compute; lia).
  split; [exact H|].
  exact (proj1 (currentLine_consistent lx) H).
Defined.

(** The shape of the line table: there is one line more than there are
    newlines in the input; the first line starts at 0; each next line
    starts one past the end of the line before it; the last line ends at
    the length of the input. *)
Lemma lineOffsets_from_structure (s : jstr) :
  forall b,
    length (split_nl s) = S (count_occ ascii_dec s NL) /\
    (exists e, nth_error (lineOffsets_from b (split_nl s)) 0 = Some (b, e)) /\
    (forall i a e a' e',
        nth_error (lineOffsets_from b (split_nl s)) i = Some (a, e) ->
        nth_error (lineOffsets_from b (split_nl s)) (S i) = Some (a', e') ->
        a' = e + 1) /\
    (exists a, nth_error (lineOffsets_from b (split_nl s)) (length (split_nl s) - 1)
               = Some (a, b + length s)).
Proof.
  induction s as [|x s IH]; intros b.
  - simpl. split; [reflexivity|]. split; [eauto|]. split.
    + intros i a e a' e' _ H. destruct i; discriminate.
    + exists b. now rewrite Nat.add_0_r.
  - simpl split_nl. unfold is_nl.
    destruct (Ascii.eqb x NL) eqn:Ex.
    + apply Ascii.eqb_eq in Ex. subst x.
      destruct (IH (b + 0 + 1)) as (Hlen & (e0 & H0) & Hstep & (al & Hlast)).
      split; [|split; [|split]].
      * simpl length. rewrite Hlen. simpl.
        destruct (ascii_dec NL NL); [reflexivity|contradiction].
      * simpl. eauto.
      * intros i a e a' e' Hi Hsi. simpl in Hi, Hsi.
        destruct i as [|i]; simpl in Hi.
        -- injection Hi as <- <-. rewrite H0 in Hsi. injection Hsi as <- _. lia.
        -- eapply Hstep; eauto.
      * exists al. simpl length. rewrite Nat.sub_succ, Nat.sub_0_r.
        destruct (split_nl_cons s) as (l & ls & E). rewrite E in *.
        simpl length in *. rewrite Nat.sub_succ, Nat.sub_0_r in Hlast.
        simpl. simpl in Hlast.
        replace (b + S (length s)) with (b + 0 + 1 + length s) by lia.
        exact Hlast.
    + assert (Hne : x <> NL) by (intros ->; rewrite Ascii.eqb_refl in Ex; discriminate).
      destruct (IH (b + 1)) as (Hlen & (e0 & H0) & Hstep & (al & Hlast)).
      destruct (split_nl_cons s) as (l & ls & E). rewrite E in *.
      split; [|split; [|split]].
      * simpl length in *. rewrite Hlen. simpl.
        destruct (ascii_dec x NL); [contradiction|reflexivity].
      * simpl. eauto.
      * intros i a e a' e' Hi Hsi.
        assert (Htl : forall k, nth_error (lineOffsets_from b ((x :: l) :: ls)) (S k)
                                = nth_error (lineOffsets_from (b + 1) (l :: ls)) (S k)).
        { intros k. simpl.
          replace (b + S (length l) + 1) with (b + 1 + length l + 1) by lia.
          reflexivity. }
        rewrite Htl in Hsi.
        destruct i as [|i].
        -- simpl in Hi. injection Hi as <- <-.
           assert (H1 : nth_error (lineOffsets_from (b + 1) (l :: ls)) 0
                        = Some (b + 1, b + 1 + length l)) by reflexivity.
           pose proof (Hstep 0 _ _ _ _ H1 Hsi). lia.
        -- rewrite Htl in Hi. eapply Hstep; eauto.
      * simpl length in *. rewrite Nat.sub_succ, Nat.sub_0_r in *.
        destruct ls as [|l2 ls].
        -- simpl in *. injection Hlast as <- Hl. exists b.
           f_equal. f_equal. lia.
        -- exists al. simpl length in *.
           change (nth_error (lineOffsets_from b ((x :: l) :: l2 :: ls)) (S (length ls)))
             with (nth_error (lineOffsets_from (b + S (length l) + 1) (l2 :: ls)) (length ls)).
           change (nth_error (lineOffsets_from (b + 1) (l :: l2 :: ls)) (S (length ls)))
             with (nth_error (lineOffsets_from (b + 1 + length l + 1) (l2 :: ls)) (length ls))
             in Hlast.
           replace (b + S (length l) + 1) with (b + 1 + length l + 1) by lia.
           replace (b + S (length s)) with (b + 1 + length s) by lia.
           exact Hlast.
Qed.

(** The line table of a scanner: one line more than there are newlines
    in the input, one pair of offsets per line, the first line starting at
    0, each next line one past the end of the line before it, the last
    line ending at the length of the input. *)
Theorem lineOffsets_structure (lx : Lexer) :
  length (lines lx) = S (count_occ ascii_dec (str lx) NL) /\
  length (lineOffsets lx) = length (lines lx) /\
  lineStart lx 0 = 0 /\
  (forall i, S i < length (lines lx) -> lineStart lx (S i) = lineEnd lx i + 1) /\
  lineEnd lx (length (lines lx) - 1) = length (str lx).
Proof.
  destruct (lineOffsets_from_structure (str lx) 0)
    as (Hlen & (e0 & H0) & Hstep & (al & Hlast)).
  fold (lines lx) in *. fold (lineOffsets lx) in *.
  assert (Hlo : length (lineOffsets lx) = length (lines lx))
    by apply lineOffsets_from_length.
  split; [exact Hlen|]. split; [exact Hlo|]. split; [|split].
  - now rewrite (lineStart_nth _ _ H0).
  - intros i Hi.
    destruct (nth_error (lineOffsets lx) i) as [[a e]|] eqn:Ei.
    2:{ apply nth_error_None in Ei. lia. }
    destruct (nth_error (lineOffsets lx) (S i)) as [[a' e']|] eqn:Esi.
    2:{ apply nth_error_None in Esi. lia. }
    rewrite (lineStart_nth _ _ Esi).
    unfold lineEnd, clamp_line.
    destruct (length (lines lx) <=? i) eqn:E; [apply Nat.leb_le in E; lia|].
    erewrite nth_error_nth; [|exact Ei]. simpl. eapply Hstep; eauto.
  - unfold lineEnd, clamp_line.
    destruct (length (lines lx) <=? length (lines lx) - 1) eqn:E.
    + apply Nat.leb_le in E. lia.
    + erewrite nth_error_nth; [|exact Hlast]. reflexivity.
Qed.

(** [split] and [join] invert each other on the input: the lines joined
    by newlines give the input back, and no line holds a newline. *)
Theorem lines_join (lx : Lexer) :
  join_nl (lines lx) = str lx /\
  Forall (fun l => ~ In NL l) (lines lx).
Proof.
  unfold lines. induction (str lx) as [|x s [IH1 IH2]].
  - simpl. split; [reflexivity|]. constructor; [tauto|constructor].
  - simpl split_nl. unfold is_nl. destruct (Ascii.eqb x NL) eqn:Ex.
    + apply Ascii.eqb_eq in Ex. subst x.
      destruct (split_nl_cons s) as (l & ls & E). rewrite E in *.
      split.
      * change (join_nl ([] :: l :: ls)) with ([] ++ NL :: join_nl (l :: ls)).
        rewrite IH1. reflexivity.
      * constructor; [tauto|exact IH2].
    + assert (Hne : x <> NL) by (intros ->; rewrite Ascii.eqb_refl in Ex; discriminate).
      destruct (split_nl_cons s) as (l & ls & E). rewrite E in *.
      split.
      * rewrite <- IH1. destruct ls; reflexivity.
      * inversion IH2 as [|? ? Hl Hls]; subst.
        constructor; [|exact Hls].
        intros [H|H]; [congruence|contradiction].
Qed.

(** ** [linesInRange] *)

Lemma linesInRange_from_In (offs : list (nat * nat)) (a b : nat) :
  forall k i,
    In i (linesInRange_from k offs a b) <->
    exists j s e, i = k + j /\ nth_error offs j = Some (s, e) /\ s <= b /\ a <= e.
Proof.
  induction offs as [|[s0 e0] offs IH]; intros k i; simpl.
  - split; [contradiction|]. intros (j & s & e & _ & H & _). destruct j; discriminate.
  - destruct ((s0 <=? b) && (a <=? e0)) eqn:E.
    + apply andb_true_iff in E. destruct E as [E1 E2].
      apply Nat.leb_le in E1. apply Nat.leb_le in E2.
      simpl. rewrite IH. split.
      * intros [<-|(j & s & e & -> & Hn & H1 & H2)].
        -- exists 0, s0, e0. repeat split; auto; lia.
        -- exists (S j), s, e. repeat split; auto; lia.
      * intros (j & s & e & -> & Hn & H1 & H2). destruct j as [|j].
        -- left. lia.
        -- right. exists j, s, e. repeat split; auto; lia.
    + rewrite IH. split.
      * intros (j & s & e & -> & Hn & H1 & H2).
        exists (S j), s, e. repeat split; auto; lia.
      * intros (j & s & e & -> & Hn & H1 & H2). destruct j as [|j].
        -- simpl in Hn. injection Hn as <- <-.
           apply andb_false_iff in E.
           destruct E as [E|E]; apply Nat.leb_gt in E; lia.
        -- exists j, s, e. repeat split; auto; lia.
Qed.

Lemma linesInRange_from_point (ls : list jstr) :
  forall b k i st en c,
    nth_error (lineOffsets_from b ls) i = Some (st, en) ->
    st <= c -> c <= en ->
    linesInRange_from k (lineOffsets_from b ls) c c = [k + i].
Proof.
  induction ls as [|l ls IH]; intros b k i st en c Hn H1 H2.
  - destruct i; discriminate.
  - simpl lineOffsets_from. simpl linesInRange_from.
    destruct i as [|i]; simpl in Hn.
    + injection Hn as <- <-.
      replace (b <=? c) with true by (symmetry; apply Nat.leb_le; lia).
      replace (c <=? b + length l) with true by (symmetry; apply Nat.leb_le; lia).
      simpl. rewrite Nat.add_0_r. f_equal.
      assert (Hnone : forall offs k', (forall j a e, nth_error offs j = Some (a, e) -> c < a) ->
                                      linesInRange_from k' offs c c = []).
      { induction offs as [|[a e] offs IHo]; intros k' Ha; simpl; [reflexivity|].
        pose proof (Ha 0 a e eq_refl) as H0.
        replace (a <=? c) with false by (symmetry; apply Nat.leb_gt; lia).
        simpl. apply IHo. intros j a' e' Hj. apply (Ha (S j) a' e' Hj). }
      apply Hnone. intros j a e Hj. apply lineOffsets_from_ge in Hj. lia.
    + pose proof (@lineOffsets_from_ge _ _ _ _ _ Hn) as Hge.
      replace (c <=? b + length l) with false by (symmetry; apply Nat.leb_gt; lia).
      rewrite andb_false_r.
      rewrite (IH _ (S k) i st en c Hn H1 H2). f_equal. lia.
Qed.

(** [linesInRange(a, b)] holds exactly the indices of the lines whose
    [start..end] interval meets [a..b], and for a single offset [c] of the
    input it holds the one line [currentLine] finds at [c]. *)
Theorem linesInRange_spec (lx : Lexer) (a b : nat) :
  (forall i, In i (linesInRange lx a b) <->
             i < length (lines lx) /\ lineStart lx i <= b /\ a <= lineEnd lx i) /\
  (forall c, c <= length (str lx) ->
             map Z.of_nat (linesInRange lx c c) = [currentLine (set_cursor lx c)]).
Proof.
  split.
  - intros i. unfold linesInRange. rewrite linesInRange_from_In. split.
    + intros (j & s & e & -> & Hn & H1 & H2). simpl.
      assert (Hj : j < length (lines lx)).
      { unfold lineOffsets in Hn. rewrite <- (lineOffsets_from_length (lines lx) 0).
        apply nth_error_Some. congruence. }
      split; [exact Hj|]. rewrite (lineStart_nth _ _ Hn).
      unfold lineEnd, clamp_line.
      destruct (length (lines lx) <=? j) eqn:E; [apply Nat.leb_le in E; lia|].
      erewrite nth_error_nth; [|exact Hn]. simpl. lia.
    + intros (Hi & H1 & H2).
      destruct (nth_error (lineOffsets lx) i) as [[s e]|] eqn:Hn.
      2:{ apply nth_error_None in Hn.
          unfold lineOffsets in Hn. rewrite lineOffsets_from_length in Hn. lia. }
      exists i, s, e. rewrite (lineStart_nth _ _ Hn) in H1.
      unfold lineEnd, clamp_line in H2.
      destruct (length (lines lx) <=? i) eqn:E; [apply Nat.leb_le in E; lia|].
      erewrite nth_error_nth in H2; [|exact Hn]. simpl in H2. auto.
  - intros c Hc.
    destruct (@currentLine_at lx c Hc) as (i & st & en & Hbs & Hn & H1 & H2 & _).
    unfold currentLine. simpl cursor.
    change (lineOffsets (set_cursor lx c)) with (lineOffsets lx).
    rewrite Hbs. unfold linesInRange, lineOffsets in *.
    rewrite (linesInRange_from_point _ _ 0 _ Hn H1 H2). reflexivity.
Qed.

(** ** [currentCol] *)

Lemma currentCol_loop_at (ls : list jstr) :
  forall b i st en c,
    nth_error (lineOffsets_from b ls) i = Some (st, en) ->
    b <= c -> st <= c -> c <= en ->
    currentCol_loop ls b c = (Z.of_nat c - Z.of_nat st)%Z.
Proof.
  induction ls as [|l ls IH]; intros b i st en c Hn Hb H1 H2.
  - destruct i; discriminate.
  - simpl. destruct i as [|i]; simpl in Hn.
    + injection Hn as <- <-.
      replace (c <? b + length l + 1) with true by (symmetry; apply Nat.ltb_lt; lia).
      reflexivity.
    + pose proof (@lineOffsets_from_ge _ _ _ _ _ Hn) as Hge.
      replace (c <? b + length l + 1) with false by (symmetry; apply Nat.ltb_ge; lia).
      eapply IH; eauto. lia.
Qed.

Lemma currentCol_loop_past (ls : list jstr) :
  forall b c,
    (forall a e, In (a, e) (lineOffsets_from b ls) -> e < c) ->
    currentCol_loop ls b c = (-1)%Z.
Proof.
  induction ls as [|l ls IH]; intros b c H; simpl; [reflexivity|].
  assert (H0 : b + length l < c) by (apply (H b); simpl; now left).
  replace (c <? b + length l + 1) with false by (symmetry; apply Nat.ltb_ge; lia).
  apply IH. intros a e Hin. apply (H a). simpl. now right.
Qed.

(** [currentCol] is the cursor minus the start of the line [currentLine]
    finds, which is also the [col] that [eat] gives a token starting at the
    cursor; past the end of the input it is [-1]. *)
Theorem currentCol_spec (lx : Lexer) :
  (cursor lx <= length (str lx) ->
   exists i, currentLine lx = Z.of_nat i /\
             currentCol lx = (Z.of_nat (cursor lx) - Z.of_nat (lineStart lx i))%Z /\
             (0 <= currentCol lx)%Z /\
             currentCol lx
             = Z.max 0 (Z.of_nat (cursor lx)
                        - lastIndexOf_nl (str lx) (Z.of_nat (cursor lx) - 1) - 1)) /\
  (length (str lx) < cursor lx -> currentCol lx = (-1)%Z).
Proof.
  split.
  - intros Hc.
    destruct (currentLine_at lx Hc) as (i & st & en & Hbs & Hn & H1 & H2 & H3).
    exists i. split; [exact Hbs|].
    assert (Hcol : currentCol lx = (Z.of_nat (cursor lx) - Z.of_nat st)%Z).
    { unfold currentCol. unfold lineOffsets in Hn.
      eapply currentCol_loop_at; eauto. lia. }
    rewrite (lineStart_nth _ _ Hn). split; [exact Hcol|]. split; [lia|].
    rewrite Hcol. unfold lastIndexOf_nl.
    destruct (cursor lx) as [|c] eqn:Ec.
    + assert (st = 0) by lia. subst st. simpl Z.of_nat. simpl Z.to_nat.
      pose proof (last_nl_upto_ge (str lx) 1). lia.
    + replace (S (Z.to_nat (Z.of_nat (S c) - 1))) with (S c) by lia. lia.
  - intros Hc. unfold currentCol. apply currentCol_loop_past.
    intros a e Hin. unfold lines in Hin. apply lineOffsets_from_end in Hin. lia.
Qed.

Lemma currentCol_spec_witness :
  let lx := set_cursor (Lexer_new (lit "ab" ++ [NL] ++ lit "  cd")) 4 in
  cursor lx <= length (str lx) /\
  exists i, currentLine lx = Z.of_nat i /\
            currentCol lx = (Z.of_nat (cursor lx) - Z.of_nat (lineStart lx i))%Z /\
            (0 <= currentCol lx)%Z /\
            currentCol lx
            = Z.max 0 (Z.of_nat (cursor lx)
                       - lastIndexOf_nl (str lx) (Z.of_nat (cursor lx) - 1) - 1).
Proof.
  intros lx.
  assert (H : cursor lx <= length (str lx)) by (vm_compute; lia).
  split; [exact H|].
  exact (proj1 (currentCol_spec lx) H).
Defined.

(** ** The cursor stack and the parsed / unparsed split *)

(** [pushCursor] then, after any move of the cursor, [popCursor] puts the
    cursor and the stack back as they were at the push; [popCursor] on an
    empty stack changes nothing. *)
Theorem push_pop_cursor (lx : Lexer) (x : nat) :
  popCursor (set_cursor (pushCursor lx) x)
  = mkLexer (str lx) (cursor lx) (tasteCursor lx) (cursorStack lx) /\
  (cursorStack lx = [] -> popCursor lx = lx).
Proof.
  split.
  - unfold popCursor, set_cursor, pushCursor. simpl.
    rewrite rev_app_distr. simpl. now rewrite rev_involutive.
  - intros H. unfold popCursor. now rewrite H.
Qed.

Lemma push_pop_cursor_witness :
  let lx := set_cursor (Lexer_new (lit "abcd")) 1 in
  cursorStack lx = [] /\
  cursor (popCursor (set_cursor (pushCursor lx) 3)) = 1 /\
  popCursor lx = lx.
Proof.
  intros lx.
  assert (H : cursorStack lx = []) by reflexivity.
  destruct (push_pop_cursor lx 3) as [H1 H2].
  split; [exact H|]. split; [now rewrite H1|exact (H2 H)].
Defined.

(** [parsedStr] and [unparsedStr] split the input at the cursor, wherever
    the cursor is, and there is more to lex exactly when [unparsedStr] is
    not empty. *)
Theorem parsed_unparsed (lx : Lexer) :
  parsedStr lx ++ unparsedStr lx = str lx /\
  length (parsedStr lx) = Nat.min (cursor lx) (length (str lx)) /\
  (hasMoreToLex lx = true <-> unparsedStr lx <> []).
Proof.
  unfold parsedStr, unparsedStr, hasMoreToLex, slice. simpl skipn.
  rewrite Nat.sub_0_r. split; [apply firstn_skipn|]. split; [apply length_firstn|].
  rewrite Nat.ltb_lt. split.
  - intros H E. apply (f_equal (@length ascii)) in E.
    rewrite length_skipn in E. simpl in E. lia.
  - intros H. destruct (Nat.lt_ge_cases (cursor lx) (length (str lx))) as [Hlt|Hge];
      [exact Hlt|].
    exfalso. apply H. now apply skipn_all2.
Qed.

(** ** Indents and line contents *)

Lemma trimStart_length (s : jstr) : length (trimStart s) <= length s.
Proof.
  induction s as [|c s IH]; simpl; [lia|].
  destruct (is_js_space c); simpl; lia.
Qed.

Lemma trimEnd_length (s : jstr) : length (trimEnd s) <= length s.
Proof.
  unfold trimEnd. rewrite length_rev.
  pose proof (trimStart_length (rev s)). rewrite length_rev in H. exact H.
Qed.

(** The indent of a line is at most the index of any code unit of it that
    is not white space. *)
Lemma indent_le_index (s : jstr) :
  forall j c, nth_error s j = Some c -> is_js_space c = false ->
              length s - length (trimStart s) <= j.
Proof.
  induction s as [|x s IH]; intros j c Hj Hc.
  - destruct j; discriminate.
  - simpl trimStart. destruct (is_js_space x) eqn:Ex.
    + destruct j as [|j]; simpl in Hj.
      * injection Hj as ->. congruence.
      * pose proof (IH _ _ Hj Hc). pose proof (trimStart_length s).
        simpl length. lia.
    + simpl length. lia.
Qed.

Lemma trimEnd_gt_index (s : jstr) (j : nat) (c : ascii) :
  nth_error s j = Some c -> is_js_space c = false -> j < length (trimEnd s).
Proof.
  intros Hj Hc.
  assert (Hlt : j < length s) by (apply nth_error_Some; congruence).
  assert (Hr : nth_error (rev s) (length s - S j) = Some c).
  { rewrite nth_error_rev.
    replace (length s - S j <? length s) with true
      by (symmetry; apply Nat.ltb_lt; lia).
    replace (length s - S (length s - S j)) with j by lia. exact Hj. }
  pose proof (indent_le_index _ _ Hr Hc) as H.
  rewrite length_rev in H.
  unfold trimEnd. rewrite length_rev.
  pose proof (trimStart_length (rev s)) as Hl. rewrite length_rev in Hl. lia.
Qed.

(** For a line of the input, [lineContentStart] and [lineContentEnd] lie
    between [lineStart] and [lineEnd]; on a line with a code unit that is
    not white space the content start is before the content end; on a line
    of white space only the content start is the line end and the content
    end is the line start.  Past the last line neither has a value. *)
Theorem lineContent_bounds (lx : Lexer) (i : nat) :
  (i < length (lines lx) ->
   exists l cs ce,
     nth_error (lines lx) i = Some l /\
     lineContentStart lx i = Some cs /\ lineContentEnd lx i = Some ce /\
     lineEnd lx i = lineStart lx i + length l /\
     lineStart lx i <= cs /\ cs <= lineEnd lx i /\
     lineStart lx i <= ce /\ ce <= lineEnd lx i /\
     (forallb is_js_space l = false -> cs < ce) /\
     (forallb is_js_space l = true ->
      cs = lineEnd lx i /\ ce = lineStart lx i)) /\
  (length (lines lx) <= i ->
   lineContentStart lx i = None /\ lineContentEnd lx i = None).
Proof.
  split.
  - intros Hi.
    destruct (nth_error (lines lx) i) as [l|] eqn:El.
    2:{ apply nth_error_None in El. lia. }
    assert (Hoff : forall ls b k l0, nth_error ls k = Some l0 ->
                     exists st, nth_error (lineOffsets_from b ls) k
                                = Some (st, st + length l0)).
    { induction ls as [|l1 ls IHl]; intros b k l0 Hk; [destruct k; discriminate|].
      destruct k as [|k]; simpl in *.
      - injection Hk as ->. eauto.
      - apply IHl. exact Hk. }
    destruct (Hoff _ 0 _ _ El) as (st & Hst). fold (lineOffsets lx) in Hst.
    assert (Hs : lineStart lx i = st) by (apply (lineStart_nth _ _ Hst)).
    assert (He : lineEnd lx i = st + length l).
    { unfold lineEnd, clamp_line.
      destruct (length (lines lx) <=? i) eqn:E; [apply Nat.leb_le in E; lia|].
      erewrite nth_error_nth; [|exact Hst]. reflexivity. }
    exists l, (st + (length l - length (trimStart l))), (st + length (trimEnd l)).
    pose proof (trimStart_length l) as H1. pose proof (trimEnd_length l) as H2.
    split; [reflexivity|]. split.
    { unfold lineContentStart, lineIndent, lineIndents.
      rewrite nth_error_map. unfold jstr in *. rewrite El, Hs. reflexivity. }
    split.
    { unfold lineContentEnd. unfold jstr in *. rewrite El, Hs. reflexivity. }
    rewrite Hs, He.
    split; [lia|]. split; [lia|]. split; [lia|]. split; [lia|]. split; [lia|].
    split.
    + intros Hf.
      assert (Hex : exists j c, nth_error l j = Some c /\ is_js_space c = false).
      { clear -Hf. induction l as [|x l IH]; simpl in Hf; [discriminate|].
        destruct (is_js_space x) eqn:Ex.
        - destruct (IH Hf) as (j & c & Hj & Hc). exists (S j), c. auto.
        - exists 0, x. auto. }
      destruct Hex as (j & c & Hj & Hc).
      pose proof (indent_le_index _ _ Hj Hc).
      pose proof (trimEnd_gt_index _ _ Hj Hc). lia.
    + intros Hf. split.
      * apply trimStart_nil in Hf. rewrite Hf. simpl. lia.
      * unfold trimEnd. rewrite <- forallb_rev in Hf.
        apply trimStart_nil in Hf. rewrite Hf. simpl. lia.
  - intros Hi. unfold lineContentStart, lineContentEnd, lineIndent, lineIndents.
    assert (E : nth_error (lines lx) i = None) by now apply nth_error_None.
    rewrite nth_error_map. unfold jstr in *. rewrite E. split; reflexivity.
Qed.

Lemma lineContent_bounds_witness :
  let lx := Lexer_new (lit "  ab  " ++ [NL] ++ lit "   ") in
  0 < length (lines lx) /\
  lineContentStart lx 0 = Some 2 /\ lineContentEnd lx 0 = Some 4 /\
  exists l cs ce,
    nth_error (lines lx) 0 = Some l /\
    lineContentStart lx 0 = Some cs /\ lineContentEnd lx 0 = Some ce /\
    lineEnd lx 0 = lineStart lx 0 + length l /\
    lineStart lx 0 <= cs /\ cs <= lineEnd lx 0 /\
    lineStart lx 0 <= ce /\ ce <= lineEnd lx 0 /\
    (forallb is_js_space l = false -> cs < ce) /\
    (forallb is_js_space l = true ->
     cs = lineEnd lx 0 /\ ce = lineStart lx 0).
Proof.
  intros lx.
  assert (H : 0 < length (lines lx)) by (vm_compute; lia).
  split; [exact H|]. split; [reflexivity|]. split; [reflexivity|].
  exact (proj1 (lineContent_bounds lx 0) H).
Defined.

(** ** [taste] and [eat] on any pattern *)

Lemma search_from_lt (r : re) (s : jstr) :
  forall n from i len, search_from r s from n = Some (i, len) -> i < from + n.
Proof.
  induction n as [|k IH]; intros from i len H; simpl in H; [discriminate|].
  destruct (hd_error (re_lens r (skipn from s))) as [l|].
  - injection H as <- <-. lia.
  - apply IH in H. lia.
Qed.

(** Whatever its flags, a pattern matches inside the input. *)
Lemma exec_inside (r : RegExp) (lastIndex : nat) (s : jstr) (i len : nat) :
  exec r lastIndex s = Some (i, len) -> i + len <= length s.
Proof.
  assert (Hs : forall from n, from + n <= S (length s) ->
                 search_from (source r) s from n = Some (i, len) ->
                 i + len <= length s).
  { intros from n Hb H. pose proof (search_from_lt _ _ _ _ H) as Hlt.
    apply search_from_ge in H. destruct H as [_ H].
    apply re_lens_le in H. rewrite length_skipn in H. lia. }
  unfold exec. destruct (sticky r) eqn:Est.
  - intros H.
    destruct (lastIndex <=? length s) eqn:Hle; [|discriminate].
    apply Nat.leb_le in Hle.
    destruct (hd_error (re_lens (source r) (skipn lastIndex s))) as [l|] eqn:E;
      [|discriminate].
    injection H as <- <-.
    apply hd_error_In, re_lens_le in E. rewrite length_skipn in E. lia.
  - destruct (global r).
    + destruct (lastIndex <=? length s) eqn:E; [|discriminate].
      apply Nat.leb_le in E. apply Hs. lia.
    + apply Hs. lia.
Qed.

(** After a successful [taste], [tasteCursor] is the cursor plus the
    length of the text reported. *)
Lemma taste_tasteCursor (p : pattern) (lx : Lexer) (v : jstr) (lx1 : Lexer) :
  taste (Some p) lx = (Some v, lx1) -> tasteCursor lx1 = cursor lx + length v.
Proof.
  unfold taste. destruct p as [[|c s]|r]; [discriminate| |].
  - cbv zeta. destruct (failedMatch _ _); [discriminate|].
    intros H. injection H as <- <-. reflexivity.
  - cbv zeta. simpl tasteCursor. simpl str.
    destruct (exec r (cursor lx) (str lx)) as [[i len]|] eqn:Ex; [|discriminate].
    intros H. injection H as <- <-. simpl.
    apply exec_inside in Ex. now rewrite slice_length.
Qed.

(** [taste] is a lookahead: it changes neither the cursor nor the input
    nor the cursor stack.  For [null] and for the empty string it answers
    nothing and leaves [tasteCursor] alone; otherwise [tasteCursor] ends at
    the cursor when the match fails and at the cursor plus the length of
    the reported text when it succeeds. *)
Theorem taste_lookahead (regex : option pattern) (lx : Lexer) :
  let (r, lx') := taste regex lx in
  str lx' = str lx /\ cursor lx' = cursor lx /\ cursorStack lx' = cursorStack lx /\
  match regex with
  | None | Some (PStr []) => r = None /\ lx' = lx
  | Some _ =>
      tasteCursor lx' = cursor lx + match r with Some v => length v | None => 0 end
  end.
Proof.
  destruct (taste regex lx) as [r lx'] eqn:E.
  pose proof (taste_fields _ _ E) as (H1 & H2 & H3).
  split; [exact H1|]. split; [exact H2|]. split; [exact H3|].
  destruct regex as [[[|c s]|re0]|].
  - unfold taste in E. injection E as <- <-. auto.
  - destruct r as [v|]; [exact (taste_tasteCursor _ _ E)|].
    unfold taste in E. cbv zeta in E.
    destruct (failedMatch _ _); [|discriminate]. injection E as <-. simpl. lia.
  - destruct r as [v|]; [exact (taste_tasteCursor _ _ E)|].
    unfold taste in E. cbv zeta in E.
    destruct (exec _ _ _) as [[i len]|]; [discriminate|]. injection E as <-. simpl. lia.
  - unfold taste in E. injection E as <- <-. auto.
Qed.

(** [eat] on any pattern, sticky or not: the input and the cursor stack
    are unchanged; without a token the cursor stays; with a token [t] the
    token starts at the entry cursor, [t.end - t.start] is the length of
    [t.value], the pattern is kept in [t.type], and the cursor ends at
    [t.end]. *)
Theorem eat_advances (regex : option pattern) (lx : Lexer) :
  let (r, lx') := eat regex lx in
  str lx' = str lx /\ cursorStack lx' = cursorStack lx /\
  match r with
  | None => cursor lx' = cursor lx
  | Some t =>
      Some (type t) = regex /\
      start t = cursor lx /\ end_ t = start t + length (value t) /\
      cursor lx' = end_ t /\ isMissing t = false
  end.
Proof.
  destruct (eat regex lx) as [r lx'] eqn:E.
  destruct regex as [p|]; [|injection E as <- <-; auto].
  destruct r as [t|].
  - apply eat_token in E. destruct E as (v & lx1 & Et & H). cbv zeta in H.
    destruct H as (Hty & Hv & Hs & He & _ & _ & Hm & _ & Hstr & Hc & Hst).
    pose proof (taste_tasteCursor _ _ Et) as Htc.
    rewrite Htc in *.
    replace (cursor lx + length v - length v) with (cursor lx) in * by lia.
    rewrite Hty, Hv, Hs, He, Hc. repeat split; auto.
  - pose proof (eat_cursor _ _ E) as (Hs & _ & Hc).
    split; [exact Hs|]. split; [|now apply Hc].
    unfold eat in E. destruct (taste (Some p) lx) as [[v|] lx1] eqn:Et;
      [discriminate|]. injection E as <-.
    now apply taste_fields in Et.
Qed.

(** ** The white-space loop of [ShapeExp.parse] *)

Lemma firstn_plus (A : Type) (n m : nat) (l : list A) :
  firstn (n + m) l = firstn n l ++ firstn m (skipn n l).
Proof.
  revert l. induction n as [|n IH]; intros l; [reflexivity|].
  destruct l as [|x l]; simpl.
  - now rewrite firstn_nil.
  - now rewrite IH.
Qed.

Lemma star_lens_sound (a : re) (step : jstr -> list nat) :
  (forall s n, In n (step s) -> matches a (firstn n s)) ->
  forall fuel s n, In n (star_lens step fuel s) -> matches (RStar a) (firstn n s).
Proof.
  intros Hstep. induction fuel as [|f IH]; intros s n Hin; simpl in Hin.
  - destruct Hin as [<-|[]]. constructor.
  - apply in_app_or in Hin. destruct Hin as [Hin|[<-|[]]]; [|constructor].
    apply in_flat_map in Hin. destruct Hin as (x & Hx & Hin).
    destruct (x =? 0); [contradiction|].
    apply in_map_iff in Hin. destruct Hin as (m & <- & Hm).
    rewrite firstn_plus. constructor; auto.
Qed.

(** Every length the matcher reports is the length of a prefix of the
    input that the pattern matches. *)
Lemma re_lens_sound (r : re) :
  forall s n, In n (re_lens r s) -> matches r (firstn n s).
Proof.
  induction r as [c|p| |a IHa b IHb|a IHa b IHb|a IHa]; intros s n Hin; simpl in Hin.
  - destruct s as [|x s]; [contradiction|].
    destruct (Ascii.eqb x c) eqn:E; [|contradiction].
    apply Ascii.eqb_eq in E. subst. destruct Hin as [<-|[]]. constructor.
  - destruct s as [|x s]; [contradiction|].
    destruct (p x) eqn:E; [|contradiction].
    destruct Hin as [<-|[]]. now constructor.
  - destruct Hin as [<-|[]]. constructor.
  - apply in_flat_map in Hin. destruct Hin as (x & Hx & Hin).
    apply in_map_iff in Hin. destruct Hin as (m & <- & Hm).
    rewrite firstn_plus. constructor; auto.
  - apply in_app_or in Hin. destruct Hin; [apply matches_alt_l|apply matches_alt_r]; auto.
  - eapply star_lens_sound; eauto.
Qed.

Lemma matches_star_sp (w : jstr) :
  matches (RStar (RChar SP)) w -> Forall sp_or_nl w.
Proof.
  intros H. remember (RStar (RChar SP)) as r eqn:Er.
  induction H as [| | | | | | a|a u v Hu _ Hv IH]; try discriminate; [constructor|].
  injection Er as ->. inversion Hu; subst.
  constructor; [now left|]. now apply IH.
Qed.

(** What [WHITESPACE_REGEX] matches is never empty and holds spaces and
    newlines only. *)
Lemma matches_WHITESPACE (w : jstr) :
  matches (source WHITESPACE_REGEX) w -> w <> [] /\ Forall sp_or_nl w.
Proof.
  simpl. intros H. inversion H as [| | | |a b u Hu|a b u Hu| |]; subst.
  - inversion Hu as [| | |a b u1 v1 Hp Ho| | | |]; subst.
    inversion Hp as [| | |a b u2 v2 Hc Hs| | | |]; subst.
    inversion Hc; subst. apply matches_star_sp in Hs.
    split; [discriminate|].
    simpl. constructor; [now left|]. apply Forall_app. split; [exact Hs|].
    inversion Ho as [| | | |a b u Hn|a b u He| |]; subst.
    + inversion Hn; subst. constructor; [now right|constructor].
    + inversion He; subst. constructor.
  - inversion Hu; subst. split; [discriminate|]. constructor; [now right|constructor].
Qed.

Lemma star_lens_zero (step : jstr -> list nat) (fuel : nat) (s : jstr) :
  In 0 (star_lens step fuel s).
Proof. destruct fuel; simpl; [now left|]. apply in_or_app. right. now left. Qed.

(** [WHITESPACE_REGEX] matches wherever the input has a space or a
    newline. *)
Lemma re_lens_WHITESPACE (c : ascii) (s : jstr) :
  sp_or_nl c -> re_lens (source WHITESPACE_REGEX) (c :: s) <> [].
Proof.
  intros [-> | ->] E.
  - assert (Hin : In (1 + 0 + 0) (re_lens (source WHITESPACE_REGEX) (SP :: s))).
    { simpl source. cbn [re_lens]. apply in_or_app. left.
      apply in_flat_map. exists (1 + 0). split.
      - unfold RPlus. cbn [re_lens]. rewrite Ascii.eqb_refl.
        cbn [flat_map]. rewrite app_nil_r.
        apply in_map. apply star_lens_zero.
      - apply in_map. unfold ROpt. cbn [re_lens]. apply in_or_app. right. now left. }
    rewrite E in Hin. contradiction.
  - assert (Hin : In 1 (re_lens (source WHITESPACE_REGEX) (NL :: s))).
    { simpl source. cbn [re_lens]. apply in_or_app. right.
      rewrite Ascii.eqb_refl. now left. }
    rewrite E in Hin. contradiction.
Qed.

Lemma sp_or_nl_space (w : jstr) : Forall sp_or_nl w -> forallb is_js_space w = true.
Proof.
  induction 1 as [|c w [-> | ->] _ IH]; simpl; [reflexivity| |]; exact IH.
Qed.

(** One round of the loop. *)
Lemma eat_WHITESPACE (lx : Lexer) :
  match eat (Some (PRe WHITESPACE_REGEX)) lx with
  | (Some t, lx') =>
      isWhiteSpace t = true /\ value t <> [] /\
      value t = slice (str lx) (cursor lx) (cursor lx') /\
      cursor lx < cursor lx' /\ cursor lx' <= length (str lx) /\ str lx' = str lx
  | (None, lx') =>
      cursor lx' = cursor lx /\ str lx' = str lx /\
      forall c, nth_error (str lx) (cursor lx) = Some c -> ~ sp_or_nl c
  end.
Proof.
  destruct (eat (Some (PRe WHITESPACE_REGEX)) lx) as [[t|] lx'] eqn:E.
  - pose proof E as E0. apply eat_token in E.
    destruct E as (v & lx1 & Et & H). cbv zeta in H.
    destruct H as (_ & Hv & Hs & _ & _ & _ & _ & _ & Hstr & Hc & _).
    pose proof (@taste_anchored (PRe WHITESPACE_REGEX) lx v lx1 eq_refl Et)
      as (Hsl & Hb & Htc).
    assert (Hm : matches (source WHITESPACE_REGEX) v).
    { unfold taste in Et. cbv zeta in Et. simpl tasteCursor in Et. simpl str in Et.
      destruct (exec WHITESPACE_REGEX (cursor lx) (str lx)) as [[i len]|] eqn:Ex;
        [|discriminate].
      injection Et as <- _.
      unfold exec in Ex. simpl sticky in Ex.
      destruct (cursor lx <=? length (str lx)); [|discriminate].
      destruct (hd_error (re_lens (source WHITESPACE_REGEX) (skipn (cursor lx) (str lx))))
        as [l|] eqn:Eh; [|discriminate].
      injection Ex as <- <-.
      apply hd_error_In, re_lens_sound in Eh.
      unfold slice. replace (cursor lx + l - cursor lx) with l by lia. exact Eh. }
    apply matches_WHITESPACE in Hm. destruct Hm as [Hne Hall].
    rewrite Htc in Hc.
    replace (cursor lx + length v - length v + length v) with (cursor lx + length v)
      in Hc by lia.
    rewrite Hv, Hc. unfold isWhiteSpace. rewrite Hv.
    assert (Hlen : length v <> 0) by (destruct v; [congruence|discriminate]).
    repeat split; auto; try lia.
    apply Nat.eqb_eq. apply length_zero_iff_nil. apply trim_nil.
    now apply sp_or_nl_space.
  - pose proof (eat_cursor _ _ E) as (Hs & _ & Hc).
    split; [now apply Hc|]. split; [exact Hs|].
    intros c Hn Hsp.
    unfold eat in E. destruct (taste (Some (PRe WHITESPACE_REGEX)) lx) as [[v|] lx1] eqn:Et;
      [discriminate|].
    unfold taste in Et. cbv zeta in Et. simpl tasteCursor in Et. simpl str in Et.
    destruct (exec WHITESPACE_REGEX (cursor lx) (str lx)) as [[i len]|] eqn:Ex;
      [discriminate|].
    unfold exec in Ex. simpl sticky in Ex.
    assert (Hlt : cursor lx < length (str lx)) by (apply nth_error_Some; congruence).
    replace (cursor lx <=? length (str lx)) with true in Ex
      by (symmetry; apply Nat.leb_le; lia).
    destruct (skipn (cursor lx) (str lx)) as [|y r] eqn:Esk.
    + apply (f_equal (@length ascii)) in Esk. rewrite length_skipn in Esk.
      simpl in Esk. lia.
    + assert (Hy : nth_error (skipn (cursor lx) (str lx)) 0 = Some y)
        by (rewrite Esk; reflexivity).
      rewrite nth_error_skipn, Nat.add_0_r, Hn in Hy. injection Hy as ->.
      pose proof (@re_lens_WHITESPACE y r Hsp) as Hne.
      destruct (re_lens (source WHITESPACE_REGEX) (y :: r)); [congruence|discriminate].
Qed.

Lemma slice_app (s : jstr) (a b c : nat) :
  a <= b -> b <= c -> slice s a b ++ slice s b c = slice s a c.
Proof.
  intros H1 H2. unfold slice.
  replace (c - a) with ((b - a) + (c - b)) by lia.
  rewrite firstn_plus, skipn_skipn.
  replace (b - a + a) with b by lia. reflexivity.
Qed.

(** What [eat] returns depends on the input and the cursor only. *)
Lemma eat_fst_eq (regex : option pattern) (lx lx1 : Lexer) :
  str lx1 = str lx -> cursor lx1 = cursor lx ->
  fst (eat regex lx1) = fst (eat regex lx).
Proof.
  destruct lx as [s c tc st], lx1 as [s1 c1 tc1 st1]. simpl. intros -> ->.
  destruct regex as [p|]; [|reflexivity].
  unfold eat, taste. destruct p as [[|x p]|r]; [reflexivity| |].
  - cbv zeta. simpl tasteCursor. simpl str. simpl cursor.
    destruct (failedMatch (x :: p) (skipn c s)); reflexivity.
  - cbv zeta. simpl tasteCursor. simpl str. simpl cursor.
    destruct (exec r c s) as [[i len]|]; reflexivity.
Qed.

Lemma eat_whitespace_loop_gen (fuel : nat) :
  forall results lx,
    length (str lx) - cursor lx <= fuel ->
    let (rs, lx') := eat_whitespace fuel results lx in
    exists ws,
      rs = results ++ map ETok ws /\
      Forall (fun t => isWhiteSpace t = true /\ value t <> []) ws /\
      concat (map value ws) = slice (str lx) (cursor lx) (cursor lx') /\
      cursor lx <= cursor lx' /\ str lx' = str lx /\
      fst (eat (Some (PRe WHITESPACE_REGEX)) lx') = None /\
      (forall c, nth_error (str lx') (cursor lx') = Some c -> ~ sp_or_nl c).
Proof.
  assert (Hnone : forall results lx lx1,
             eat (Some (PRe WHITESPACE_REGEX)) lx = (None, lx1) ->
             exists ws : list Token,
               results = results ++ map ETok ws /\
               Forall (fun t => isWhiteSpace t = true /\ value t <> []) ws /\
               concat (map value ws) = slice (str lx) (cursor lx) (cursor lx1) /\
               cursor lx <= cursor lx1 /\ str lx1 = str lx /\
               fst (eat (Some (PRe WHITESPACE_REGEX)) lx1) = None /\
               (forall c, nth_error (str lx1) (cursor lx1) = Some c -> ~ sp_or_nl c)).
  { intros results lx lx1 E.
    pose proof (eat_WHITESPACE lx) as Hw. rewrite E in Hw.
    destruct Hw as (Hc & Hs & Hn).
    exists []. simpl. rewrite app_nil_r, Hc, Hs. unfold slice.
    rewrite Nat.sub_diag. simpl.
    split; [reflexivity|]. split; [constructor|]. split; [reflexivity|].
    split; [lia|]. split; [reflexivity|]. split; [|exact Hn].
    rewrite (eat_fst_eq _ _ _ Hs Hc), E. reflexivity. }
  induction fuel as [|f IH]; intros results lx Hf; rewrite eat_whitespace_eq;
    pose proof (eat_WHITESPACE lx) as Hw;
    destruct (eat (Some (PRe WHITESPACE_REGEX)) lx) as [[t|] lx1] eqn:E.
  - destruct Hw as (_ & _ & _ & Hlt & Hle & Hs). lia.
  - now apply Hnone.
  - destruct Hw as (Hws & Hne & Hv & Hlt & Hle & Hs).
    assert (Hf1 : length (str lx1) - cursor lx1 <= f) by (rewrite Hs; lia).
    specialize (IH (results ++ [ETok t]) lx1 Hf1).
    destruct (eat_whitespace f (results ++ [ETok t]) lx1) as [rs lx'].
    destruct IH as (ws & Hrs & Hall & Hcat & Hc & Hs' & Hfail & Hnext).
    exists (t :: ws). simpl map. simpl concat.
    split; [rewrite Hrs, <- app_assoc; reflexivity|].
    split; [constructor; auto|].
    split; [rewrite Hcat, Hv, Hs; apply slice_app; lia|].
    split; [lia|]. split; [congruence|]. split; assumption.
  - now apply Hnone.
Qed.

(** The loop [while (_.taste(WHITESPACE_REGEX)) results.push(...)] as
    [ShapeExp.parse] runs it: it appends tokens that are white space and
    not empty, whose values joined are the input between the entry cursor
    and the exit cursor; it never changes the input; and it stops where
    the pattern no longer matches, so the code unit at the exit cursor, if
    any, is neither a space nor a newline. *)
Theorem eat_whitespace_loop (results : list exp) (lx : Lexer) :
  let (rs, lx') := eat_whitespace (length (str lx)) results lx in
  exists ws,
    rs = results ++ map ETok ws /\
    Forall (fun t => isWhiteSpace t = true /\ value t <> []) ws /\
    concat (map value ws) = slice (str lx) (cursor lx) (cursor lx') /\
    cursor lx <= cursor lx' /\ str lx' = str lx /\
    fst (eat (Some (PRe WHITESPACE_REGEX)) lx') = None /\
    (forall c, nth_error (str lx') (cursor lx') = Some c -> c <> SP /\ c <> NL).
Proof.
  pose proof (@eat_whitespace_loop_gen (length (str lx)) results lx) as H.
  destruct (eat_whitespace (length (str lx)) results lx) as [rs lx'].
  destruct H as (ws & H1 & H2 & H3 & H4 & H5 & H6 & H7); [lia|].
  exists ws. repeat (split; [assumption|]).
  intros c Hc. specialize (H7 c Hc). unfold sp_or_nl in H7. tauto.
Qed.

Example test_shape_add :
  Shape_new [IValue (AKind "$NUMBER"%string); IValue (AStr (lit "+")); IValue (AKind "$NUMBER"%string)]
  = Samples.ADD_SHAPE.
Proof. reflexivity. Qed.
Example test_shape_opt :
  Shape_new [IValue (AList [IValue (AStr (lit "x"))]); ILimit (LMin 0 None)]
  = SHAPE Samples.EMPTY.
Proof. reflexivity. Qed.
Example test_shape_nested :
  Shape_new [IValue (AShape (Shape_new [IValue (AShape (Shape_new [IValue (AKind "$EMPTY"%string); IValue (AStr (lit "a"))])); IValue (AStr (lit "b"))])); IValue (AStr (lit "z"))]
  = SHAPE Samples.NESTED.
Proof. reflexivity. Qed.
Example test_shape_incomplete :
  Shape_new [IValue (AKind "$NUMBER"%string); IValue (AStr (lit "+")); IValue (AKind "$NUMBER"%string); ILimit (LMin 1 (Some (lit "number expected")))]
  = SHAPE Samples.ADD_INCOMPLETE.
Proof. reflexivity. Qed.

(** ** The [Shape] constructor *)

Lemma anchored_value_list (l : list ShapeExp) :
  anchored_value (VOption l) <-> Forall anchored_exp l.
Proof.
  simpl. induction l as [|x l IH].
  - split; [constructor|trivial].
  - split.
    + intros [Hx Hl]. constructor; [|now apply IH].
      destruct x. exact Hx.
    + intros H. inversion H as [|? ? Hx Hl]; subst. split; [|now apply IH].
      destruct x. exact Hx.
Qed.

Lemma anchored_value_sub (l : list ShapeExp) :
  anchored_value (VSubShape l) <-> Forall anchored_exp l.
Proof. exact (anchored_value_list l). Qed.

Lemma formatPattern_anchored (p : pattern) : anchored (formatPattern p).
Proof. destruct p; simpl; [exact I|reflexivity]. Qed.

Lemma shapes_anchored_list (l : list item) :
  shapes_anchored (AList l) <->
  forall v, In (IValue v) l -> shapes_anchored v.
Proof.
  simpl. induction l as [|it l IH].
  - split; [intros _ v []|trivial].
  - destruct it as [v0|d|].
    + split.
      * intros [H0 Hl] v [E|Hin]; [injection E as <-; exact H0|].
        now apply IH.
      * intros H. split; [apply H; now left|].
        apply IH. intros v Hin. apply H. now right.
    + rewrite IH. split; intros H v Hin; apply H; [|now right].
      destruct Hin as [E|Hin]; [discriminate|exact Hin].
    + rewrite IH. split; intros H v Hin; apply H; [|now right].
      destruct Hin as [E|Hin]; [discriminate|exact Hin].
Qed.

Lemma Shape_from_In (f : value_item -> ShapeValue) (exps : list item) :
  forall rest i x,
    In x (Shape_from f exps rest i) ->
    exists v rd mn mx e, In (IValue v) rest /\ x = ShapeExp_new (f v) rd mn mx e.
Proof.
  induction rest as [|it rest IH]; intros i x Hin; simpl in Hin; [contradiction|].
  destruct it as [v|d|].
  - destruct Hin as [<-|Hin].
    + do 5 eexists. split; [now left|reflexivity].
    + apply IH in Hin. destruct Hin as (v' & rd & mn & mx & e & H1 & H2).
      exists v', rd, mn, mx, e. split; [now right|exact H2].
  - apply IH in Hin. destruct Hin as (v' & rd & mn & mx & e & H1 & H2).
    exists v', rd, mn, mx, e. split; [now right|exact H2].
  - apply IH in Hin. destruct Hin as (v' & rd & mn & mx & e & H1 & H2).
    exists v', rd, mn, mx, e. split; [now right|exact H2].
Qed.

Lemma classify_anchored :
  forall v rd mn mx e,
    shapes_anchored v ->
    anchored_exp (ShapeExp_new (classify v) rd mn mx e).
Proof.
  fix IH 1. intros [s|r|k|k|l|shape] rd mn mx e H; unfold anchored_exp; simpl.
  - exact I.
  - reflexivity.
  - exact I.
  - exact I.
  - change (anchored_value (VOption (Shape_from classify l l 0))).
    apply anchored_value_list.
    assert (Hl : forall v, In (IValue v) l -> shapes_anchored v)
      by now apply shapes_anchored_list.
    clear H. generalize 0. generalize l at 1.
    induction l as [|it l IHl]; intros exps i; simpl; [constructor|].
    destruct it as [v|d|].
    + constructor.
      * apply IH. apply Hl. now left.
      * apply IHl. intros v' Hin. apply Hl. now right.
    + apply IHl. intros v' Hin. apply Hl. now right.
    + apply IHl. intros v' Hin. apply Hl. now right.
  - change (anchored_value (VSubShape shape)). apply anchored_value_sub. exact H.
Qed.

(** Every expression a [Shape] is built of is well formed: its patterns,
    at every depth of its alternations, are literals or sticky, as are its
    right delimiters (the sub-shapes passed in being so). *)
Theorem Shape_new_anchored (exps : list item) :
  shapes_anchored (AList exps) ->
  Forall anchored_exp (Shape_new exps) /\
  (forall x p, In x (Shape_new exps) -> se_rightDelimeter x = Some p -> anchored p).
Proof.
  intros H. pose proof (proj1 (shapes_anchored_list exps) H) as Hl.
  split.
  - apply Forall_forall. intros x Hin.
    apply Shape_from_In in Hin. destruct Hin as (v & rd & mn & mx & e & Hv & ->).
    apply classify_anchored. now apply Hl.
  - intros x p Hin Hp.
    apply Shape_from_In in Hin. destruct Hin as (v & rd & mn & mx & e & Hv & ->).
    simpl in Hp. destruct rd as [q|]; [|discriminate]. injection Hp as <-.
    apply formatPattern_anchored.
Qed.

Lemma Shape_new_anchored_witness :
  let exps := [IValue (AKind "$NUMBER"%string); IValue (ARe Samples.re_digits);
               IValue (AList [IValue (ARe Samples.re_digits)])] in
  shapes_anchored (AList exps) /\
  Forall anchored_exp (Shape_new exps) /\
  (forall x p, In x (Shape_new exps) -> se_rightDelimeter x = Some p -> anchored p).
Proof.
  intros exps.
  assert (H : shapes_anchored (AList exps)) by (simpl; tauto).
  split; [exact H|]. exact (Shape_new_anchored exps H).
Defined.

Lemma Shape_from_shift (f : value_item -> ShapeValue) (pre exps : list item) :
  forall rest i,
    Shape_from f (pre ++ exps) rest (length pre + i) = Shape_from f exps rest i.
Proof.
  assert (Hn : forall j, nth_error (pre ++ exps) (length pre + j) = nth_error exps j).
  { intros j. rewrite nth_error_app2 by lia. f_equal. lia. }
  assert (Hl : forall j, isLimitExp (pre ++ exps) (length pre + j) = isLimitExp exps j).
  { intros j. unfold isLimitExp. now rewrite Hn. }
  assert (Hp : forall j, parseLimitExp (pre ++ exps) (length pre + j) = parseLimitExp exps j).
  { intros j. unfold parseLimitExp. now rewrite <- Nat.add_assoc, Hn. }
  assert (Hr : forall j, parseRightDelimeter (pre ++ exps) (length pre + j)
                         = parseRightDelimeter exps j).
  { intros j. unfold parseRightDelimeter.
    rewrite <- !Nat.add_assoc, Hl, Hn. reflexivity. }
  induction rest as [|it rest IH]; intros i; simpl; [reflexivity|].
  replace (S (length pre + i)) with (length pre + S i) by lia.
  destruct it as [v|d|].
  - rewrite Hr, Hp, IH. reflexivity.
  - apply IH.
  - apply IH.
Qed.

Lemma Shape_from_length (f : value_item -> ShapeValue) (exps : list item) :
  forall rest i, length (Shape_from f exps rest i) = length (filter is_value rest).
Proof.
  induction rest as [|it rest IH]; intros i; simpl; [reflexivity|].
  destruct it; simpl; now rewrite IH.
Qed.

Lemma Shape_from_app (f : value_item -> ShapeValue) (exps : list item) :
  forall pre rest i,
    Shape_from f exps (pre ++ rest) i
    = Shape_from f exps pre i ++ Shape_from f exps rest (i + length pre).
Proof.
  induction pre as [|it pre IH]; intros rest i; simpl.
  - now rewrite Nat.add_0_r.
  - replace (i + S (length pre)) with (S i + length pre) by lia.
    destruct it; simpl; now rewrite IH.
Qed.

(** The author's sugar.  A [Shape] has one expression per value of the
    list, in order; what is built for the items from some position on does
    not depend on the items before it; an expression takes [min], [max]
    and [e] from a limit descriptor right after it (else [min = max = 1]),
    and its right delimiter from the non-empty string or the regular
    expression that comes next, past that descriptor, which still gets an
    expression of its own. *)
Theorem Shape_new_sugar (pre : list item) (v : value_item) (rest : list item) :
  length (Shape_new (pre ++ IValue v :: rest))
  = length (filter is_value pre) + S (length (filter is_value rest)) /\
  (exists A, length A = length (filter is_value pre) /\
             Shape_new (pre ++ IValue v :: rest) = A ++ Shape_new (IValue v :: rest)) /\
  (exists x, Shape_new (IValue v :: rest)
             = x :: Shape_new rest /\
             se_value x = se_value (ShapeExp_new (classify v) None 1 (Some 1) None) /\
             se_min x = limit_min (match rest with ILimit d :: _ => Some d | _ => None end) /\
             se_max x = limit_max (match rest with ILimit d :: _ => Some d | _ => None end) /\
             se_e x = limit_e (match rest with ILimit d :: _ => Some d | _ => None end) /\
             se_rightDelimeter x
             = match (match rest with ILimit _ :: rest' => rest' | _ => rest end) with
               | IValue (AStr (c :: s)) :: _ => Some (PStr (c :: s))
               | IValue (ARe r) :: _ => Some (PRe (formatRegex r))
               | _ => None
               end).
Proof.
  split; [|split].
  - unfold Shape_new. rewrite Shape_from_length, filter_app, length_app. reflexivity.
  - exists (Shape_from classify (pre ++ IValue v :: rest) pre 0). split.
    + apply Shape_from_length.
    + unfold Shape_new. rewrite Shape_from_app. f_equal. simpl Nat.add.
      rewrite <- (Nat.add_0_r (length pre)). apply Shape_from_shift.
  - eexists. split.
    + unfold Shape_new. cbn [Shape_from]. f_equal.
      apply (Shape_from_shift classify [IValue v] rest rest 0).
    + unfold parseLimitExp, parseRightDelimeter, isLimitExp. simpl nth_error.
      destruct rest as [|[v1|d|] rest]; simpl.
      * repeat split; destruct v; reflexivity.
      * repeat split; try (destruct v; reflexivity).
        destruct v1 as [[|c s]|r|k|k|l|sh]; reflexivity.
      * repeat split; try (destruct v; reflexivity).
        destruct rest as [|[[[|c s]|r|k|k|l|sh]|d'|] rest]; reflexivity.
      * repeat split; destruct v; reflexivity.
Qed.

(** ** Invariants of a parse

    One induction over the drivers serves every invariant of the scanner
    and of the tokens of the tree: [LI] is kept by the scanner, [CI] holds
    of the cursors the drivers save and go back to, [TI] holds of the
    tokens [eat] returns; [EOK] and [KOK] say which expressions and kinds
    are parsed. *)

Lemma below_node (TI : Token -> Prop) (nm : string) (l : list exp)
    (s : option ShapeExp) :
  Forall (below TI) l <-> below TI (ENode (mkNode nm l s)).
Proof.
  unfold below at 2. cbn [exp_tokens]. rewrite tokens_flat_map. cbn [exps].
  rewrite Forall_forall. split.
  - intros H t Hin. apply in_flat_map in Hin. destruct Hin as (e & He & Ht).
    exact (H e He t Ht).
  - intros H e He t Ht. apply H. apply in_flat_map. eauto.
Qed.

Lemma below_exps (TI : Token -> Prop) (n : Node) :
  below TI (ENode n) -> Forall (below TI) (exps n).
Proof. destruct n as [nm l s]. apply below_node. Qed.

Lemma below_hd (TI : Token -> Prop) (l : list exp) (e : exp) :
  Forall (below TI) l -> hd_error l = Some e -> below TI e.
Proof.
  intros H He. apply hd_error_In in He. rewrite Forall_forall in H. auto.
Qed.

Section Invariant.

Variable G : kind_id -> Kind.
Variable LI : Lexer -> Prop.
Variable CI : nat -> Prop.
Variable TI : Token -> Prop.
Variable EOK : ShapeExp -> Prop.
Variable KOK : Kind -> Prop.

Hypothesis LI_cursor : forall lx, LI lx -> CI (cursor lx).
Hypothesis LI_set_cursor : forall lx c, LI lx -> CI c -> LI (set_cursor lx c).
Hypothesis LI_taste : forall regex lx r lx', LI lx -> taste regex lx = (r, lx') -> LI lx'.
Hypothesis eat_text :
  forall se p lx r lx',
    EOK se -> se_value se = VText p -> LI lx -> eat (Some p) lx = (r, lx') ->
    LI lx' /\ (forall t, r = Some t -> TI t).
Hypothesis eat_space :
  forall lx r lx',
    LI lx -> eat (Some (PRe WHITESPACE_REGEX)) lx = (r, lx') ->
    LI lx' /\ (forall t, r = Some t -> TI t).
Hypothesis eat_missing :
  forall K g lx t lx',
    KOK K -> allowIncompleteParse K = true -> LI lx ->
    eat (Some (PRe RegExp_empty)) lx = (Some t, lx') ->
    LI lx' /\ TI (missing_token t g).
Hypothesis TI_shapeExp :
  forall t self,
    TI t ->
    TI (mkToken (type t) (value t) (start t) (end_ t) (line t) (col t) (indent t)
                (isMissing t) (Some self)).
Hypothesis EOK_option :
  forall se l, EOK se -> se_value se = VOption l -> Forall EOK l.
Hypothesis EOK_sub :
  forall se l, EOK se -> se_value se = VSubShape l -> KOK (SUB_SHAPE_AST l).
Hypothesis EOK_ast : forall se k, EOK se -> se_value se = VAst k -> KOK (G k).
Hypothesis EOK_lazy : forall se k, EOK se -> se_value se = VLazy k -> KOK (G k).
Hypothesis KOK_shape : forall K, KOK K -> Forall EOK (SHAPE K).
Hypothesis KOK_right :
  forall K first tail, KOK K -> SHAPE K = first :: tail -> KOK (RIGHT K tail).

Section Step.

Variable rec : parse_exp_t.
Hypothesis rec_keeps : keeps LI TI EOK rec.

Lemma set_shapeExp_below (self : ShapeExp) (e : exp) :
  below TI e -> below TI (set_shapeExp self e).
Proof.
  destruct e as [t|n]; cbn [set_shapeExp].
  - intros H t' [<-|[]]. apply TI_shapeExp. apply H. now left.
  - intros H. apply below_node. now apply below_exps.
Qed.

Lemma AST_loop_keeps (K : Kind) :
  KOK K ->
  forall shape shapeIndex startCursor firstExpCursor firstExp exps lx r lx',
    Forall EOK shape -> LI lx -> CI startCursor -> CI firstExpCursor ->
    Forall (below TI) exps ->
    (forall x, firstExp = Some x -> below TI x) ->
    AST_loop rec K shape shapeIndex startCursor firstExpCursor firstExp exps lx
      = Ok (r, lx') ->
    LI lx' /\ (forall e, r = Some e -> below TI e).
Proof.
  intros HK. induction shape as [|g rest IH];
    intros shapeIndex sc fc fe exps lx r lx' Hsh Hlx Hsc Hfc Hex Hfe H;
    cbn [AST_loop] in H.
  - injection H as <- <-. split; [exact Hlx|].
    intros e He. injection He as <-. now apply below_node.
  - inversion Hsh as [|? ? Hg Hrest]; subst.
    bind_inv H E. destruct (rec_keeps Hg Hlx E) as [Hlx0 Hrs].
    destruct r0 as [rs|].
    + specialize (Hrs rs eq_refl).
      eapply IH in H; eauto.
      * destruct (negb (TEXT_EXP g) && (shapeIndex =? 0)); auto.
      * apply Forall_app. auto.
      * intros x. destruct (negb (TEXT_EXP g) && (shapeIndex =? 0)).
        -- now apply below_hd.
        -- apply Hfe.
    + cbn zeta iota beta in H.
      destruct (allowIncompleteParse K) eqn:Ea; cbn [andb] in H.
      * destruct (incompleteParseThreshold K <=? content_count exps).
        -- destruct (eat (Some (PRe RegExp_empty)) lx0) as [[t|] lx2] eqn:Ee;
             [|discriminate].
           destruct (eat_missing g HK Ea Hlx0 Ee) as [Hlx2 Ht].
           eapply IH in H; eauto.
           apply Forall_app. split; [exact Hex|].
           constructor; [|constructor]. intros t' [<-|[]]. exact Ht.
        -- destruct (fallbackToFirstExp K); injection H as <- <-.
           ++ split; [now apply LI_set_cursor|exact Hfe].
           ++ split; [now apply LI_set_cursor|discriminate].
      * destruct (fallbackToFirstExp K); injection H as <- <-.
        -- split; [now apply LI_set_cursor|exact Hfe].
        -- split; [now apply LI_set_cursor|discriminate].
Qed.

Lemma AST_parse_keeps (K : Kind) (lx : Lexer) (r : option exp) (lx' : Lexer) :
  KOK K -> LI lx -> AST_parse rec K lx = Ok (r, lx') ->
  LI lx' /\ (forall e, r = Some e -> below TI e).
Proof.
  intros HK Hlx H. unfold AST_parse in H.
  eapply AST_loop_keeps in H; eauto.
  discriminate.
Qed.

Lemma LEFT_RECURSIVE_loop_keeps (K : Kind) (first : ShapeExp) (tail : list ShapeExp)
    (leftCursor : nat) :
  KOK (RIGHT K tail) -> CI leftCursor ->
  forall n left_ lx r lx',
    LI lx -> (forall x, left_ = Some x -> below TI x) ->
    LEFT_RECURSIVE_loop rec n K first tail leftCursor left_ lx = Ok (r, lx') ->
    LI lx' /\ (forall e, r = Some e -> below TI e).
Proof.
  intros HK Hlc. induction n as [|n IH]; intros left_ lx r lx' Hlx Hl H;
    cbn [LEFT_RECURSIVE_loop] in H; [discriminate|].
  destruct (taste (se_rightDelimeter first) lx) as [[d|] lx1] eqn:Et;
    pose proof (LI_taste _ Hlx Et) as Hlx1.
  - bind_inv H E. destruct (AST_parse_keeps HK Hlx1 E) as [Hlx0 Hr].
    destruct r0 as [[t|rn]|].
    + discriminate.
    + destruct left_ as [l|]; [|discriminate].
      eapply IH in H; eauto.
      intros x Hx. injection Hx as <-. apply below_node.
      constructor; [now apply Hl|]. apply below_exps. now apply Hr.
    + injection H as <- <-. split; [now apply LI_set_cursor|exact Hl].
  - injection H as <- <-. split; [exact Hlx1|exact Hl].
Qed.

Lemma Kind_parse_keeps (n : nat) (K : Kind) (lx : Lexer) (r : option exp) (lx' : Lexer) :
  KOK K -> LI lx -> Kind_parse rec n K lx = Ok (r, lx') ->
  LI lx' /\ (forall e, r = Some e -> below TI e).
Proof.
  intros HK Hlx. unfold Kind_parse, AST_LEFT_RECURSIVE_parse. destruct (driver K).
  - now apply AST_parse_keeps.
  - destruct (SHAPE K) as [|first tail] eqn:Es; [discriminate|].
    intros H. bind_inv H E.
    pose proof (KOK_shape HK) as Hsh. rewrite Es in Hsh.
    inversion Hsh as [|? ? Hf _]; subst.
    destruct (rec_keeps Hf Hlx E) as [Hlx0 Hrs].
    destruct r0 as [rs|].
    + eapply LEFT_RECURSIVE_loop_keeps in H; eauto.
      intros x. apply below_hd. now apply Hrs.
    + injection H as <- <-. split; [exact Hlx0|discriminate].
Qed.

Lemma OPTION_loop_keeps (opts : list ShapeExp) :
  Forall EOK opts ->
  forall lx r lx',
    LI lx -> OPTION_loop rec opts lx = Ok (r, lx') ->
    LI lx' /\ (forall x, r = Some x -> result_below TI x).
Proof.
  induction 1 as [|o rest Ho _ IH]; intros lx r lx' Hlx H; cbn [OPTION_loop] in H.
  - injection H as <- <-. split; [exact Hlx|discriminate].
  - bind_inv H E. destruct (rec_keeps Ho Hlx E) as [Hlx0 Hrs].
    destruct r0 as [l|].
    + injection H as <- <-. split; [exact Hlx0|].
      intros x Hx. injection Hx as <-. now apply Hrs.
    + now apply IH in H.
Qed.

Lemma AST_EXP_result_keeps (n : nat) (k : kind_id) (lx : Lexer)
    (r : option result) (lx' : Lexer) :
  KOK (G k) -> LI lx -> AST_EXP_result G rec n k lx = Ok (r, lx') ->
  LI lx' /\ (forall x, r = Some x -> result_below TI x).
Proof.
  intros HK Hlx.
  assert (Hcall : forall lx0, LI lx0 ->
             bind (Kind_parse rec n (G k) lx0)
                  (fun '(r0, lx1) => Ok (option_map RSingle r0, lx1)) = Ok (r, lx') ->
             LI lx' /\ (forall x, r = Some x -> result_below TI x)).
  { intros lx0 Hlx0 H. bind_inv H E. injection H as <- <-.
    destruct (Kind_parse_keeps _ HK Hlx0 E) as [Hl Hr]. split; [exact Hl|].
    intros x Hx. destruct r0 as [e|]; [|discriminate]. injection Hx as <-.
    now apply Hr. }
  unfold AST_EXP_result. destruct (SHAPE (G k)) as [|f tl]; [now apply Hcall|].
  destruct (se_value f); try now apply Hcall.
  destruct (taste (Some p) lx) as [[v|] lx1] eqn:Et;
    pose proof (LI_taste _ Hlx Et) as Hlx1; intros H.
  - now apply Hcall in H.
  - injection H as <- <-. split; [exact Hlx1|discriminate].
Qed.

Lemma iteration_result_keeps (n : nat) (self : ShapeExp) (lx : Lexer)
    (r : option result) (lx' : Lexer) :
  EOK self -> LI lx -> iteration_result G rec n self lx = Ok (r, lx') ->
  LI lx' /\ (forall x, r = Some x -> result_below TI x).
Proof.
  intros Hs Hlx. unfold iteration_result.
  destruct (se_value self) as [p|k|opts|shape|k] eqn:Ev.
  - destruct (eat (Some p) lx) as [[t|] lx1] eqn:E;
      destruct (eat_text Hs Ev Hlx E) as [Hl Ht]; intros H; injection H as <- <-.
    + split; [exact Hl|]. intros x Hx. injection Hx as <-.
      intros t' [<-|[]]. now apply Ht.
    + split; [exact Hl|discriminate].
  - apply AST_EXP_result_keeps; eauto.
  - apply OPTION_loop_keeps; eauto.
  - intros H. bind_inv H E.
    destruct (AST_parse_keeps (EOK_sub Hs Ev) Hlx E) as [Hl Hr].
    destruct r0 as [[t|a]|]; injection H as <- <-; (split; [exact Hl|]);
      try discriminate.
    intros x Hx. injection Hx as <-. apply below_exps. now apply Hr.
  - apply AST_EXP_result_keeps; eauto.
Qed.

Lemma eat_whitespace_keeps (fuel : nat) :
  forall results lx rs lx',
    LI lx -> Forall (below TI) results ->
    eat_whitespace fuel results lx = (rs, lx') ->
    LI lx' /\ Forall (below TI) rs.
Proof.
  induction fuel as [|f IH]; intros results lx rs lx' Hlx Hok H;
    rewrite eat_whitespace_eq in H;
    destruct (eat (Some (PRe WHITESPACE_REGEX)) lx) as [[t|] lx1] eqn:E;
    destruct (eat_space Hlx E) as [Hl Ht].
  - injection H as <- <-. split; [exact Hl|]. apply Forall_app. split; [exact Hok|].
    constructor; [|constructor]. intros t' [<-|[]]. now apply Ht.
  - injection H as <- <-. auto.
  - apply IH in H; auto. apply Forall_app. split; [exact Hok|].
    constructor; [|constructor]. intros t' [<-|[]]. now apply Ht.
  - injection H as <- <-. auto.
Qed.

Lemma ShapeExp_loop_keeps (self : ShapeExp) (startCursor : nat) :
  EOK self -> CI startCursor ->
  forall n expIndex results lx r lx',
    LI lx -> Forall (below TI) results ->
    ShapeExp_loop G rec n self startCursor expIndex results lx = Ok (r, lx') ->
    LI lx' /\ (forall rs, r = Some rs -> Forall (below TI) rs).
Proof.
  intros Hs Hsc. induction n as [|n IH]; intros expIndex results lx r lx' Hlx Hok H;
    cbn [ShapeExp_loop] in H; [discriminate|].
  destruct (lt_max expIndex (se_max self)).
  2:{ injection H as <- <-. split; [exact Hlx|]. intros rs Hr. now injection Hr as <-. }
  destruct (taste (se_rightDelimeter self) lx) as [d lx0] eqn:Et.
  pose proof (LI_taste _ Hlx Et) as Hlx0.
  destruct (match d with None => true | Some _ => false end || (expIndex =? 0)).
  2:{ injection H as <- <-. split; [exact Hlx0|]. intros rs Hr. now injection Hr as <-. }
  destruct (eat_whitespace (length (str lx0)) results lx0) as [results1 lx1] eqn:Ew.
  destruct (@eat_whitespace_keeps _ _ _ _ _ Hlx0 Hok Ew) as [Hlx1 Hok1].
  bind_inv H E. destruct (@iteration_result_keeps _ _ _ _ _ Hs Hlx1 E) as [Hlx2 Hres].
  destruct r0 as [res|].
  - apply IH in H; auto.
    specialize (Hres res eq_refl).
    destruct res as [e|l]; cbn [push_result]; apply Forall_app; split; trivial.
    constructor; [|constructor]. now apply set_shapeExp_below.
  - destruct (se_min self <=? expIndex); injection H as <- <-.
    + split; [exact Hlx2|]. intros rs Hr. now injection Hr as <-.
    + split; [now apply LI_set_cursor|discriminate].
Qed.

End Step.

Lemma ShapeExp_parse_keeps (fuel : nat) : keeps LI TI EOK (ShapeExp_parse G fuel).
Proof.
  induction fuel as [|f IH]; intros se lx r lx' Hs Hlx H; cbn [ShapeExp_parse] in H;
    [discriminate|].
  eapply ShapeExp_loop_keeps in H; eauto.
Qed.

Lemma parse_keeps (fuel : nat) (K : Kind) (lx : Lexer) (r : option exp) (lx' : Lexer) :
  KOK K -> LI lx -> parse G fuel K lx = Ok (r, lx') ->
  LI lx' /\ (forall e, r = Some e -> below TI e).
Proof.
  intros HK Hlx H. unfold parse in H.
  eapply Kind_parse_keeps in H; eauto. apply ShapeExp_parse_keeps.
Qed.

End Invariant.

(** ** The input and the cursor stack under a parse *)

Lemma eat_same_input (regex : option pattern) (lx : Lexer) (r : option Token)
    (lx' : Lexer) :
  eat regex lx = (r, lx') ->
  str lx' = str lx /\ cursorStack lx' = cursorStack lx.
Proof.
  intros E. split; [now apply eat_cursor in E|].
  destruct regex as [p|]; [|injection E as <- <-; reflexivity].
  destruct r as [t|].
  - apply eat_token in E. destruct E as (v & lx1 & _ & H). cbv zeta in H.
    now destruct H as (_ & _ & _ & _ & _ & _ & _ & _ & _ & _ & H).
  - unfold eat in E. destruct (taste (Some p) lx) as [[v|] lx1] eqn:Et;
      [discriminate|]. injection E as <-. now apply taste_fields in Et.
Qed.

(** No parse touches the input or the cursor stack: whatever a kind's
    [parse] returns, the scanner holds the same [str] and the same
    [cursorStack] as on entry. *)
Theorem parse_preserves_input (G : kind_id -> Kind) (fuel : nat) (K : Kind)
    (lx : Lexer) (r : option exp) (lx' : Lexer) :
  parse G fuel K lx = Ok (r, lx') ->
  str lx' = str lx /\ cursorStack lx' = cursorStack lx.
Proof.
  intros H.
  apply (@parse_keeps G
           (fun l => str l = str lx /\ cursorStack l = cursorStack lx)
           (fun _ => True) (fun _ => True) (fun _ => True) (fun _ => True)) in H.
  - exact (proj1 H).
  - trivial.
  - intros l c [H1 H2] _. auto.
  - intros regex l r0 l' [H1 H2] E. apply taste_fields in E.
    destruct E as (E1 & _ & E2). split; congruence.
  - intros se p l r0 l' _ _ [H1 H2] E. apply eat_same_input in E.
    destruct E as (E1 & E2). split; [split; congruence|trivial].
  - intros l r0 l' [H1 H2] E. apply eat_same_input in E.
    destruct E as (E1 & E2). split; [split; congruence|trivial].
  - intros K0 g l t l' _ _ [H1 H2] E. apply eat_same_input in E.
    destruct E as (E1 & E2). split; [split; congruence|trivial].
  - trivial.
  - intros se l _ _. apply Forall_forall. trivial.
  - trivial.
  - trivial.
  - trivial.
  - intros K0 _. apply Forall_forall. trivial.
  - trivial.
  - exact I.
  - split; reflexivity.
Qed.

Lemma parse_preserves_input_witness :
  let lx := pushCursor (Lexer_new (lit "2+3")) in
  let r := parse Samples.G 5 Samples.ADD lx in
  r = Ok (got_exp r, got_lexer r) /\
  str (got_lexer r) = str lx /\ cursorStack (got_lexer r) = cursorStack lx.
Proof.
  intros lx r.
  assert (E : r = Ok (got_exp r, got_lexer r)) by (vm_compute; reflexivity).
  split; [exact E|].
  exact (@parse_preserves_input Samples.G 5 Samples.ADD lx _ _ E).
Defined.

(** ** Kinds without incomplete parses *)

(** When no node kind of the grammar allows incomplete parses, no token of
    a parse tree is flagged [isMissing], and [validate] on the node
    returned reports nothing. *)
Theorem no_incomplete_no_missing (G : kind_id -> Kind) (fuel : nat) (K : Kind)
    (lx : Lexer) (e : exp) (lx' : Lexer) :
  (forall k, allowIncompleteParse (G k) = false) ->
  allowIncompleteParse K = false ->
  parse G fuel K lx = Ok (Some e, lx') ->
  (forall t, In t (exp_tokens e) -> isMissing t = false) /\
  (forall n, e = ENode n -> validate n = []).
Proof.
  intros HG HK H.
  assert (Hb : below (fun t => isMissing t = false) e).
  { apply (@parse_keeps G (fun _ => True) (fun _ => True)
             (fun t => isMissing t = false) (fun _ => True)
             (fun K0 => allowIncompleteParse K0 = false)) in H.
    - now apply (proj2 H).
    - trivial.
    - trivial.
    - trivial.
    - intros se p l r0 l' _ _ _ E. split; [exact I|].
      intros t ->. apply eat_token in E. destruct E as (v & lx1 & _ & E).
      cbv zeta in E. now destruct E as (_ & _ & _ & _ & _ & _ & E & _).
    - intros l r0 l' _ E. split; [exact I|].
      intros t ->. apply eat_token in E. destruct E as (v & lx1 & _ & E).
      cbv zeta in E. now destruct E as (_ & _ & _ & _ & _ & _ & E & _).
    - intros K0 g l t l' H0 H1. congruence.
    - intros t self Ht. exact Ht.
    - intros se l _ _. apply Forall_forall. trivial.
    - reflexivity.
    - intros se k _ _. apply HG.
    - intros se k _ _. apply HG.
    - intros K0 _. apply Forall_forall. trivial.
    - intros K0 first tail H0 _. exact H0.
    - exact HK.
    - exact I. }
  split; [exact Hb|].
  intros n ->. rewrite validate_flat_map.
  assert (Hall : forall l, (forall t, In t l -> isMissing t = false) ->
                           flat_map diagnostics_of l = []).
  { induction l as [|t l IH]; intros Hl; [reflexivity|].
    simpl. unfold diagnostics_of at 1. rewrite (Hl t) by now left.
    apply IH. intros t' Hin. apply Hl. now right. }
  apply Hall. exact Hb.
Qed.

Lemma no_incomplete_grammar (k : kind_id) :
  allowIncompleteParse
    (if String.eqb k "$NUMBER" then Samples.NUMBER
     else if String.eqb k "$ADD" then Samples.ADD
     else AST_defaults k []) = false.
Proof. destruct (String.eqb k "$NUMBER"), (String.eqb k "$ADD"); reflexivity. Qed.

Lemma no_incomplete_no_missing_witness :
  let G := fun k => if String.eqb k "$NUMBER" then Samples.NUMBER
                    else if String.eqb k "$ADD" then Samples.ADD
                    else AST_defaults k [] in
  let r := parse G 5 Samples.ADD (Lexer_new (lit "2+3")) in
  let e := match got_exp r with
           | Some e => e
           | None => ETok (mkToken (PStr []) [] 0 0 0 0 0 false None)
           end in
  (forall k, allowIncompleteParse (G k) = false) /\
  allowIncompleteParse Samples.ADD = false /\
  r = Ok (Some e, got_lexer r) /\
  (forall t, In t (exp_tokens e) -> isMissing t = false) /\
  (forall n, e = ENode n -> validate n = []).
Proof.
  intros G r e.
  assert (E : r = Ok (Some e, got_lexer r)) by (vm_compute; reflexivity).
  split; [exact no_incomplete_grammar|]. split; [reflexivity|]. split; [exact E|].
  exact (@no_incomplete_no_missing G 5 Samples.ADD (Lexer_new (lit "2+3")) e
           (got_lexer r) no_incomplete_grammar eq_refl E).
Defined.

(** ** Positions of the tokens of a tree *)

Lemma eat_indent (p : pattern) (lx : Lexer) (t : Token) (lx' : Lexer) :
  eat (Some p) lx = (Some t, lx') ->
  indent t = if (line t <? 0)%Z then 0
             else nth (Z.to_nat (line t)) (lineIndents lx) 0.
Proof.
  unfold eat. destruct (taste (Some p) lx) as [[v|] lx1] eqn:E; [|discriminate].
  intros H. injection H as <- <-.
  apply taste_fields in E. destruct E as (Es & _ & _).
  cbv zeta. simpl. unfold lineIndents, lines. simpl. rewrite Es. reflexivity.
Qed.

(** A token whose text is found at the cursor, inside the input, is
    positioned. *)
Lemma eat_positioned_at (p : pattern) (lx : Lexer) (t : Token) (lx' : Lexer) :
  eat (Some p) lx = (Some t, lx') ->
  slice (str lx) (cursor lx) (cursor lx + length (value t)) = value t ->
  cursor lx + length (value t) <= length (str lx) ->
  positioned (str lx) t /\ cursor lx' = cursor lx + length (value t).
Proof.
  intros E Hsl Hb. pose proof (eat_indent _ _ E) as Hind.
  apply eat_token in E. destruct E as (v & lx1 & Et & H). cbv zeta in H.
  destruct H as (_ & Hv & Hs & He & Hl & Hc & _ & _ & _ & Hcur & _).
  pose proof (taste_tasteCursor _ _ Et) as Htc. rewrite Htc in *.
  replace (cursor lx + length v - length v) with (cursor lx) in * by lia.
  rewrite Hv in *.
  assert (Hle : cursor lx <= length (str lx)) by lia.
  destruct (currentLine_at lx Hle) as (i & st & en & Hbs & Hn & H1 & H2 & H3).
  split; [|exact Hcur].
  unfold positioned. rewrite Hs, He, Hv. split; [exact Hsl|]. split; [reflexivity|].
  split; [exact Hb|].
  exists i, st, en. rewrite Hl, Hbs.
  split; [reflexivity|]. split; [exact Hn|]. split; [exact H1|]. split; [exact H2|].
  split.
  - rewrite Hc. unfold lastIndexOf_nl.
    destruct (cursor lx) as [|c] eqn:Ec.
    + assert (st = 0) by lia. subst st. simpl Z.of_nat. simpl Z.to_nat.
      pose proof (last_nl_upto_ge (str lx) 1).
      destruct (0 - last_nl_upto (str lx) 1 - 1 <? 0)%Z eqn:E;
        [reflexivity|apply Z.ltb_ge in E; lia].
    + replace (S (Z.to_nat (Z.of_nat (S c) - 1))) with (S c) by lia.
      destruct (Z.of_nat (S c) - last_nl_upto (str lx) (S c) - 1 <? 0)%Z eqn:E;
        [apply Z.ltb_lt in E|apply Z.ltb_ge in E]; lia.
  - rewrite Hind, Hl, Hbs.
    destruct (Z.of_nat i <? 0)%Z eqn:E; [apply Z.ltb_lt in E; lia|].
    rewrite Nat2Z.id. reflexivity.
Qed.

Lemma eat_anchored_positioned (s : jstr) (p : pattern) (lx : Lexer)
    (r : option Token) (lx' : Lexer) :
  anchored p ->
  str lx = s /\ cursor lx <= length s ->
  eat (Some p) lx = (r, lx') ->
  (str lx' = s /\ cursor lx' <= length s) /\
  (forall t, r = Some t -> positioned s t).
Proof.
  intros Ha [Hs Hc] E. destruct r as [t|].
  - pose proof E as E0. apply eat_token in E0.
    destruct E0 as (v & lx1 & Et & H). cbv zeta in H.
    destruct H as (_ & Hv & _ & _ & _ & _ & _ & _ & Hstr & _).
    pose proof (taste_anchored _ _ Ha Et) as (Hsl & Hb & _).
    rewrite <- Hv in Hsl, Hb.
    destruct (eat_positioned_at _ _ E Hsl Hb) as [Hp Hcur].
    subst s. split; [split; [exact Hstr|lia]|].
    intros t' Ht. injection Ht as <-. exact Hp.
  - apply eat_cursor in E. destruct E as (E1 & _ & E2).
    split; [split; [congruence|rewrite E2 by reflexivity; exact Hc]|discriminate].
Qed.

(** Token positioning over a whole tree.  With a grammar whose patterns
    are literals or sticky (what the [Shape] constructor builds) and a
    cursor inside the input, every token of the tree a parse returns,
    white space and missing tokens included, sits where it says: the input
    between [start] and [end] is its [value], [end] is inside the input,
    [line] is the line of [start], [col] its offset in that line, [indent]
    the indent of that line; and the cursor is still inside the input. *)
Theorem parse_tokens_positioned (G : kind_id -> Kind) (fuel : nat) (K : Kind)
    (lx : Lexer) (r : option exp) (lx' : Lexer) :
  (forall k, Forall anchored_exp (SHAPE (G k))) ->
  Forall anchored_exp (SHAPE K) ->
  cursor lx <= length (str lx) ->
  parse G fuel K lx = Ok (r, lx') ->
  cursor lx' <= length (str lx) /\
  (forall e t, r = Some e -> In t (exp_tokens e) -> positioned (str lx) t).
Proof.
  intros HG HK Hc H.
  apply (@parse_keeps G
           (fun l => str l = str lx /\ cursor l <= length (str lx))
           (fun c => c <= length (str lx))
           (positioned (str lx)) anchored_exp
           (fun K0 => Forall anchored_exp (SHAPE K0))) in H.
  - destruct H as [[_ H1] H2]. split; [exact H1|].
    intros e t He Hin. exact (H2 e He t Hin).
  - intros l [_ Hl]. exact Hl.
  - intros l c [H1 _] H2. split; [exact H1|exact H2].
  - intros regex l r0 l' [H1 H2] E. apply taste_fields in E.
    destruct E as (E1 & E2 & _). split; congruence.
  - intros se p l r0 l' Hse Ev Hl E.
    unfold anchored_exp in Hse. rewrite Ev in Hse.
    exact (@eat_anchored_positioned (str lx) p l r0 l' Hse Hl E).
  - intros l r0 l' Hl E.
    exact (@eat_anchored_positioned (str lx) (PRe WHITESPACE_REGEX) l r0 l'
             eq_refl Hl E).
  - intros K0 g l t l' _ _ [H1 H2] E.
    destruct (eat_empty_regexp l) as (t0 & l0 & E0 & Hv & _ & _ & _ & Hs0).
    rewrite E0 in E. injection E as <- <-.
    assert (Hsl : slice (str l) (cursor l) (cursor l + length (value t0)) = value t0).
    { rewrite Hv. unfold slice. simpl length. rewrite Nat.add_0_r, Nat.sub_diag.
      reflexivity. }
    assert (Hb : cursor l + length (value t0) <= length (str l)).
    { rewrite Hv, H1. simpl. lia. }
    destruct (eat_positioned_at _ _ E0 Hsl Hb) as [Hp Hcur].
    rewrite Hv in Hcur. simpl in Hcur.
    split; [split; [congruence|lia]|].
    rewrite H1 in Hp. exact Hp.
  - intros t self Ht. exact Ht.
  - intros se l Hse Ev. unfold anchored_exp in Hse. rewrite Ev in Hse.
    now apply anchored_value_list.
  - intros se l Hse Ev. unfold anchored_exp in Hse. rewrite Ev in Hse.
    now apply anchored_value_sub.
  - intros se k _ _. apply HG.
  - intros se k _ _. apply HG.
  - trivial.
  - intros K0 first tail H0 Es. rewrite Es in H0.
    inversion H0; subst. assumption.
  - exact HK.
  - split; [reflexivity|exact Hc].
Qed.

Lemma Samples_G_anchored (k : kind_id) : Forall anchored_exp (SHAPE (Samples.G k)).
Proof.
  unfold Samples.G.
  repeat match goal with
         | |- context [String.eqb ?a ?b] => destruct (String.eqb a b)
         end;
    repeat constructor.
Qed.

Lemma parse_tokens_positioned_witness :
  let lx := Lexer_new (lit "1 +" ++ [NL] ++ lit "  2") in
  let r := parse Samples.G 5 Samples.ADD lx in
  (forall k, Forall anchored_exp (SHAPE (Samples.G k))) /\
  Forall anchored_exp (SHAPE Samples.ADD) /\
  cursor lx <= length (str lx) /\
  r = Ok (got_exp r, got_lexer r) /\
  cursor (got_lexer r) <= length (str lx) /\
  (forall e t, got_exp r = Some e -> In t (exp_tokens e) -> positioned (str lx) t).
Proof.
  intros lx r.
  assert (E : r = Ok (got_exp r, got_lexer r)) by (vm_compute; reflexivity).
  assert (Hc : cursor lx <= length (str lx)) by (vm_compute; lia).
  split; [exact Samples_G_anchored|]. split; [exact (Samples_G_anchored "$ADD"%string)|].
  split; [exact Hc|]. split; [exact E|].
  exact (@parse_tokens_positioned Samples.G 5 Samples.ADD lx _ _
           Samples_G_anchored (Samples_G_anchored "$ADD"%string) Hc E).
Defined.

(** ** Failure and the cursor, by the shape of the kind *)

(** Past position 0 the loop of [$AST.parse] no longer records a first
    expression, so a run that returns nothing ends at the entry cursor as
    long as the recorded cursor is the entry cursor whenever nothing is
    recorded. *)
Lemma AST_loop_failure_later (rec : parse_exp_t) (K : Kind) :
  forall shape shapeIndex startCursor firstExpCursor firstExp exps lx lx',
    1 <= shapeIndex ->
    (firstExp = None -> firstExpCursor = startCursor) ->
    AST_loop rec K shape shapeIndex startCursor firstExpCursor firstExp exps lx
      = Ok (None, lx') ->
    cursor lx' = startCursor.
Proof.
  induction shape as [|g rest IH];
    intros shapeIndex sc fc fe exps lx lx' Hi Hinv H; cbn [AST_loop] in H.
  - discriminate.
  - bind_inv H E.
    assert (Ei : (shapeIndex =? 0) = false) by (apply Nat.eqb_neq; lia).
    rewrite Ei, andb_false_r in H.
    destruct r as [rs|].
    + apply IH in H; [exact H|lia|exact Hinv].
    + cbn zeta iota beta in H.
      destruct (allowIncompleteParse K && (incompleteParseThreshold K <=? content_count exps)).
      * destruct (eat (Some (PRe RegExp_empty)) lx0) as [[t|] lx2]; [|discriminate].
        apply IH in H; [exact H|lia|exact Hinv].
      * destruct (fallbackToFirstExp K).
        -- injection H as Hfe <-. cbn [set_cursor cursor]. now apply Hinv.
        -- injection H as <-. reflexivity.
Qed.

Lemma AST_parse_failure_first (rec : parse_exp_t) (K : Kind) (first : ShapeExp)
    (rest : list ShapeExp) (lx lx' : Lexer) :
  SHAPE K = first :: rest ->
  (forall l rs l', rec first l = Ok (Some rs, l') -> rs <> []) ->
  AST_parse rec K lx = Ok (None, lx') ->
  cursor lx' = cursor lx.
Proof.
  intros Es Hne H. unfold AST_parse in H. rewrite Es in H. cbn [AST_loop] in H.
  bind_inv H E. destruct r as [rs|].
  - apply AST_loop_failure_later in H; [exact H|lia|].
    destruct (negb (TEXT_EXP first) && (0 =? 0)); [|reflexivity].
    apply Hne in E. destruct rs; [congruence|discriminate].
  - cbn zeta iota beta in H.
    destruct (allowIncompleteParse K && (incompleteParseThreshold K <=? content_count [])).
    + destruct (eat (Some (PRe RegExp_empty)) lx0) as [[t|] lx2]; [|discriminate].
      apply AST_loop_failure_later in H; [exact H|lia|reflexivity].
    + destruct (fallbackToFirstExp K); injection H as <-; reflexivity.
Qed.

(** The loop of the left-recursive driver hands back the node it was
    given or a fold over it, never nothing. *)
Lemma LEFT_RECURSIVE_loop_some (rec : parse_exp_t) (K : Kind) (first : ShapeExp)
    (tail : list ShapeExp) (leftCursor : nat) :
  forall n l lx r lx',
    LEFT_RECURSIVE_loop rec n K first tail leftCursor (Some l) lx = Ok (r, lx') ->
    r <> None.
Proof.
  induction n as [|n IH]; intros l lx r lx' H; cbn [LEFT_RECURSIVE_loop] in H;
    [discriminate|].
  destruct (taste (se_rightDelimeter first) lx) as [[d|] lx1].
  - bind_inv H E. destruct r0 as [[t|nd]|].
    + discriminate.
    + now apply IH in H.
    + injection H as <- <-. discriminate.
  - injection H as <- <-. discriminate.
Qed.

(** A kind whose shape starts with a literal, a pattern or a node
    reference taken at least once: whichever driver it has, when its
    [parse] returns nothing the cursor is back at the entry position. *)
Theorem parse_failure_restores (G : kind_id -> Kind) (fuel : nat) (K : Kind)
    (first : ShapeExp) (rest : list ShapeExp) (lx lx' : Lexer) :
  SHAPE K = first :: rest ->
  single_result first = true ->
  1 <= se_min first ->
  lt_max 0 (se_max first) = true ->
  parse G fuel K lx = Ok (None, lx') ->
  cursor lx' = cursor lx.
Proof.
  intros Es Hs Hmin Hmax H.
  assert (Hne : forall l rs l',
             ShapeExp_parse G fuel first l = Ok (Some rs, l') -> rs <> []).
  { intros l rs l' E. destruct fuel as [|f]; cbn [ShapeExp_parse] in E;
      [discriminate|].
    eapply ShapeExp_loop_nonempty in E; eauto. }
  unfold parse, Kind_parse in H. destruct (driver K).
  - exact (@AST_parse_failure_first _ K first rest lx lx' Es Hne H).
  - unfold AST_LEFT_RECURSIVE_parse in H. rewrite Es in H.
    bind_inv H E. destruct r as [rs|].
    + apply Hne in E. destruct rs as [|e rs]; [congruence|].
      apply LEFT_RECURSIVE_loop_some in H. congruence.
    + injection H as <-. now apply ShapeExp_parse_failure_restores in E.
Qed.

Lemma parse_failure_restores_witness :
  let open := Samples.one (VText (Samples.S_ "("%string)) None in
  let rest := [Samples.one (VAst "$NUMBER"%string) None;
               Samples.one (VText (Samples.S_ ")"%string)) None] in
  let K := AST_defaults "$PAREN"%string (open :: rest) in
  let lx := set_cursor (Lexer_new (lit "x (1"%string)) 2 in
  let r := parse Samples.G 5 K lx in
  r = Ok (None, got_lexer r) /\ cursor lx = 2 /\ cursor (got_lexer r) = cursor lx.
Proof.
  intros open rest K lx r.
  assert (E : r = Ok (None, got_lexer r)) by (vm_compute; reflexivity).
  split; [exact E|]. split; [reflexivity|].
  apply (@parse_failure_restores Samples.G 5 K open rest lx (got_lexer r)).
  - reflexivity.
  - reflexivity.
  - vm_compute. lia.
  - reflexivity.
  - exact E.
Defined.

Lemma AST_loop_no_fallback (rec : parse_exp_t) (K : Kind) :
  fallbackToFirstExp K = false ->
  forall shape shapeIndex startCursor firstExpCursor firstExp exps lx lx',
    AST_loop rec K shape shapeIndex startCursor firstExpCursor firstExp exps lx
      = Ok (None, lx') ->
    cursor lx' = startCursor.
Proof.
  intros Hf.
  induction shape as [|g rest IH];
    intros shapeIndex sc fc fe exps lx lx' H; cbn [AST_loop] in H;
    [discriminate|].
  bind_inv H E. destruct r as [rs|].
  - now apply IH in H.
  - cbn zeta iota beta in H.
    destruct (allowIncompleteParse K && (incompleteParseThreshold K <=? content_count exps)).
    + destruct (eat (Some (PRe RegExp_empty)) lx0) as [[t|] lx2]; [|discriminate].
      now apply IH in H.
    + rewrite Hf in H. injection H as <-. reflexivity.
Qed.

(** With [fallbackToFirstExp] off, [$AST.parse] returning nothing always
    leaves the cursor at the entry position, whatever the expressions of
    the shape did to it. *)
Theorem AST_parse_no_fallback_restores (G : kind_id -> Kind) (fuel : nat)
    (K : Kind) (lx lx' : Lexer) :
  driver K = BaseDriver ->
  fallbackToFirstExp K = false ->
  parse G fuel K lx = Ok (None, lx') ->
  cursor lx' = cursor lx.
Proof.
  intros Hd Hf H. unfold parse, Kind_parse in H. rewrite Hd in H.
  unfold AST_parse in H. now apply (AST_loop_no_fallback _ _ Hf) in H.
Qed.

Lemma AST_parse_no_fallback_restores_witness :
  let K := mkKind "$PAIR"%string Samples.ADD_SHAPE false false 1 BaseDriver in
  let lx := Lexer_new (lit "1+x"%string) in
  let r := parse Samples.G 5 K lx in
  r = Ok (None, got_lexer r) /\ cursor (got_lexer r) = cursor lx.
Proof.
  intros K lx r.
  assert (E : r = Ok (None, got_lexer r)) by (vm_compute; reflexivity).
  split; [exact E|].
  exact (@AST_parse_no_fallback_restores Samples.G 5 K lx (got_lexer r)
           eq_refl eq_refl E).
Defined.

(** ** Tokens and text of a node *)

(** What the constructor of a node derives from its children: its tokens
    are the tokens of the children in order, its text is the texts of the
    children joined, and every token is either a content token or a
    white-space token. *)
Theorem node_tokens_text (n : Node) :
  tokens n = flat_map exp_tokens (exps n) /\
  text n = concat (map exp_text (exps n)) /\
  length (tokens n) = length (contentTokens n) + length (whiteSpaceTokens n) /\
  (forall t, In t (tokens n) <-> In t (contentTokens n) \/ In t (whiteSpaceTokens n)).
Proof.
  split; [apply tokens_flat_map|]. split; [|split].
  - unfold text. rewrite tokens_flat_map.
    induction (exps n) as [|e l IH]; [reflexivity|].
    cbn [flat_map map concat]. rewrite map_app, concat_app, IH.
    destruct e as [t|m]; [cbn; now rewrite app_nil_r|reflexivity].
  - unfold contentTokens, whiteSpaceTokens.
    induction (tokens n) as [|t l IH]; [reflexivity|].
    cbn [filter length]. destruct (isWhiteSpace t); cbn [negb length]; lia.
  - intros t. unfold contentTokens, whiteSpaceTokens.
    rewrite !filter_In. destruct (isWhiteSpace t); cbn [negb]; tauto.
Qed.

(** [getVisibleTokens(lineStart, lineEnd)] walks the tree, yet what it
    lists is, in order, the tokens of the node whose line is in the
    range.  Each entry carries the name, less its first character, of the
    node the token is a child of: for each child of a node the entries
    are, for a token in the range, the one entry of the token with the
    name of that node, for a token out of the range none, and for a node
    its own entries; so an entry is in the list exactly when its token is
    in the range and is a child of a node of the tree (the node itself
    included) that has that name. *)
Theorem getVisibleTokens_filter (lineStart : Z) (lineEnd : option Z) :
  forall n : Node,
    map fst (getVisibleTokens lineStart lineEnd n)
    = filter (visible lineStart lineEnd) (tokens n) /\
    getVisibleTokens lineStart lineEnd n
    = flat_map (fun e => match e with
                         | ETok t => if visible lineStart lineEnd t
                                     then [(t, astName n)] else []
                         | ENode m => getVisibleTokens lineStart lineEnd m
                         end) (exps n) /\
    (forall t nm,
        In (t, nm) (getVisibleTokens lineStart lineEnd n) <->
        exists p, subnode p n /\ In (ETok t) (exps p) /\ nm = astName p /\
                  visible lineStart lineEnd t = true).
Proof.
  assert (Hflat : forall n,
             getVisibleTokens lineStart lineEnd n
             = flat_map (fun e => match e with
                                  | ETok t => if visible lineStart lineEnd t
                                              then [(t, astName n)] else []
                                  | ENode m => getVisibleTokens lineStart lineEnd m
                                  end) (exps n)).
  { intros [nm l s]. cbn [getVisibleTokens exps].
    generalize (astName (mkNode nm l s)) as an. intros an.
    induction l as [|e l IHl]; [reflexivity|].
    destruct e as [t|m]; cbn [flat_map]; rewrite IHl; [|reflexivity].
    destruct (visible lineStart lineEnd t); reflexivity. }
  assert (Hfst : forall n,
             map fst (getVisibleTokens lineStart lineEnd n)
             = filter (visible lineStart lineEnd) (tokens n)).
  { fix IH 1. intros [nm l s]. cbn [getVisibleTokens tokens exps].
    generalize (astName (mkNode nm l s)) as an. intros an.
    induction l as [|e l IHl]; [reflexivity|].
    destruct e as [t|m].
    - cbn [filter]. destruct (visible lineStart lineEnd t); cbn [map fst];
        now rewrite IHl.
    - rewrite map_app, filter_app, IH, IHl. reflexivity. }
  assert (Hin : forall n t nm,
             In (t, nm) (getVisibleTokens lineStart lineEnd n) ->
             exists p, subnode p n /\ In (ETok t) (exps p) /\ nm = astName p /\
                       visible lineStart lineEnd t = true).
  { fix IH 1. intros [nm0 l s] t nm H. rewrite Hflat in H. cbn [exps] in H.
    assert (Hl : forall l', incl l' l ->
               In (t, nm)
                  (flat_map (fun e => match e with
                                      | ETok t0 =>
                                          if visible lineStart lineEnd t0
                                          then [(t0, astName (mkNode nm0 l s))]
                                          else []
                                      | ENode m => getVisibleTokens lineStart lineEnd m
                                      end) l') ->
               exists p, subnode p (mkNode nm0 l s) /\ In (ETok t) (exps p) /\
                         nm = astName p /\ visible lineStart lineEnd t = true).
    { induction l' as [|e l' IHl']; intros Hinc Hx; [contradiction|].
      cbn [flat_map] in Hx. apply in_app_or in Hx. destruct Hx as [Hx|Hx].
      - destruct e as [t0|m].
        + destruct (visible lineStart lineEnd t0) eqn:Ev; [|contradiction].
          destruct Hx as [Hx|[]]. injection Hx as <- <-.
          exists (mkNode nm0 l s). split; [constructor|].
          split; [cbn [exps]; apply Hinc; now left|]. split; [reflexivity|exact Ev].
        + apply IH in Hx. destruct Hx as (p & Hp & Hrest).
          exists p. split; [|exact Hrest].
          apply sub_step with (m := m); [cbn [exps]; apply Hinc; now left|exact Hp].
      - apply IHl'; [|exact Hx]. intros x Hx'. apply Hinc. now right. }
    apply (Hl l); [apply incl_refl|exact H]. }
  intros n. split; [apply Hfst|]. split; [apply Hflat|].
  intros t nm. split; [apply Hin|].
  intros (p & Hp & Hc & -> & Ev). induction Hp as [|m n0 Hm _ IH].
  - rewrite Hflat. apply in_flat_map. exists (ETok t). split; [exact Hc|].
    rewrite Ev. now left.
  - rewrite Hflat. apply in_flat_map. exists (ENode m). split; [exact Hm|].
    apply IH; assumption.
Qed.

(** ** [$EXP.parse] *)

Lemma split_at_AST_spec (l : list exp) :
  match split_at_AST l with
  | Some (leading, a, trailing) =>
      l = leading ++ ENode a :: trailing /\
      Forall (fun e => exists t, e = ETok t) leading
  | None => Forall (fun e => exists t, e = ETok t) l
  end.
Proof.
  induction l as [|e l IH]; cbn [split_at_AST]; [constructor|].
  destruct e as [t|a].
  - destruct (split_at_AST l) as [[[ld a] tr]|].
    + destruct IH as [-> IH]. split; [reflexivity|]. constructor; eauto.
    + constructor; eauto.
  - split; [reflexivity|constructor].
Qed.

(** [$EXP.parse] lifts the first node child of what [$AST.parse] built in
    place of the node built.  When [$AST.parse] returns a node with a node
    child, the children of that node are tokens, then the first node
    child, then the rest; the node returned has the class of that first
    node child and holds those tokens, the children of that child and the
    rest, so it has the same tokens, hence the same text, as the node of
    [$AST.parse]; the cursor is where [$AST.parse] left it.  It returns
    nothing exactly when [$AST.parse] does, and raises when [$AST.parse]
    hands back a token or a node without a node child. *)
Theorem EXP_parse_flattens (rec : parse_exp_t) (K : Kind) (lx : Lexer) :
  match AST_parse rec K lx with
  | Ok (Some (ENode n), lx1) =>
      (exists leading a trailing m,
          EXP_parse rec K lx = Ok (Some (ENode m), lx1) /\
          exps n = leading ++ ENode a :: trailing /\
          Forall (fun e => exists t, e = ETok t) leading /\
          name m = name a /\
          exps m = leading ++ exps a ++ trailing /\
          tokens m = tokens n /\ text m = text n) \/
      (EXP_parse rec K lx = Thrown /\
       Forall (fun e => exists t, e = ETok t) (exps n))
  | Ok (Some (ETok _), _) => EXP_parse rec K lx = Thrown
  | Ok (None, lx1) => EXP_parse rec K lx = Ok (None, lx1)
  | Thrown => EXP_parse rec K lx = Thrown
  | NoFuel => EXP_parse rec K lx = NoFuel
  end.
Proof.
  unfold EXP_parse. destruct (AST_parse rec K lx) as [[[[t|n]|] lx1]| |];
    cbn [bind]; try reflexivity.
  pose proof (split_at_AST_spec (exps n)) as Hs.
  destruct (split_at_AST (exps n)) as [[[ld a] tr]|].
  - left. destruct Hs as [El Hld].
    exists ld, a, tr, (mkNode (name a) (ld ++ exps a ++ tr) None).
    split; [reflexivity|]. split; [exact El|]. split; [exact Hld|].
    split; [reflexivity|]. split; [reflexivity|].
    assert (Et : tokens (mkNode (name a) (ld ++ exps a ++ tr) None) = tokens n).
    { rewrite (tokens_flat_map n), El, tokens_flat_map. cbn [exps].
      rewrite !flat_map_app. cbn [flat_map exp_tokens].
      now rewrite (tokens_flat_map a). }
    split; [exact Et|]. unfold text. now rewrite Et.
  - right. split; [reflexivity|exact Hs].
Qed.

Example test_EXP_parse :
  let K := AST_defaults "$E"%string [Samples.one (VAst "$ADD"%string) None] in
  let lx := Lexer_new (lit " 1+2"%string) in
  let r := EXP_parse (ShapeExp_parse Samples.G 6) K lx in
  match got_exp r, got_exp (AST_parse (ShapeExp_parse Samples.G 6) K lx) with
  | Some (ENode m), Some (ENode n) =>
      name m = "$ADD"%string /\ name n = "$E"%string /\
      length (exps n) = 2 /\ length (exps m) = 4 /\
      text m = lit " 1+2"%string /\ cursor (got_lexer r) = 4
  | _, _ => False
  end.
Proof. vm_compute. repeat split. Qed.

(** ** Instances *)

Lemma linesInRange_spec_witness :
  let lx := Lexer_new Samples.three_lines in
  4 <= length (str lx) /\
  map Z.of_nat (linesInRange lx 4 4) = [currentLine (set_cursor lx 4)] /\
  linesInRange lx 4 4 = [1].
Proof.
  intros lx.
  assert (Hc : 4 <= length (str lx)) by (vm_compute; lia).
  split; [exact Hc|]. split; [|reflexivity].
  exact (proj2 (linesInRange_spec lx 0 0) 4 Hc).
Defined.

(** White space is consumed before the literal is tried; the failure
    puts the cursor back before it. *)
Lemma ShapeExp_parse_cursor_witness :
  let self := Samples.one (VText (Samples.S_ "a"%string)) None in
  let lx := Lexer_new (lit "  c"%string) in
  let r := ShapeExp_parse Samples.G 3 self lx in
  r = Ok (None, got_lexer r) /\
  cursor lx <= cursor (got_lexer r) /\ cursor (got_lexer r) = cursor lx.
Proof.
  intros self lx r.
  assert (E : r = Ok (None, got_lexer r)) by (vm_compute; reflexivity).
  destruct (@ShapeExp_parse_cursor Samples.G 3 self lx None (got_lexer r) E)
    as [H1 H2].
  split; [exact E|]. split; [exact H1|exact (H2 eq_refl)].
Defined.

Lemma parse_success_cursor_witness :
  let lx := set_cursor (Lexer_new (lit "x 1+2"%string)) 2 in
  let r := parse Samples.G 5 Samples.ADD lx in
  r = Ok (got_exp r, got_lexer r) /\ got_exp r <> None /\
  cursor lx <= cursor (got_lexer r).
Proof.
  intros lx r.
  assert (E : r = Ok (got_exp r, got_lexer r)) by (vm_compute; reflexivity).
  split; [exact E|]. split; [vm_compute; discriminate|].
  exact (@parse_success_cursor Samples.G 5 Samples.ADD lx (got_exp r) (got_lexer r) E).
Defined.

(** ** The scanner at an integer cursor *)

Lemma AnyCursor_failedMatch_agrees (p s : jstr) :
  forall c, AnyCursor.failedMatch p s (Z.of_nat c) = failedMatch p (skipn c s).
Proof.
  induction p as [|x p IH]; intros c; [reflexivity|].
  cbn [AnyCursor.failedMatch failedMatch]. unfold AnyCursor.charAt.
  replace (Z.of_nat c <? 0)%Z with false by (symmetry; apply Z.ltb_ge; lia).
  rewrite Nat2Z.id.
  destruct (nth_error s c) as [y|] eqn:E.
  - assert (Es : skipn c s = y :: skipn (S c) s).
    { clear IH. revert s E. induction c as [|c IHc]; intros [|z s] E;
        try discriminate.
      - injection E as ->. reflexivity.
      - cbn [skipn]. apply IHc. exact E. }
    rewrite Es. replace (Z.of_nat c + 1)%Z with (Z.of_nat (S c)) by lia.
    now rewrite IH.
  - apply nth_error_None in E. rewrite skipn_all2 by exact E. reflexivity.
Qed.

Lemma binarySearch_loop_ext (A : Type) (f g : A -> Z) (l : list A) :
  (forall x, f x = g x) ->
  forall fuel low high,
    binarySearch_loop f fuel l low high = binarySearch_loop g fuel l low high.
Proof.
  intros H. induction fuel as [|fuel IH]; intros low high; [reflexivity|].
  cbn [binarySearch_loop]. destruct (low <=? high)%Z; [|reflexivity].
  destruct (nth_error l (Z.to_nat ((low + high) / 2))) as [x|]; [|reflexivity].
  rewrite H, !IH. reflexivity.
Qed.

Lemma AnyCursor_line_cmp_agrees (c : nat) (o : nat * nat) :
  AnyCursor.line_cmp (Z.of_nat c) o = line_cmp c o.
Proof.
  destruct o as [s e]. unfold AnyCursor.line_cmp, line_cmp.
  destruct (c <? s) eqn:E1.
  - apply Nat.ltb_lt in E1.
    replace (Z.of_nat c <? Z.of_nat s)%Z with true
      by (symmetry; apply Z.ltb_lt; lia). reflexivity.
  - apply Nat.ltb_ge in E1.
    replace (Z.of_nat c <? Z.of_nat s)%Z with false
      by (symmetry; apply Z.ltb_ge; lia).
    destruct (e <? c) eqn:E2.
    + apply Nat.ltb_lt in E2.
      replace (Z.of_nat e <? Z.of_nat c)%Z with true
        by (symmetry; apply Z.ltb_lt; lia). reflexivity.
    + apply Nat.ltb_ge in E2.
      replace (Z.of_nat e <? Z.of_nat c)%Z with false
        by (symmetry; apply Z.ltb_ge; lia). reflexivity.
Qed.

Lemma AnyCursor_taste_agrees (regex : option pattern) (lx : Lexer) :
  AnyCursor.taste regex (Lexer_at lx)
  = (fst (taste regex lx), Lexer_at (snd (taste regex lx))).
Proof.
  destruct regex as [[[|x s]|r]|]; try reflexivity.
  - unfold AnyCursor.taste, taste. cbv zeta.
    cbn [AnyCursor.set_tasteCursor AnyCursor.tasteCursor AnyCursor.str
         AnyCursor.cursor Lexer_at set_tasteCursor tasteCursor str cursor].
    rewrite AnyCursor_failedMatch_agrees.
    destruct (failedMatch (x :: s) (skipn (cursor lx) (str lx))); cbn [fst snd].
    + reflexivity.
    + unfold Lexer_at, AnyCursor.set_tasteCursor.
      cbn [AnyCursor.str AnyCursor.cursor AnyCursor.tasteCursor
           AnyCursor.cursorStack set_tasteCursor str cursor tasteCursor
           cursorStack].
      now rewrite Nat2Z.inj_add.
  - unfold AnyCursor.taste, taste. cbv zeta.
    cbn [AnyCursor.set_tasteCursor AnyCursor.tasteCursor AnyCursor.str
         AnyCursor.cursor Lexer_at set_tasteCursor tasteCursor str cursor].
    rewrite Nat2Z.id.
    destruct (exec r (cursor lx) (str lx)) as [[i len]|]; cbn [fst snd].
    + unfold Lexer_at, AnyCursor.set_tasteCursor.
      cbn [AnyCursor.str AnyCursor.cursor AnyCursor.tasteCursor
           AnyCursor.cursorStack set_tasteCursor str cursor tasteCursor
           cursorStack].
      now rewrite Nat2Z.inj_add.
    + reflexivity.
Qed.

(** The scanner with an integer cursor and the scanner of the drivers are
    the same scanner from cursor [0] on: [taste] and [eat] give the same
    answer, token field by token field, and leave the same scanner. *)
Theorem AnyCursor_agrees (regex : option pattern) (lx : Lexer) :
  AnyCursor.taste regex (Lexer_at lx)
  = (fst (taste regex lx), Lexer_at (snd (taste regex lx))) /\
  AnyCursor.eat regex (Lexer_at lx)
  = (option_map Token_at (fst (eat regex lx)), Lexer_at (snd (eat regex lx))).
Proof.
  split; [apply AnyCursor_taste_agrees|].
  destruct regex as [p|]; [|reflexivity].
  unfold AnyCursor.eat, eat. rewrite AnyCursor_taste_agrees.
  destruct (taste (Some p) lx) as [[v|] lx1] eqn:Et; cbn [fst snd];
    [|reflexivity].
  pose proof (taste_tasteCursor _ _ Et) as Htc.
  cbv zeta. cbn [option_map]. f_equal.
  - f_equal. unfold Token_at.
    cbn [type value start end_ line col indent set_cursor cursor str
         AnyCursor.set_cursor AnyCursor.cursor AnyCursor.str Lexer_at
         AnyCursor.tasteCursor].
    assert (Ec : (Z.of_nat (tasteCursor lx1) - Z.of_nat (length v))%Z
                 = Z.of_nat (tasteCursor lx1 - length v)) by lia.
    rewrite Ec.
    assert (El : AnyCursor.currentLine
                   (AnyCursor.set_cursor (Lexer_at lx1)
                      (Z.of_nat (tasteCursor lx1 - length v)))
                 = currentLine (set_cursor lx1 (tasteCursor lx1 - length v))).
    { unfold AnyCursor.currentLine, currentLine, binarySearch.
      cbn [AnyCursor.cursor AnyCursor.set_cursor cursor set_cursor].
      unfold AnyCursor.lineOffsets, lineOffsets, lines.
      cbn [AnyCursor.str Lexer_at str set_cursor].
      apply binarySearch_loop_ext. intros o. apply AnyCursor_line_cmp_agrees. }
    rewrite El.
    unfold AnyCursor.lineIndents, lineIndents, lines.
    cbn [AnyCursor.str AnyCursor.set_cursor Lexer_at str set_cursor].
    f_equal. lia.
  - unfold Lexer_at, AnyCursor.set_cursor, set_cursor.
    cbn [AnyCursor.str AnyCursor.cursor AnyCursor.tasteCursor
         AnyCursor.cursorStack str cursor tasteCursor cursorStack].
    f_equal. lia.
Qed.
(** Below cursor [0] the scanner does not match at the cursor.  A literal
    never matches there.  A pattern may: [exec] starts from index [0], so
    a sticky pattern is matched at the first code unit of the input,
    whatever the cursor; the token gets the cursor as [start], the cursor
    plus the length of its value as [end], line [-1], col [0] and indent
    [0], and the cursor moves by the length of the value. *)
Theorem AnyCursor_eat_before_start (lx : AnyCursor.Lexer) (p : pattern) :
  (AnyCursor.cursor lx < 0)%Z ->
  (forall s, p = PStr s -> fst (AnyCursor.eat (Some p) lx) = None) /\
  (forall t lx',
      AnyCursor.eat (Some p) lx = (Some t, lx') ->
      exists r,
        p = PRe r /\
        AnyCursor.start t = AnyCursor.cursor lx /\
        AnyCursor.end_ t
        = (AnyCursor.cursor lx + Z.of_nat (length (AnyCursor.value t)))%Z /\
        AnyCursor.line t = (-1)%Z /\ AnyCursor.col t = 0%Z /\
        AnyCursor.indent t = 0 /\
        AnyCursor.cursor lx' = AnyCursor.end_ t /\
        AnyCursor.str lx' = AnyCursor.str lx /\
        (sticky r = true ->
         AnyCursor.value t
         = slice (AnyCursor.str lx) 0 (length (AnyCursor.value t)) /\
         In (length (AnyCursor.value t))
            (re_lens (source r) (AnyCursor.str lx)))).
Proof.
  intros Hneg.
  assert (Hlit : forall s, fst (AnyCursor.eat (Some (PStr s)) lx) = None).
  { intros [|x s]; [reflexivity|].
    unfold AnyCursor.eat, AnyCursor.taste. cbv zeta.
    cbn [AnyCursor.set_tasteCursor AnyCursor.tasteCursor AnyCursor.str
         AnyCursor.failedMatch].
    unfold AnyCursor.charAt.
    replace (AnyCursor.cursor lx <? 0)%Z with true
      by (symmetry; apply Z.ltb_lt; exact Hneg).
    reflexivity. }
  split; [intros s ->; apply Hlit|].
  intros t lx' H. destruct p as [s|r].
  { specialize (Hlit s). rewrite H in Hlit. discriminate. }
  exists r. split; [reflexivity|].
  unfold AnyCursor.eat, AnyCursor.taste in H. cbv zeta in H.
  cbn [AnyCursor.set_tasteCursor AnyCursor.tasteCursor AnyCursor.str
       AnyCursor.cursor] in H.
  replace (Z.to_nat (AnyCursor.cursor lx)) with 0 in H by lia.
  destruct (exec r 0 (AnyCursor.str lx)) as [[i len]|] eqn:Ex; [|discriminate].
  injection H as <- <-.
  assert (Hin : i + len <= length (AnyCursor.str lx))
    by (exact (exec_inside _ _ _ Ex)).
  assert (Hlen : length (slice (AnyCursor.str lx) i (i + len)) = len)
    by (apply slice_length; exact Hin).
  assert (Hline : forall l, (AnyCursor.cursor l < 0)%Z ->
                            AnyCursor.currentLine l = (-1)%Z).
  { intros l Hl. unfold AnyCursor.currentLine. apply binarySearch_none.
    intros [s e] _. unfold AnyCursor.line_cmp.
    replace (AnyCursor.cursor l <? Z.of_nat s)%Z with true
      by (symmetry; apply Z.ltb_lt; lia).
    discriminate. }
  rewrite Hline by (cbn; rewrite Hlen; lia).
  cbn [AnyCursor.start AnyCursor.end_ AnyCursor.line AnyCursor.col
       AnyCursor.indent AnyCursor.value AnyCursor.cursor AnyCursor.str
       AnyCursor.set_cursor AnyCursor.set_tasteCursor AnyCursor.tasteCursor].
  rewrite Hlen.
  set (c := AnyCursor.cursor lx) in *.
  replace (c + Z.of_nat len - Z.of_nat len)%Z with c by lia.
  split; [reflexivity|]. split; [reflexivity|]. split; [reflexivity|].
  split.
  { unfold lastIndexOf_nl. replace (Z.to_nat (c - 1)) with 0 by lia.
    pose proof (last_nl_upto_ge (AnyCursor.str lx) 1) as Hge.
    destruct (c - last_nl_upto (AnyCursor.str lx) 1 - 1 <? 0)%Z eqn:E;
      [reflexivity|apply Z.ltb_ge in E; lia]. }
  split; [reflexivity|]. split; [reflexivity|]. split; [reflexivity|].
  intros Hst. unfold exec in Ex. rewrite Hst in Ex.
  destruct (0 <=? length (AnyCursor.str lx)); [|discriminate].
  cbn [skipn] in Ex.
  destruct (hd_error (re_lens (source r) (AnyCursor.str lx))) as [n|] eqn:Eh;
    [|discriminate].
  injection Ex as <- <-. split; [reflexivity|].
  now apply hd_error_In.
Qed.

(** [/\S/y] *)
Lemma AnyCursor_eat_before_start_witness :
  let nonspace := mkRegExp (RSet (fun c => negb (is_js_space c))) true false in
  let lx := AnyCursor.mkLexer (lit "x"%string) (-1) 0 [] in
  let r := AnyCursor.eat (Some (PRe nonspace)) lx in
  let t := match fst r with
           | Some t => t
           | None => AnyCursor.mkToken (PStr []) [] 0 0 0 0 0
           end in
  (AnyCursor.cursor lx < 0)%Z /\
  r = (Some t, snd r) /\
  AnyCursor.value t = lit "x"%string /\
  AnyCursor.start t = (-1)%Z /\ AnyCursor.end_ t = 0%Z /\
  AnyCursor.line t = (-1)%Z /\ AnyCursor.col t = 0%Z /\
  AnyCursor.String_slice (AnyCursor.str lx) (AnyCursor.start t) (AnyCursor.end_ t)
  = [] /\
  AnyCursor.cursor (snd r) = 0%Z.
Proof.
  intros nonspace lx r t.
  assert (Hneg : (AnyCursor.cursor lx < 0)%Z) by (vm_compute; reflexivity).
  assert (Er : r = (Some t, snd r)) by (vm_compute; reflexivity).
  destruct (proj2 (AnyCursor_eat_before_start lx (PRe nonspace) Hneg) t (snd r) Er)
    as (r0 & _ & Hs & He & Hl & Hc & _ & Hcur & _).
  split; [exact Hneg|]. split; [exact Er|]. split; [reflexivity|].
  split; [exact Hs|]. split; [rewrite He; reflexivity|].
  split; [exact Hl|]. split; [exact Hc|]. split; [reflexivity|].
  rewrite Hcur, He. reflexivity.
Defined.

(** [parsedStr] and [unparsedStr] split the input at any integer cursor:
    a negative cursor counts from the end of the input.  From cursor [0]
    on [parsedStr] has [min(cursor, length)] code units and there is more
    to lex exactly when [unparsedStr] is not empty; below [0] it has
    [max(length + cursor, 0)] code units and [hasMoreToLex] is true even
    on the empty input, where [unparsedStr] is empty. *)
Theorem AnyCursor_parsed_unparsed (lx : AnyCursor.Lexer) :
  AnyCursor.parsedStr lx ++ AnyCursor.unparsedStr lx = AnyCursor.str lx /\
  ((0 <= AnyCursor.cursor lx)%Z ->
   Z.of_nat (length (AnyCursor.parsedStr lx))
   = Z.min (AnyCursor.cursor lx) (Z.of_nat (length (AnyCursor.str lx))) /\
   (AnyCursor.hasMoreToLex lx = true <-> AnyCursor.unparsedStr lx <> [])) /\
  ((AnyCursor.cursor lx < 0)%Z ->
   Z.of_nat (length (AnyCursor.parsedStr lx))
   = Z.max (Z.of_nat (length (AnyCursor.str lx)) + AnyCursor.cursor lx) 0 /\
   AnyCursor.hasMoreToLex lx = true /\
   (AnyCursor.unparsedStr lx <> [] <-> AnyCursor.str lx <> [])).
Proof.
  unfold AnyCursor.parsedStr, AnyCursor.unparsedStr, AnyCursor.hasMoreToLex,
    AnyCursor.String_slice, AnyCursor.String_slice_from.
  set (s := AnyCursor.str lx). set (c := AnyCursor.cursor lx).
  assert (H0 : AnyCursor.relative_index s 0 = 0).
  { unfold AnyCursor.relative_index. cbn. lia. }
  rewrite H0.
  assert (Hk : AnyCursor.relative_index s c <= length s).
  { unfold AnyCursor.relative_index.
    destruct (c <? 0)%Z eqn:E; [apply Z.ltb_lt in E|apply Z.ltb_ge in E]; lia. }
  set (k := AnyCursor.relative_index s c) in *.
  assert (Hp : slice s 0 k = firstn k s).
  { unfold slice. cbn [skipn]. now rewrite Nat.sub_0_r. }
  assert (Hu : slice s k (length s) = skipn k s).
  { unfold slice. apply firstn_all2. rewrite length_skipn. lia. }
  rewrite Hp, Hu.
  assert (Hne : skipn k s <> [] <-> k < length s).
  { split.
    - intros H. destruct (Nat.lt_ge_cases k (length s)) as [Hlt|Hge]; [exact Hlt|].
      exfalso. apply H. now apply skipn_all2.
    - intros Hlt E. apply (f_equal (@length ascii)) in E.
      rewrite length_skipn in E. simpl in E. lia. }
  split; [apply firstn_skipn|]. split.
  - intros Hc. rewrite length_firstn.
    assert (Ek : k = Z.to_nat (Z.min c (Z.of_nat (length s)))).
    { unfold k, AnyCursor.relative_index.
      replace (c <? 0)%Z with false by (symmetry; apply Z.ltb_ge; lia).
      reflexivity. }
    split; [lia|]. rewrite Hne, Z.ltb_lt. lia.
  - intros Hc. rewrite length_firstn.
    assert (Ek : k = Z.to_nat (Z.max (Z.of_nat (length s) + c) 0)).
    { unfold k, AnyCursor.relative_index.
      replace (c <? 0)%Z with true by (symmetry; apply Z.ltb_lt; lia).
      reflexivity. }
    split; [lia|]. split; [apply Z.ltb_lt; lia|].
    rewrite Hne. split.
    + intros Hlt E. rewrite E in Hlt. simpl in Hlt. lia.
    + intros Hs. destruct s as [|x s']; [congruence|]. simpl length in *. lia.
Qed.

(** The cursor [$INDENT_BLOCK.parse] reaches from [0]: on ["ab cd"] at
    cursor [-1], [parsedStr] is ["ab c"] and [unparsedStr] is ["d"]. *)
Example test_parsedStr_before_start :
  let lx := AnyCursor.mkLexer (lit "ab cd"%string) (-1) 0 [] in
  AnyCursor.parsedStr lx = lit "ab c"%string /\
  AnyCursor.unparsedStr lx = lit "d"%string /\
  AnyCursor.hasMoreToLex lx = true.
Proof. vm_compute. repeat split. Qed.
